(** * The numeric kernel of optimize-me-js: matrix operations and signal
      processing, embedded from [src/matrix/matrixOperations.js] and
      [src/matrix/signalProcessing.js].

    JavaScript numbers are IEEE 754 binary64 values; they are modelled by
    Rocq's primitive floats, whose [+ - * /], [abs] and comparisons are the
    processor's, and every statement about the program is about doubles.
    The functions are written once over an interface [Number] of the
    operations they use, so that the text of [luDecomposition] can also be
    read in exact rational arithmetic, for one remark on the algorithm that
    is labelled as such.  Array lengths and loop counters are natural numbers
    (JavaScript arrays have fewer than 2^32 elements). *)

From Stdlib Require Import String Uint63 Floats QArith Qcanon.
From Stdlib Require Import ZArith Lia Bool List.
Import ListNotations.
Close Scope Qc_scope.
Close Scope Q_scope.
Open Scope nat_scope.

Set Warnings "-inexact-float".

(** ** Exceptions *)

(** [throw new Error(message)], and the two exceptions the engine itself
    raises on the paths below: [Array(len)] with a negative length, and a
    property read on [undefined] (a missing row). *)
Inductive exn : Type :=
| Error (message : string)
| RangeError
| TypeError.

Inductive result (A : Type) : Type :=
| Ok (a : A)
| Throw (e : exn).
Arguments Ok {A} a.
Arguments Throw {A} e.

Definition bind {A B : Type} (c : result A) (k : A -> result B) : result B :=
  match c with
  | Ok a => k a
  | Throw e => Throw e
  end.

Declare Scope js_scope.
Delimit Scope js_scope with js.
Notation "x <- c ;; k" := (bind c (fun x => k))
  (at level 61, c at next level, right associativity) : js_scope.
Notation "' pat <- c ;; k" := (bind c (fun x => match x with pat => k end))
  (at level 61, pat pattern, c at next level, right associativity) : js_scope.
Open Scope js_scope.

(** The error conditions of the kernel, by the message the source throws. *)
Definition SingularMatrix : exn := Error "Matrix is singular and cannot be inverted".
Definition NoUniqueSolution : exn := Error "System has no unique solution".
Definition ZeroPivot : exn := Error "Zero pivot encountered".
Definition InvalidLength : exn := Error "Input length must be a power of 2".
Definition LengthMismatch : exn := Error "Vectors must have the same length".

(** ** Loops *)

(** [for (let i = lo; i < hi; i++) body], the body acting on the state [S]. *)
Definition for_range {S : Type} (lo hi : nat) (body : nat -> S -> S) (s : S) : S :=
  fold_left (fun s i => body i s) (seq lo (hi - lo)) s.

(** The same loop when the body may throw: the first exception leaves it. *)
Fixpoint for_each_try {S : Type} (idx : list nat) (body : nat -> S -> result S)
    (s : S) : result S :=
  match idx with
  | [] => Ok s
  | i :: rest => s' <- body i s ;; for_each_try rest body s'
  end.

Definition for_range_try {S : Type} (lo hi : nat) (body : nat -> S -> result S)
    (s : S) : result S :=
  for_each_try (seq lo (hi - lo)) body s.

(** ** Arrays *)

(** [arr.map((x, i) => f(x, i))]. *)
Fixpoint mapi_from {A B : Type} (f : A -> nat -> B) (i : nat) (l : list A) : list B :=
  match l with
  | [] => []
  | x :: rest => f x i :: mapi_from f (S i) rest
  end.
Definition mapi {A B : Type} (f : A -> nat -> B) (l : list A) : list B :=
  mapi_from f 0 l.

(** The same [map] when the callback may throw: the first exception leaves
    it. *)
Fixpoint mapi_try_from {A B : Type} (f : A -> nat -> result B) (i : nat)
    (l : list A) : result (list B) :=
  match l with
  | [] => Ok []
  | x :: rest =>
      y <- f x i ;;
      ys <- mapi_try_from f (S i) rest ;;
      Ok (y :: ys)
  end.
Definition mapi_try {A B : Type} (f : A -> nat -> result B) (l : list A)
    : result (list B) :=
  mapi_try_from f 0 l.

(** [arr.filter((_, j) => keep(j))]. *)
Fixpoint filteri_from {A : Type} (keep : nat -> bool) (j : nat) (l : list A) : list A :=
  match l with
  | [] => []
  | x :: rest =>
      if keep j then x :: filteri_from keep (S j) rest
      else filteri_from keep (S j) rest
  end.
Definition filteri {A : Type} (keep : nat -> bool) (l : list A) : list A :=
  filteri_from keep 0 l.

(** Replacing element [i] of an array that has one. *)
Fixpoint upd {A : Type} (l : list A) (i : nat) (v : A) : list A :=
  match l, i with
  | [], _ => []
  | _ :: rest, 0 => v :: rest
  | x :: rest, S i' => x :: upd rest i' v
  end.

(** [Array(len)]: a negative length is a [RangeError]. *)
Definition js_Array {A : Type} (len : Z) (fill : A) : result (list A) :=
  if (len <? 0)%Z then Throw RangeError else Ok (repeat fill (Z.to_nat len)).

(** ** Numbers *)

Class Number (T : Type) : Type := {
  zero : T;                 (* the literal 0 *)
  one : T;                  (* the literal 1 *)
  add : T -> T -> T;
  sub : T -> T -> T;
  mul : T -> T -> T;
  div : T -> T -> T;
  opp : T -> T;             (* unary minus *)
  abs : T -> T;             (* Math.abs *)
  ltb : T -> T -> bool;     (* a < b; a > b is [ltb b a] *)
  tolerance : T;            (* the literal 1e-10 *)
  of_nat : nat -> T;        (* a length, a loop counter or an integer literal *)
  undef : T                 (* undefined used as a number: NaN *)
}.

(** IEEE 754 binary64, the numbers of the program. *)
#[export] Instance float_Number : Number float := {
  zero := 0%float;
  one := 1%float;
  add := PrimFloat.add;
  sub := PrimFloat.sub;
  mul := PrimFloat.mul;
  div := PrimFloat.div;
  opp := PrimFloat.opp;
  abs := PrimFloat.abs;
  ltb := PrimFloat.ltb;
  tolerance := 1e-10%float;
  of_nat := fun n => PrimFloat.of_uint63 (Uint63.of_Z (Z.of_nat n));
  undef := nan
}.

(** Exact rationals: the arithmetic the algorithms are designed in.  There
    is no rounding, no overflow and no NaN, so a statement in it says what
    the algorithm computes and nothing of a run on doubles.  It is used for
    one remark only, the product of the factors of [luDecomposition] on a
    square matrix, where every index read is inside its array and every
    divisor is a pivot that passed the tolerance test: the values given here
    to [undef] and to a division by zero are not reached there. *)
#[export] Instance Qc_Number : Number Qc := {
  zero := 0%Qc;
  one := 1%Qc;
  add := Qcplus;
  sub := Qcminus;
  mul := Qcmult;
  div := Qcdiv;
  opp := Qcopp;
  abs := fun x => if Qclt_le_dec x 0 then Qcopp x else x;
  ltb := fun x y => if Qclt_le_dec x y then true else false;
  tolerance := Q2Qc (1 # 10000000000);
  of_nat := fun n => Q2Qc (inject_Z (Z.of_nat n));
  undef := 0%Qc
}.

Module MatrixOperations.
Section Generic.
Context {T : Type} `{Number T}.

Definition matrix : Type := list (list T).

(** [a[i]] read as a number. *)
Definition get (a : list T) (i : nat) : T := nth i a undef.

(** [a[i] = v]: an index past the end extends the array, the holes
    reading as [undefined]. *)
Definition set (a : list T) (i : nat) (v : T) : list T :=
  if i <? length a then upd a i v
  else a ++ repeat undef (i - length a) ++ [v].

(** [M[i]] for a row index inside the loop bounds of its caller. *)
Definition row (M : matrix) (i : nat) : list T := nth i M [].
Definition get2 (M : matrix) (i j : nat) : T := get (row M i) j.
Definition set2 (M : matrix) (i j : nat) (v : T) : matrix :=
  upd M i (set (row M i) j v).

(** [Array(rows).fill(null).map(() => Array(cols).fill(0))]. *)
Definition zeros (rows cols : nat) : matrix := repeat (repeat zero cols) rows.

(** *** identityMatrix *)
Definition identityMatrix (n : nat) : matrix :=
  for_range 0 n (fun i result => set2 result i i one) (zeros n n).

(** *** matrixMultiply

    [A[0].length] and [B[0].length] fail on an empty array, and [B[k][j]]
    fails when [B] has no row [k]. *)
Definition matrixMultiply (A B : matrix) : result matrix :=
  let rowsA := length A in
  match A, B with
  | [], _ | _, [] => Throw TypeError
  | A0 :: _, B0 :: _ =>
      let colsA := length A0 in
      let colsB := length B0 in
      for_range_try 0 rowsA (fun i result =>
        for_range_try 0 colsB (fun j result =>
          for_range_try 0 colsA (fun k result =>
            if k <? length B
            then Ok (set2 result i j
                       (add (get2 result i j) (mul (get2 A i k) (get2 B k j))))
            else Throw TypeError) result) result)
        (zeros rowsA colsB)
  end.

(** *** matrixInverse *)

(** The pivot search: [maxRow] starts at [col] and moves to every later
    row whose entry in column [col] is strictly larger in magnitude. *)
Definition findPivot (augmented : matrix) (n col : nat) : nat :=
  for_range (col + 1) n (fun r maxRow =>
    if ltb (abs (get2 augmented maxRow col)) (abs (get2 augmented r col))
    then r else maxRow) col.

(** [[M[i], M[j]] = [M[j], M[i]]]. *)
Definition swapRows (M : matrix) (i j : nat) : matrix :=
  let ri := row M i in
  let rj := row M j in
  upd (upd M i rj) j ri.

Definition identityRow (n i : nat) : list T := set (repeat zero n) i one.

Definition augmentIdentity (m : matrix) : matrix :=
  let n := length m in
  mapi (fun r i => r ++ identityRow n i) m.

Definition scalePivotRow (n col : nat) (augmented : matrix) : matrix :=
  let pivot := get2 augmented col col in
  for_range 0 (2 * n) (fun j augmented =>
    set2 augmented col j (div (get2 augmented col j) pivot)) augmented.

Definition eliminateColumn (n col : nat) (augmented : matrix) : matrix :=
  for_range 0 n (fun r augmented =>
    if r =? col then augmented
    else
      let factor := get2 augmented r col in
      for_range 0 (2 * n) (fun j augmented =>
        set2 augmented r j
          (sub (get2 augmented r j) (mul factor (get2 augmented col j))))
        augmented) augmented.

(** One turn of the loop over [col]. *)
Definition inverseStep (n col : nat) (augmented : matrix) : result matrix :=
  let maxRow := findPivot augmented n col in
  let augmented := swapRows augmented col maxRow in
  if ltb (abs (get2 augmented col col)) tolerance then Throw SingularMatrix
  else Ok (eliminateColumn n col (scalePivotRow n col augmented)).

Definition matrixInverse (m : matrix) : result matrix :=
  let n := length m in
  augmented <- for_range_try 0 n (inverseStep n) (augmentIdentity m) ;;
  Ok (map (skipn n) augmented).

(** *** matrixDeterminant *)

(** [matrix.slice(1).map(row => row.filter((_, j) => j !== col))]. *)
Definition minor (m : matrix) (col : nat) : matrix :=
  map (filteri (fun j => negb (j =? col))) (tl m).

(** The recursion is on [n = matrix.length]; the minor has [n - 1] rows. *)
Fixpoint determinantOfSize (n : nat) (m : matrix) : T :=
  match n with
  | 0 => zero
  | S n' =>
      if n =? 1 then get2 m 0 0
      else if n =? 2 then
        sub (mul (get2 m 0 0) (get2 m 1 1)) (mul (get2 m 0 1) (get2 m 1 0))
      else
        for_range 0 n (fun col det =>
          let sign := if col mod 2 =? 0 then one else opp one in
          add det (mul (mul sign (get2 m 0 col))
                       (determinantOfSize n' (minor m col)))) zero
  end.

Definition matrixDeterminant (m : matrix) : T := determinantOfSize (length m) m.

(** *** luDecomposition *)

Definition dotLU (L U : matrix) (i j upto : nat) : T :=
  for_range 0 upto (fun k sum => add sum (mul (get2 L i k) (get2 U k j))) zero.

Definition luUpper (A : matrix) (j : nat) (LU : matrix * matrix) : matrix * matrix :=
  for_range 0 (j + 1) (fun i '(L, U) =>
    let sum := dotLU L U i j i in
    (L, set2 U i j (sub (get2 A i j) sum))) LU.

Definition luLower (A : matrix) (n j : nat) (LU : matrix * matrix)
    : result (matrix * matrix) :=
  for_range_try (j + 1) n (fun i '(L, U) =>
    let sum := dotLU L U i j j in
    if ltb (abs (get2 U j j)) tolerance then Throw ZeroPivot
    else Ok (set2 L i j (div (sub (get2 A i j) sum) (get2 U j j)), U)) LU.

Definition luColumn (A : matrix) (n j : nat) (LU : matrix * matrix)
    : result (matrix * matrix) :=
  luLower A n j (luUpper A j LU).

Definition luInit (n : nat) : matrix * matrix :=
  (for_range 0 n (fun i L => set2 L i i one) (zeros n n), zeros n n).

Definition luDecomposition (A : matrix) : result (matrix * matrix) :=
  let n := length A in
  for_range_try 0 n (luColumn A n) (luInit n).

(** *** linearEquationSolver *)

Definition augmentVector (A : matrix) (b : list T) : matrix :=
  mapi (fun r i => r ++ [get b i]) A.

Definition solverEliminate (n col : nat) (augmented : matrix) : matrix :=
  for_range (col + 1) n (fun r augmented =>
    let factor := div (get2 augmented r col) (get2 augmented col col) in
    for_range col (n + 1) (fun j augmented =>
      set2 augmented r j
        (sub (get2 augmented r j) (mul factor (get2 augmented col j))))
      augmented) augmented.

Definition solverStep (n col : nat) (augmented : matrix) : result matrix :=
  let maxRow := findPivot augmented n col in
  let augmented := swapRows augmented col maxRow in
  if ltb (abs (get2 augmented col col)) tolerance then Throw NoUniqueSolution
  else Ok (solverEliminate n col augmented).

(** [for (let i = n - 1; i >= 0; i--)]. *)
Definition backSubstitute (n : nat) (augmented : matrix) : list T :=
  fold_left (fun x i =>
    let x := set x i (get2 augmented i n) in
    let x := for_range (i + 1) n (fun j x =>
               set x i (sub (get x i) (mul (get2 augmented i j) (get x j)))) x in
    set x i (div (get x i) (get2 augmented i i)))
    (rev (seq 0 n)) (repeat zero n).

Definition linearEquationSolver (A : matrix) (b : list T) : result (list T) :=
  let n := length A in
  augmented <- for_range_try 0 n (solverStep n) (augmentVector A b) ;;
  Ok (backSubstitute n augmented).

(** *** dotProduct *)
Definition dotProduct (a b : list T) : result T :=
  if negb (length a =? length b) then Throw LengthMismatch
  else Ok (for_range 0 (length a) (fun i result =>
             add result (mul (get a i) (get b i))) zero).

(** *** matrixTranspose

    [matrix[0].length] fails on a matrix without rows.  The entries are
    copied; on a rectangular matrix every read [matrix[i][j]] is of an
    element. *)
Definition matrixTranspose (m : matrix) : result matrix :=
  let rows := length m in
  match m with
  | [] => Throw TypeError
  | m0 :: _ =>
      let cols := length m0 in
      Ok (for_range 0 rows (fun i result =>
            for_range 0 cols (fun j result =>
              set2 result j i (get2 m i j)) result)
            (zeros cols rows))
  end.

(** *** matrixAdd

    [A[0].length] fails on a matrix without rows, and [B[i][j]] fails when
    [B] has no row [i]; no shape is compared. *)
Definition matrixAdd (A B : matrix) : result matrix :=
  match A with
  | [] => Throw TypeError
  | _ :: _ =>
      mapi_try (fun row i =>
        mapi_try (fun val j =>
          if i <? length B then Ok (add val (get2 B i j))
          else Throw TypeError) row) A
  end.

(** *** matrixScalarMultiply *)
Definition matrixScalarMultiply (m : matrix) (scalar : T) : matrix :=
  map (map (fun val => mul val scalar)) m.

End Generic.
Arguments matrix T : clear implicits.

(** *** vectorMagnitude and vectorNormalize

    [Math.sqrt] is the correctly rounded square root of binary64, and
    [mag === 0] is the comparison of numbers, true of both zeros. *)
Definition Math_sqrt (x : float) : float := PrimFloat.sqrt x.

Definition vectorMagnitude (v : list float) : float :=
  Math_sqrt (fold_left (fun sum val => (sum + val * val)%float) v 0%float).

Definition vectorNormalize (v : list float) : list float :=
  let mag := vectorMagnitude v in
  if PrimFloat.eqb mag 0 then map (fun _ => 0%float) v
  else map (fun val => (val / mag)%float) v.

End MatrixOperations.

Module SignalProcessing.
Import MatrixOperations.

Section Generic.
Context {T : Type} `{Number T}.

(** *** convolution1d *)
Definition convolution1d (signal kernel : list T) : result (list T) :=
  let signalLen := length signal in
  let kernelLen := length kernel in
  let outputLen := (Z.of_nat signalLen + Z.of_nat kernelLen - 1)%Z in
  result <- js_Array outputLen zero ;;
  Ok (for_range 0 (Z.to_nat outputLen) (fun i result =>
        for_range 0 kernelLen (fun j result =>
          let signalIdx := (Z.of_nat i - Z.of_nat j)%Z in
          if ((0 <=? signalIdx) && (signalIdx <? Z.of_nat signalLen))%Z
          then set result i
                 (add (get result i)
                      (mul (get signal (Z.to_nat signalIdx)) (get kernel j)))
          else result) result) result).

(** *** fft and ifft

    [Math.cos], [Math.sin] and [Math.PI] are the engine's. *)
Variables (Math_cos Math_sin : T -> T) (Math_PI : T).

Record spectrum : Type := { real : list T; imag : list T }.

(** The loop that pushes [x[i]] on [even] or on [odd]. *)
Definition splitEvenOdd (x : list T) : list T * list T :=
  for_range 0 (length x) (fun i '(even, odd) =>
    if i mod 2 =? 0 then (even ++ [get x i], odd)
    else (even, odd ++ [get x i])) ([], []).

(** The combining loop, for [k] from 0 while [k < n / 2]. *)
Definition combine (n : nat) (fftEven fftOdd : spectrum) : spectrum :=
  let '(re, im) :=
    for_range 0 (n / 2) (fun k '(re, im) =>
      let angle := div (mul (mul (opp (of_nat 2)) Math_PI) (of_nat k)) (of_nat n) in
      let cos := Math_cos angle in
      let sin := Math_sin angle in
      let tReal := sub (mul cos (get (real fftOdd) k)) (mul sin (get (imag fftOdd) k)) in
      let tImag := add (mul cos (get (imag fftOdd) k)) (mul sin (get (real fftOdd) k)) in
      let re := set re k (add (get (real fftEven) k) tReal) in
      let im := set im k (add (get (imag fftEven) k) tImag) in
      let re := set re (k + n / 2) (sub (get (real fftEven) k) tReal) in
      let im := set im (k + n / 2) (sub (get (imag fftEven) k) tImag) in
      (re, im)) (repeat zero n, repeat zero n) in
  {| real := re; imag := im |}.

(** [fft] calls itself; [fuel] bounds the depth of the calls, and [None]
    is a computation that has not returned within it. *)
Fixpoint fft (fuel : nat) (x : list T) : option (result spectrum) :=
  match fuel with
  | 0 => None
  | S fuel' =>
      let n := length x in
      if n =? 1 then Some (Ok {| real := [get x 0]; imag := [zero] |})
      else if negb (n mod 2 =? 0) then Some (Throw InvalidLength)
      else
        let '(even, odd) := splitEvenOdd x in
        match fft fuel' even with
        | None => None
        | Some (Throw e) => Some (Throw e)
        | Some (Ok fftEven) =>
            match fft fuel' odd with
            | None => None
            | Some (Throw e) => Some (Throw e)
            | Some (Ok fftOdd) => Some (Ok (combine n fftEven fftOdd))
            end
        end
  end.

Definition ifft (fuel : nat) (X : spectrum) : option (result (list T)) :=
  let n := length (real X) in
  let conjugateImag := map opp (imag X) in
  match fft fuel (mapi (fun r i => r) (real X)) with
  | None => None
  | Some (Throw e) => Some (Throw e)
  | Some (Ok result) => Some (Ok (map (fun v => div v (of_nat n)) (real result)))
  end.

End Generic.
Arguments spectrum T : clear implicits.

(** *** The [Math] functions on binary64 that the image functions use *)

Definition float_of_Z (z : Z) : float := SF2Prim (binary_normalize prec emax z 0 false).

(** [Math.round]: the nearest integer, a tie going up; NaN, the infinities
  and the integers are returned as they are, and a result that is zero
  keeps the sign of the argument. *)
Definition Math_round (x : float) : float :=
match Prim2SF x with
| S754_finite s m e =>
    if (0 <=? e)%Z then x
    else
      let d := (2 ^ (- e))%Z in
      let v := if s then Z.neg m else Z.pos m in
      let r := ((2 * v + d) / (2 * d))%Z in
      if (r =? 0)%Z then (if s then (-0)%float else 0%float) else float_of_Z r
| _ => x
end.

Definition is_neg_zero (x : float) : bool :=
match Prim2SF x with S754_zero true => true | _ => false end.

(** [Math.max(a, b)] and [Math.min(a, b)]: NaN if either is NaN, and -0 is
  below +0. *)
Definition Math_max (a b : float) : float :=
if PrimFloat.is_nan a || PrimFloat.is_nan b then nan
else if PrimFloat.ltb a b then b
else if PrimFloat.ltb b a then a
else if is_neg_zero a then b else a.

Definition Math_min (a b : float) : float :=
if PrimFloat.is_nan a || PrimFloat.is_nan b then nan
else if PrimFloat.ltb a b then a
else if PrimFloat.ltb b a then b
else if is_neg_zero a then a else b.

(** The array index a number denotes when used as a property key: the
  non-negative integers (and -0); any other number names no element. *)
Definition index_of (x : float) : option nat :=
match Prim2SF x with
| S754_zero _ => Some 0
| S754_finite false m e =>
    if (0 <=? e)%Z then Some (Z.to_nat (Z.pos m * 2 ^ e))
    else if (Z.pos m mod 2 ^ (- e) =? 0)%Z then Some (Z.to_nat (Z.pos m / 2 ^ (- e)))
    else None
| _ => None
end.

Section Images.
Variables (Math_cos Math_sin : float -> float).
Definition Math_PI : float := 0x1.921fb54442d18p+1%float.

Definition image : Type := list (list float).

(** [image[0].length]: a [TypeError] on an image without rows. *)
Definition firstRowLength (img : image) : result nat :=
  match img with
  | [] => Throw TypeError
  | r :: _ => Ok (length r)
  end.

(** [image[yi][xi]] for numbers [yi], [xi] within the bounds tested before
    the read. *)
Definition pixel (img : image) (yi xi : float) : float :=
  match index_of yi, index_of xi with
  | Some y, Some x => get2 img y x
  | _, _ => nan
  end.

(** *** imageRotation *)
Definition imageRotation (img : image) (angleDegrees : float) : result image :=
  let rows := length img in
  cols <- firstRowLength img ;;
  let angleRad := (angleDegrees * Math_PI / 180)%float in
  let cos := Math_cos angleRad in
  let sin := Math_sin angleRad in
  let centerX := (of_nat cols / 2)%float in
  let centerY := (of_nat rows / 2)%float in
  Ok (for_range 0 rows (fun y result =>
        for_range 0 cols (fun x result =>
          let dx := (of_nat x - centerX)%float in
          let dy := (of_nat y - centerY)%float in
          let srcX := (cos * dx + sin * dy + centerX)%float in
          let srcY := (- sin * dx + cos * dy + centerY)%float in
          let srcXi := Math_round srcX in
          let srcYi := Math_round srcY in
          if PrimFloat.leb 0 srcXi && PrimFloat.ltb srcXi (of_nat cols)
             && PrimFloat.leb 0 srcYi && PrimFloat.ltb srcYi (of_nat rows)
          then set2 result y x (pixel img srcYi srcXi)
          else result) result)
        (zeros rows cols)).

(** *** histogramEqualization *)

Definition clampPixel (v : float) : float :=
  Math_min 255 (Math_max 0 (Math_round v)).

(** [a[value]] and [a[value] = v] for a number [value]: a value that is
    not an index names no element of the array. *)
Definition getAt (a : list float) (value : float) : float :=
  match index_of value with
  | Some i => get a i
  | None => nan
  end.
Definition setAt (a : list float) (value : float) (v : float) : list float :=
  match index_of value with
  | Some i => set a i v
  | None => a
  end.

Definition computeHistogram (img : image) (rows cols : nat) : list float :=
  for_range 0 rows (fun i histogram =>
    for_range 0 cols (fun j histogram =>
      let value := clampPixel (get2 img i j) in
      setAt histogram value (getAt histogram value + 1)%float) histogram)
    (repeat 0%float 256).

Definition computeCdf (histogram : list float) : list float :=
  for_range 1 256 (fun i cdf =>
    set cdf i (get cdf (i - 1) + get histogram i)%float)
    (set (repeat 0%float 256) 0 (get histogram 0)).

(** The loop that stops at the first non-zero entry of the CDF. *)
Definition findCdfMin (cdf : list float) : float :=
  match find (fun c => PrimFloat.ltb 0 c) (firstn 256 cdf) with
  | Some c => c
  | None => 0%float
  end.

Definition histogramEqualization (img : image) : result image :=
  let rows := length img in
  cols <- firstRowLength img ;;
  let totalPixels := (of_nat rows * of_nat cols)%float in
  let histogram := computeHistogram img rows cols in
  let cdf := computeCdf histogram in
  let cdfMin := findCdfMin cdf in
  let lookup :=
    for_range 0 256 (fun i lookup =>
      set lookup i
        (Math_round ((get cdf i - cdfMin) * 255 / (totalPixels - cdfMin))%float))
      (repeat 0%float 256) in
  Ok (for_range 0 rows (fun i result =>
        for_range 0 cols (fun j result =>
          let value := clampPixel (get2 img i j) in
          set2 result i j (getAt lookup value)) result)
        (zeros rows cols)).

End Images.

Section Filters.
Variable Math_exp : float -> float.

(** *** createGaussianKernel

    [size] is a whole number; [Math.exp] is the engine's. *)
Definition createGaussianKernel (size : nat) (sigma : float) : image :=
  let center := size / 2 in
  let '(kernel, sum) :=
    for_range 0 size (fun i state =>
      for_range 0 size (fun j '(kernel, sum) =>
        let x := (of_nat i - of_nat center)%float in
        let y := (of_nat j - of_nat center)%float in
        let value := Math_exp (- (x * x + y * y) / (2 * sigma * sigma))%float in
        (set2 kernel i j value, (sum + value)%float)) state)
      (zeros size size, 0%float) in
  for_range 0 size (fun i kernel =>
    for_range 0 size (fun j kernel =>
      set2 kernel i j (get2 kernel i j / sum)%float) kernel) kernel.

(** *** convolution2d

    [image[0].length] fails on an image without rows; a kernel entry that
    a short kernel row does not have multiplies as [undefined]. *)
Definition convolution2d (img kernel : image) : result image :=
  let imageRows := length img in
  imageCols <- firstRowLength img ;;
  let kernelSize := length kernel in
  let pad := kernelSize / 2 in
  Ok (for_range 0 imageRows (fun i result =>
        for_range 0 imageCols (fun j result =>
          let sum :=
            for_range 0 kernelSize (fun ki sum =>
              for_range 0 kernelSize (fun kj sum =>
                let ii := (Z.of_nat i + Z.of_nat ki - Z.of_nat pad)%Z in
                let jj := (Z.of_nat j + Z.of_nat kj - Z.of_nat pad)%Z in
                if ((0 <=? ii) && (ii <? Z.of_nat imageRows)
                    && (0 <=? jj) && (jj <? Z.of_nat imageCols))%Z
                then (sum + get2 img (Z.to_nat ii) (Z.to_nat jj)
                            * get2 kernel ki kj)%float
                else sum) sum) 0%float in
          set2 result i j sum) result)
        (zeros imageRows imageCols)).

(** *** gaussianBlur

    An argument that is left out takes its default, 5 and 1.0. *)
Definition gaussianBlur (img : image) (kernelSize : option nat)
    (sigma : option float) : result image :=
  let kernelSize := match kernelSize with Some k => k | None => 5 end in
  let sigma := match sigma with Some s => s | None => 1%float end in
  let kernel := createGaussianKernel kernelSize sigma in
  convolution2d img kernel.

End Filters.

(** *** rollingMean

    [window] is a whole number; in the branch that sums, [i - j] is an index
    of the series, [j < window <= i + 1]. *)
Definition rollingMean (series : list float) (window : nat) : list float :=
  for_range 0 (length series) (fun i result =>
    if (Z.of_nat i <? Z.of_nat window - 1)%Z then result ++ [nan]
    else
      let sum :=
        for_range 0 window (fun j sum => (sum + get series (i - j))%float)
          0%float in
      result ++ [(sum / of_nat window)%float]) [].

End SignalProcessing.

(** * Reasoning about loops and arrays *)

Section LoopFacts.
Context {S : Type}.

Lemma for_range_empty (lo hi : nat) (body : nat -> S -> S) (s : S) :
  hi <= lo -> for_range lo hi body s = s.
Proof.
  intros Hle. unfold for_range.
  replace (hi - lo) with 0 by lia. reflexivity.
Qed.

Lemma for_range_last (lo hi : nat) (body : nat -> S -> S) (s : S) :
  lo <= hi -> for_range lo (hi + 1) body s = body hi (for_range lo hi body s).
Proof.
  intros Hle. unfold for_range.
  replace (hi + 1 - lo) with ((hi - lo) + 1) by lia.
  rewrite seq_app, fold_left_app. simpl.
  replace (lo + (hi - lo)) with hi by lia. reflexivity.
Qed.

Lemma for_range_first (lo hi : nat) (body : nat -> S -> S) (s : S) :
  lo < hi -> for_range lo hi body s = for_range (lo + 1) hi body (body lo s).
Proof.
  intros Hlt. unfold for_range.
  replace (hi - lo) with (1 + (hi - (lo + 1))) by lia.
  simpl. replace (lo + 1) with (Datatypes.S lo) by lia. reflexivity.
Qed.

(** The invariant rule of a counting loop. *)
Lemma for_range_invariant (P : nat -> S -> Prop) (lo hi : nat)
    (body : nat -> S -> S) (s : S) :
  lo <= hi ->
  P lo s ->
  (forall i t, lo <= i < hi -> P i t -> P (i + 1) (body i t)) ->
  P hi (for_range lo hi body s).
Proof.
  intros Hle Hinit Hstep.
  induction hi as [|hi IH].
  - assert (lo = 0) by lia. subst lo. rewrite for_range_empty by lia. exact Hinit.
  - destruct (Nat.eq_dec lo (Datatypes.S hi)) as [->|Hne].
    + rewrite for_range_empty by lia. exact Hinit.
    + replace (Datatypes.S hi) with (hi + 1) by lia.
      rewrite for_range_last by lia.
      apply Hstep; [lia|]. apply IH; [lia|].
      intros i t Hi. apply Hstep. lia.
Qed.

Lemma for_range_ext (lo hi : nat) (f g : nat -> S -> S) (s : S) :
  (forall i t, lo <= i < hi -> f i t = g i t) ->
  for_range lo hi f s = for_range lo hi g s.
Proof.
  intros Hfg. destruct (Nat.le_gt_cases lo hi) as [Hle|Hgt].
  - apply (for_range_invariant
             (fun i t => t = for_range lo i g s)); auto.
    + now rewrite for_range_empty.
    + intros i t Hi ->. rewrite for_range_last by lia. apply Hfg. lia.
  - now rewrite !for_range_empty by lia.
Qed.

Lemma for_each_try_app (l1 l2 : list nat) (body : nat -> S -> result S) (s : S) :
  for_each_try (l1 ++ l2) body s =
  (s' <- for_each_try l1 body s ;; for_each_try l2 body s').
Proof.
  revert s. induction l1 as [|i l1 IH]; intros s; simpl; [reflexivity|].
  destruct (body i s); simpl; auto.
Qed.

Lemma for_range_try_empty (lo hi : nat) (body : nat -> S -> result S) (s : S) :
  hi <= lo -> for_range_try lo hi body s = Ok s.
Proof.
  intros Hle. unfold for_range_try.
  replace (hi - lo) with 0 by lia. reflexivity.
Qed.

Lemma for_range_try_last (lo hi : nat) (body : nat -> S -> result S) (s : S) :
  lo <= hi ->
  for_range_try lo (hi + 1) body s =
  (s' <- for_range_try lo hi body s ;; body hi s').
Proof.
  intros Hle. unfold for_range_try.
  replace (hi + 1 - lo) with ((hi - lo) + 1) by lia.
  rewrite seq_app, for_each_try_app. simpl.
  replace (lo + (hi - lo)) with hi by lia.
  destruct (for_each_try (seq lo (hi - lo)) body s); simpl; [|reflexivity].
  destruct (body hi a); reflexivity.
Qed.

Lemma for_range_try_first (lo hi : nat) (body : nat -> S -> result S) (s : S) :
  lo < hi ->
  for_range_try lo hi body s =
  (s' <- body lo s ;; for_range_try (lo + 1) hi body s').
Proof.
  intros Hlt. unfold for_range_try.
  replace (hi - lo) with (1 + (hi - (lo + 1))) by lia.
  simpl. replace (lo + 1) with (Datatypes.S lo) by lia. reflexivity.
Qed.

(** Splitting a loop at a point of its range. *)
Lemma for_range_try_split (lo mid hi : nat) (body : nat -> S -> result S) (s : S) :
  lo <= mid <= hi ->
  for_range_try lo hi body s =
  (s' <- for_range_try lo mid body s ;; for_range_try mid hi body s').
Proof.
  intros [H1 H2]. unfold for_range_try.
  replace (hi - lo) with ((mid - lo) + (hi - mid)) by lia.
  rewrite seq_app, for_each_try_app.
  replace (lo + (mid - lo)) with mid by lia. reflexivity.
Qed.

(** A loop whose body never throws is the plain loop. *)
Lemma for_range_try_pure (lo hi : nat) (body : nat -> S -> S) (s : S) :
  for_range_try lo hi (fun i t => Ok (body i t)) s = Ok (for_range lo hi body s).
Proof.
  unfold for_range_try, for_range.
  generalize (seq lo (hi - lo)) as l. intros l. revert s.
  induction l as [|i l IH]; intros s; simpl; auto.
Qed.

Lemma for_range_try_ext (lo hi : nat) (f g : nat -> S -> result S) (s : S) :
  (forall i t, lo <= i < hi -> f i t = g i t) ->
  for_range_try lo hi f s = for_range_try lo hi g s.
Proof.
  intros Hfg. unfold for_range_try.
  assert (Hin : forall i, In i (seq lo (hi - lo)) -> lo <= i < hi).
  { intros i Hi. apply in_seq in Hi. lia. }
  revert s Hin. generalize (seq lo (hi - lo)) as l.
  induction l as [|i l IH]; intros s Hin; simpl; [reflexivity|].
  rewrite Hfg by (apply Hin; now left).
  destruct (g i s); simpl; [|reflexivity].
  apply IH. intros j Hj. apply Hin. now right.
Qed.

(** The invariant rule of a loop that may throw: an invariant kept by
    every turn that returns holds of the state the loop returns. *)
Lemma for_range_try_invariant (P : nat -> S -> Prop) (lo hi : nat)
    (body : nat -> S -> result S) (s s' : S) :
  lo <= hi ->
  P lo s ->
  (forall i t t', lo <= i < hi -> P i t -> body i t = Ok t' -> P (i + 1) t') ->
  for_range_try lo hi body s = Ok s' ->
  P hi s'.
Proof.
  intros Hle Hinit Hstep. revert s'.
  induction hi as [|hi IH]; intros s' Hrun.
  - assert (lo = 0) by lia. subst lo.
    rewrite for_range_try_empty in Hrun by lia. now inversion Hrun; subst.
  - destruct (Nat.eq_dec lo (Datatypes.S hi)) as [->|Hne].
    + rewrite for_range_try_empty in Hrun by lia. now inversion Hrun; subst.
    + replace (Datatypes.S hi) with (hi + 1) in * by lia.
      rewrite for_range_try_last in Hrun by lia.
      destruct (for_range_try lo hi body s) as [t|e] eqn:Hprev; simpl in Hrun;
        [|discriminate].
      apply (Hstep hi t s'); [lia| |exact Hrun].
      apply IH; [lia| |reflexivity].
      intros i u u' Hi. apply Hstep. lia.
Qed.
End LoopFacts.

(** Bring the invariant [P] of the loop in the goal into the context. *)
Ltac loop_invariant P :=
  match goal with
  | |- context [for_range ?lo ?hi ?body ?s] =>
      let Hinv := fresh "Hinv" in
      assert (Hinv : P hi (for_range lo hi body s));
      [apply (for_range_invariant P lo hi body s)|cbv beta in Hinv]
  end.

Section ArrayFacts.
Context {A : Type}.

Lemma upd_length (l : list A) (i : nat) (v : A) : length (upd l i v) = length l.
Proof.
  revert i. induction l as [|x l IH]; intros [|i]; simpl; auto.
Qed.

Lemma nth_upd (l : list A) (i j : nat) (v d : A) :
  i < length l -> nth j (upd l i v) d = if j =? i then v else nth j l d.
Proof.
  revert i j. induction l as [|x l IH]; intros i j Hi; simpl in Hi; [lia|].
  destruct i as [|i], j as [|j]; simpl; auto.
  apply IH. lia.
Qed.

Lemma nth_upd_other (l : list A) (i j : nat) (v d : A) :
  j <> i -> nth j (upd l i v) d = nth j l d.
Proof.
  revert i j. induction l as [|x l IH]; intros i j Hne; simpl.
  - reflexivity.
  - destruct i as [|i], j as [|j]; simpl; auto; try lia.
Qed.

Lemma upd_beyond (l : list A) (i : nat) (v : A) : length l <= i -> upd l i v = l.
Proof.
  revert i. induction l as [|x l IH]; intros i Hi; simpl in *; [now destruct i|].
  destruct i as [|i]; [lia|]. f_equal. apply IH. lia.
Qed.

Lemma upd_same (l : list A) (i : nat) (d : A) : upd l i (nth i l d) = l.
Proof.
  revert i. induction l as [|x l IH]; intros [|i]; simpl; auto.
  f_equal. apply IH.
Qed.

Lemma upd_twice (l : list A) (i : nat) (v w : A) : upd (upd l i v) i w = upd l i w.
Proof.
  revert i. induction l as [|x l IH]; intros [|i]; simpl; auto.
  f_equal. apply IH.
Qed.

(** Two arrays with the same length and the same elements are equal. *)
Lemma nth_ext_eq (l l' : list A) (d : A) :
  length l = length l' ->
  (forall i, i < length l -> nth i l d = nth i l' d) ->
  l = l'.
Proof.
  intros Hlen Hnth. apply (nth_ext l l' d d); auto.
Qed.

Lemma mapi_from_length {B : Type} (f : A -> nat -> B) (k : nat) (l : list A) :
  length (mapi_from f k l) = length l.
Proof.
  revert k. induction l as [|x l IH]; intros k; simpl; auto.
Qed.

Lemma nth_mapi_from {B : Type} (f : A -> nat -> B) (k i : nat) (l : list A)
    (d : A) (e : B) :
  i < length l -> nth i (mapi_from f k l) e = f (nth i l d) (k + i).
Proof.
  revert k i. induction l as [|x l IH]; intros k i Hi; simpl in Hi; [lia|].
  destruct i as [|i]; simpl.
  - now rewrite Nat.add_0_r.
  - rewrite (IH (Datatypes.S k) i) by lia. f_equal. lia.
Qed.
End ArrayFacts.

Module ArrayLemmas.
Import MatrixOperations.
Section NumberArrays.
Context {T : Type} `{Number T}.

Lemma set_inside (a : list T) (i : nat) (v : T) :
  i < length a -> set a i v = upd a i v.
Proof.
  intros Hi. unfold set. apply Nat.ltb_lt in Hi. now rewrite Hi.
Qed.

Lemma set_length (a : list T) (i : nat) (v : T) :
  i < length a -> length (set a i v) = length a.
Proof.
  intros Hi. rewrite set_inside by exact Hi. apply upd_length.
Qed.

Lemma get_set (a : list T) (i j : nat) (v : T) :
  i < length a -> get (set a i v) j = if j =? i then v else get a j.
Proof.
  intros Hi. rewrite set_inside by exact Hi. unfold get. now apply nth_upd.
Qed.

Lemma get_set_same (a : list T) (i : nat) (v : T) :
  i < length a -> get (set a i v) i = v.
Proof.
  intros Hi. rewrite get_set by exact Hi. now rewrite Nat.eqb_refl.
Qed.

Lemma get_set_other (a : list T) (i j : nat) (v : T) :
  i < length a -> j <> i -> get (set a i v) j = get a j.
Proof.
  intros Hi Hne. rewrite get_set by exact Hi.
  apply Nat.eqb_neq in Hne. now rewrite Hne.
Qed.

Lemma set_get_same (a : list T) (i : nat) :
  i < length a -> set a i (get a i) = a.
Proof.
  intros Hi. rewrite set_inside by exact Hi. apply upd_same.
Qed.

Lemma set_twice (a : list T) (i : nat) (v w : T) :
  i < length a -> set (set a i v) i w = set a i w.
Proof.
  intros Hi. rewrite (set_inside (set a i v)) by (rewrite set_length; auto).
  rewrite !set_inside by exact Hi. apply upd_twice.
Qed.

Lemma get_repeat (v : T) (n i : nat) : i < n -> get (repeat v n) i = v.
Proof.
  intros Hi. unfold get. apply nth_repeat_lt. exact Hi.
Qed.

(** A matrix with [r] rows of [c] entries. *)
Definition shaped (r c : nat) (M : matrix T) : Prop :=
  length M = r /\ forall i, i < r -> length (row M i) = c.

Lemma set2_length (M : matrix T) (i j : nat) (v : T) :
  length (set2 M i j v) = length M.
Proof. apply upd_length. Qed.

Lemma row_set2 (M : matrix T) (i j i' : nat) (v : T) :
  i < length M ->
  row (set2 M i j v) i' = if i' =? i then set (row M i) j v else row M i'.
Proof.
  intros Hi. unfold set2, row at 1. now apply nth_upd.
Qed.

Lemma get2_set2 (M : matrix T) (i j i' j' : nat) (v : T) :
  i < length M -> j < length (row M i) ->
  get2 (set2 M i j v) i' j' = if (i' =? i) && (j' =? j) then v else get2 M i' j'.
Proof.
  intros Hi Hj. unfold get2. rewrite row_set2 by exact Hi.
  destruct (i' =? i) eqn:Ei; simpl; [|reflexivity].
  apply Nat.eqb_eq in Ei. subst i'. now apply get_set.
Qed.

Lemma shaped_set2 (r c : nat) (M : matrix T) (i j : nat) (v : T) :
  shaped r c M -> i < r -> j < c -> shaped r c (set2 M i j v).
Proof.
  intros [Hr Hc] Hi Hj. split.
  - now rewrite set2_length.
  - intros k Hk. rewrite row_set2 by lia.
    destruct (k =? i) eqn:E; [|now apply Hc].
    rewrite set_length; rewrite Hc; auto.
Qed.

Lemma get2_set2_shaped (r c : nat) (M : matrix T) (i j i' j' : nat) (v : T) :
  shaped r c M -> i < r -> j < c ->
  get2 (set2 M i j v) i' j' = if (i' =? i) && (j' =? j) then v else get2 M i' j'.
Proof.
  intros [Hr Hc] Hi Hj. apply get2_set2; [lia|]. rewrite Hc; auto.
Qed.

Lemma row_zeros (r c i : nat) : i < r -> row (zeros r c) i = repeat zero c.
Proof.
  intros Hi. unfold row, zeros. now apply nth_repeat_lt.
Qed.

Lemma shaped_zeros (r c : nat) : shaped r c (zeros r c).
Proof.
  split.
  - apply repeat_length.
  - intros i Hi. rewrite row_zeros by exact Hi. apply repeat_length.
Qed.

Lemma get2_zeros (r c i j : nat) : i < r -> j < c -> get2 (zeros r c) i j = zero.
Proof.
  intros Hi Hj. unfold get2. rewrite row_zeros by exact Hi. now apply get_repeat.
Qed.

(** Two matrices of one shape with the same entries are equal. *)
Lemma shaped_ext (r c : nat) (M N : matrix T) :
  shaped r c M -> shaped r c N ->
  (forall i j, i < r -> j < c -> get2 M i j = get2 N i j) ->
  M = N.
Proof.
  intros [HrM HcM] [HrN HcN] Hentries.
  apply (nth_ext_eq M N []); [congruence|].
  intros i Hi. rewrite HrM in Hi.
  apply (nth_ext_eq _ _ undef).
  - fold (row M i) (row N i). rewrite HcM, HcN; auto.
  - intros j Hj. fold (row M i) in Hj |- *. fold (row N i).
    rewrite HcM in Hj by exact Hi. now apply Hentries.
Qed.

(** A loop that only rewrites element [i] of an array computes, in that
    element, the fold of its updates. *)
Lemma for_range_accumulate (lo hi i : nat) (cond : nat -> bool)
    (f : T -> nat -> T) (a : list T) :
  i < length a ->
  for_range lo hi (fun j a => if cond j then set a i (f (get a i) j) else a) a =
  set a i (for_range lo hi (fun j acc => if cond j then f acc j else acc) (get a i)).
Proof.
  intros Hi. destruct (Nat.le_gt_cases lo hi) as [Hle|Hgt].
  - apply (for_range_invariant
             (fun k b => b = set a i (for_range lo k
                (fun j acc => if cond j then f acc j else acc) (get a i)))); auto.
    + rewrite for_range_empty by lia. now rewrite set_get_same.
    + intros k b Hk ->. rewrite for_range_last by lia.
      destruct (cond k); [|reflexivity].
      rewrite get_set_same by exact Hi. now rewrite set_twice.
  - rewrite !for_range_empty by lia. now rewrite set_get_same.
Qed.

(** A loop whose turn [i] rewrites element [i] from its own old value. *)
Lemma for_range_pointwise (hi : nat) (g : nat -> T -> T) (a : list T) :
  hi <= length a ->
  let b := for_range 0 hi (fun i a => set a i (g i (get a i))) a in
  length b = length a /\
  forall i, get b i = if i <? hi then g i (get a i) else get a i.
Proof.
  intros Hhi. cbv zeta.
  apply (for_range_invariant
           (fun k b => k <= hi -> length b = length a /\
              forall i, get b i = if i <? k then g i (get a i) else get a i));
    try lia.
  - intros _. split; [reflexivity|]. intros i. reflexivity.
  - intros k b Hk IH _. destruct IH as [Hlen Hget]; [lia|]. split.
    + rewrite set_length; lia.
    + intros i. rewrite get_set by lia.
      destruct (Nat.eq_dec i k) as [->|Hne].
      * rewrite Nat.eqb_refl. rewrite Hget.
        replace (k <? k) with false by (symmetry; apply Nat.ltb_ge; lia).
        replace (k <? k + 1) with true by (symmetry; apply Nat.ltb_lt; lia).
        reflexivity.
      * replace (i =? k) with false by (symmetry; apply Nat.eqb_neq; lia).
        rewrite Hget.
        destruct (i <? k) eqn:E1.
        -- apply Nat.ltb_lt in E1.
           replace (i <? k + 1) with true by (symmetry; apply Nat.ltb_lt; lia).
           reflexivity.
        -- apply Nat.ltb_ge in E1.
           replace (i <? k + 1) with false by (symmetry; apply Nat.ltb_ge; lia).
           reflexivity.
Qed.
End NumberArrays.
End ArrayLemmas.

(** * convolution1d *)

Module ConvolutionFacts.
Import MatrixOperations SignalProcessing ArrayLemmas.
Section Generic.
Context {T : Type} `{Number T}.

(** The sum of the specification, [sum over j of kernel[j] * signal[i - j]],
    over the kernel taps [j] for which [i - j] is an index of the signal,
    added from [j = 0] upward as the code adds them. *)
Definition convolutionSum (signal kernel : list T) (i : nat) : T :=
  for_range 0 (length kernel) (fun j acc =>
    if (j <=? i) && (i - j <? length signal)
    then add acc (mul (get kernel j) (get signal (i - j)))
    else acc) zero.

(** The code multiplies [signal[i - j] * kernel[j]]. *)
Hypothesis mul_commutes : forall a b : T, mul a b = mul b a.

Lemma tap_condition (i j sl : nat) :
  ((0 <=? Z.of_nat i - Z.of_nat j) && (Z.of_nat i - Z.of_nat j <? Z.of_nat sl))%Z
  = (j <=? i) && (i - j <? sl).
Proof.
  destruct (j <=? i) eqn:E1.
  - apply Nat.leb_le in E1.
    replace (0 <=? Z.of_nat i - Z.of_nat j)%Z with true
      by (symmetry; apply Z.leb_le; lia).
    simpl. destruct (i - j <? sl) eqn:E2.
    + apply Nat.ltb_lt in E2. apply Z.ltb_lt. lia.
    + apply Nat.ltb_ge in E2. apply Z.ltb_ge. lia.
  - apply Nat.leb_gt in E1.
    replace (0 <=? Z.of_nat i - Z.of_nat j)%Z with false
      by (symmetry; apply Z.leb_gt; lia).
    reflexivity.
Qed.

Lemma convolution1d_spec (signal kernel : list T) :
  1 <= length signal + length kernel ->
  exists out,
    convolution1d signal kernel = Ok out /\
    length out = length signal + length kernel - 1 /\
    forall i, i < length signal + length kernel - 1 ->
      get out i = convolutionSum signal kernel i.
Proof.
  intros Hlen. unfold convolution1d, js_Array.
  set (N := length signal + length kernel - 1).
  replace (Z.of_nat (length signal) + Z.of_nat (length kernel) - 1)%Z
    with (Z.of_nat N) by (unfold N; lia).
  replace (Z.of_nat N <? 0)%Z with false by (symmetry; apply Z.ltb_ge; lia).
  rewrite Nat2Z.id. simpl. eexists. split; [reflexivity|].
  cut (N <= N); [|lia].
  intros HN. match goal with |- length ?X = _ /\ _ =>
    cut (length X = N /\
         (forall i, i < N -> get X i = convolutionSum signal kernel i) /\
         (forall i, N <= i < N -> get X i = zero)); [tauto|] end.
  revert HN.
  apply (for_range_invariant
           (fun k (b : list T) => k <= N ->
              length b = N /\
              (forall i, i < k -> get b i = convolutionSum signal kernel i) /\
              (forall i, k <= i < N -> get b i = zero))); try lia.
  - intros _. split; [apply repeat_length|]. split; [intros; lia|].
    intros i Hi. apply get_repeat. lia.
  - intros k b Hk IH _. destruct IH as (Hb & Hdone & Htodo); [lia|].
    rewrite (@for_range_accumulate _ _ 0 (length kernel) k
               (fun j => ((0 <=? Z.of_nat k - Z.of_nat j) &&
                          (Z.of_nat k - Z.of_nat j <? Z.of_nat (length signal)))%Z)
               (fun acc j => add acc (mul (get signal (Z.to_nat (Z.of_nat k - Z.of_nat j)))
                                          (get kernel j)))) by lia.
    split; [rewrite set_length; lia|]. split.
    + intros i Hi. rewrite get_set by lia.
      destruct (Nat.eq_dec i k) as [->|Hne].
      * rewrite Nat.eqb_refl. rewrite Htodo by lia.
        unfold convolutionSum. apply for_range_ext.
        intros j acc Hj. rewrite tap_condition.
        destruct ((j <=? k) && (k - j <? length signal)) eqn:E; [|reflexivity].
        apply andb_true_iff in E. destruct E as [E1 _]. apply Nat.leb_le in E1.
        replace (Z.to_nat (Z.of_nat k - Z.of_nat j)) with (k - j) by lia.
        now rewrite mul_commutes.
      * replace (i =? k) with false by (symmetry; apply Nat.eqb_neq; lia).
        apply Hdone. lia.
    + intros i Hi. rewrite get_set_other by lia. apply Htodo. lia.
Qed.

End Generic.
End ConvolutionFacts.

(** * Facts about binary64 arithmetic *)

Module FloatFacts.

Lemma mul_comm (x y : float) : (x * y)%float = (y * x)%float.
Proof.
  apply Prim2SF_inj. rewrite !mul_spec. unfold SF64mul, SFmul.
  destruct (Prim2SF x) as [sx|sx| |sx mx ex], (Prim2SF y) as [sy|sy| |sy my ey];
    try reflexivity; try (now rewrite xorb_comm).
  now rewrite xorb_comm, Pos.mul_comm, Z.add_comm.
Qed.

(** The order on the exponent and mantissa of two finite numbers. *)
Definition lexCompare (e1 : Z) (m1 : positive) (e2 : Z) (m2 : positive) : comparison :=
  match (e1 ?= e2)%Z with
  | Lt => Lt
  | Gt => Gt
  | Eq => Pos.compare_cont Eq m1 m2
  end.

Lemma lexCompare_Lt e1 m1 e2 m2 :
  lexCompare e1 m1 e2 m2 = Lt <-> (e1 < e2)%Z \/ (e1 = e2 /\ (m1 < m2)%positive).
Proof.
  unfold lexCompare. destruct (Z.compare_spec e1 e2) as [He|He|He].
  - change (Pos.compare_cont Eq m1 m2) with (Pos.compare m1 m2).
    rewrite Pos.compare_lt_iff. intuition lia.
  - intuition lia.
  - split; [discriminate|]. intuition lia.
Qed.


Lemma SFcompare_finite s1 m1 e1 s2 m2 e2 :
  SFcompare (S754_finite s1 m1 e1) (S754_finite s2 m2 e2) =
  Some match s1, s2 with
       | true, false => Lt
       | false, true => Gt
       | false, false => lexCompare e1 m1 e2 m2
       | true, true => lexCompare e2 m2 e1 m1
       end.
Proof.
  unfold SFcompare, lexCompare. destruct s1, s2; try reflexivity.
  f_equal. rewrite (Z.compare_antisym e1 e2).
  destruct (e1 ?= e2)%Z eqn:E; simpl; try reflexivity.
  change (Pos.compare_cont Eq m1 m2) with (Pos.compare m1 m2).
  change (Pos.compare_cont Eq m2 m1) with (Pos.compare m2 m1).
  now rewrite (Pos.compare_antisym m1 m2).
Qed.

Lemma SFltb_trans (a b c : spec_float) :
  SFltb a b = true -> SFltb b c = true -> SFltb a c = true.
Proof.
  unfold SFltb.
  destruct a as [sa|sa| |sa ma ea], b as [sb|sb| |sb mb eb], c as [sc|sc| |sc mc ec];
    rewrite ?SFcompare_finite;
    try (simpl; discriminate);
    try (simpl; destruct sa, sb, sc; simpl; congruence);
    try (simpl; destruct sa, sb; simpl; congruence);
    try (simpl; destruct sa, sc; simpl; congruence);
    try (simpl; destruct sb, sc; simpl; congruence).
  destruct sa, sb, sc; try congruence;
    intros H1 H2;
    repeat match goal with
    | H : match ?c with Eq => false | Lt => true | Gt => false end = true |- _ =>
        destruct c eqn:?; try discriminate; clear H
    end;
    repeat match goal with
    | H : lexCompare _ _ _ _ = Lt |- _ => apply lexCompare_Lt in H
    end;
    match goal with
    | |- match ?c with Eq => false | Lt => true | Gt => false end = true =>
        replace c with Lt; [reflexivity|symmetry; apply lexCompare_Lt; lia]
    end.
Qed.

Lemma SFltb_irrefl (a : spec_float) : SFltb a a = false.
Proof.
  unfold SFltb. destruct a as [s|s| |s m e]; try (destruct s; reflexivity);
    try reflexivity.
  rewrite SFcompare_finite.
  assert (Hnot : lexCompare e m e m <> Lt).
  { intros Hlt. apply lexCompare_Lt in Hlt. lia. }
  destruct s; destruct (lexCompare e m e m); congruence.
Qed.

Lemma ltb_trans (x y z : float) :
  PrimFloat.ltb x y = true -> PrimFloat.ltb y z = true -> PrimFloat.ltb x z = true.
Proof. rewrite !ltb_spec. apply SFltb_trans. Qed.

Lemma ltb_irrefl (x : float) : PrimFloat.ltb x x = false.
Proof. rewrite ltb_spec. apply SFltb_irrefl. Qed.

End FloatFacts.

(** * matrixMultiply *)

Module ProductFacts.
Import MatrixOperations ArrayLemmas.
Section Generic.
Context {T : Type} `{Number T}.

Lemma set2_get2_same (r c : nat) (M : matrix T) (i j : nat) :
  shaped r c M -> i < r -> j < c -> set2 M i j (get2 M i j) = M.
Proof.
  intros [Hr Hc] Hi Hj. unfold set2, get2.
  rewrite set_get_same by (rewrite Hc; auto). apply upd_same.
Qed.

Lemma set2_twice (r c : nat) (M : matrix T) (i j : nat) (v w : T) :
  shaped r c M -> i < r -> j < c ->
  set2 (set2 M i j v) i j w = set2 M i j w.
Proof.
  intros [Hr Hc] Hi Hj. unfold set2 at 1.
  rewrite row_set2 by lia. rewrite Nat.eqb_refl.
  rewrite set_twice by (rewrite Hc; auto).
  unfold set2. apply upd_twice.
Qed.

(** A loop that only rewrites entry [(i, j)] computes, in that entry, the
    fold of its updates. *)
Lemma for_range_accumulate2 (r c lo hi i j : nat) (f : T -> nat -> T) (M : matrix T) :
  shaped r c M -> i < r -> j < c ->
  for_range lo hi (fun k M => set2 M i j (f (get2 M i j) k)) M =
  set2 M i j (for_range lo hi (fun k acc => f acc k) (get2 M i j)).
Proof.
  intros HM Hi Hj. destruct (Nat.le_gt_cases lo hi) as [Hle|Hgt].
  - apply (for_range_invariant
             (fun k N => N = set2 M i j (for_range lo k (fun k acc => f acc k) (get2 M i j))));
      auto.
    + rewrite for_range_empty by lia. symmetry. now apply (set2_get2_same r c).
    + intros k N Hk ->. rewrite for_range_last by lia.
      rewrite (get2_set2_shaped r c) by auto. rewrite !Nat.eqb_refl. simpl.
      now apply (set2_twice r c).
  - rewrite !for_range_empty by lia. symmetry. now apply (set2_get2_same r c).
Qed.

(** The product of an [r x m] and an [m x c] matrix with at least one row
    each: entry [(i, j)] is the sum of [A[i][k] * B[k][j]] added from
    [k = 0] upward. *)
Lemma matrixMultiply_spec (A B : matrix T) (r m c : nat) :
  shaped r m A -> shaped m c B -> 1 <= r -> 1 <= m ->
  exists P,
    matrixMultiply A B = Ok P /\
    shaped r c P /\
    forall i j, i < r -> j < c -> get2 P i j = dotLU A B i j m.
Proof.
  intros HA HB Hr Hm.
  assert (HlenA : length A = r) by apply HA.
  assert (HlenB : length B = m) by apply HB.
  assert (HrowA : length (row A 0) = m) by (apply HA; lia).
  assert (HrowB : length (row B 0) = c) by (apply HB; lia).
  unfold matrixMultiply.
  destruct A as [|A0 A']; [simpl in HlenA; lia|].
  destruct B as [|B0 B']; [simpl in HlenB; lia|].
  unfold row in HrowA, HrowB. simpl in HrowA, HrowB.
  rewrite HrowA, HrowB, HlenA.
  set (AA := A0 :: A') in *. set (BB := B0 :: B') in *.
  set (step := fun (i j k : nat) (result : matrix T) =>
                 set2 result i j (add (get2 result i j) (mul (get2 AA i k) (get2 BB k j)))).
  assert (Hinner : forall i j (t : matrix T),
            for_range_try 0 m (fun k result =>
              if k <? length BB then Ok (step i j k result) else Throw TypeError) t
            = Ok (for_range 0 m (step i j) t)).
  { intros i j t. rewrite <- for_range_try_pure. apply for_range_try_ext.
    intros k u Hk. replace (k <? length BB) with true; [reflexivity|].
    symmetry. apply Nat.ltb_lt. lia. }
  assert (Hmiddle : forall i (t : matrix T),
            for_range_try 0 c (fun j result =>
              for_range_try 0 m (fun k result =>
                if k <? length BB then Ok (step i j k result) else Throw TypeError) result) t
            = Ok (for_range 0 c (fun j result => for_range 0 m (step i j) result) t)).
  { intros i t. rewrite <- for_range_try_pure. apply for_range_try_ext.
    intros j u Hj. apply Hinner. }
  assert (Houter :
            for_range_try 0 r (fun i result =>
              for_range_try 0 c (fun j result =>
                for_range_try 0 m (fun k result =>
                  if k <? length BB then Ok (step i j k result) else Throw TypeError)
                  result) result) (zeros r c)
            = Ok (for_range 0 r (fun i result =>
                    for_range 0 c (fun j result => for_range 0 m (step i j) result) result)
                    (zeros r c))).
  { rewrite <- for_range_try_pure. apply for_range_try_ext.
    intros i u Hi. apply Hmiddle. }
  unfold step in Houter. rewrite Houter. clear Hinner Hmiddle Houter.
  eexists. split; [reflexivity|]. fold step.
  cut (shaped r c
         (for_range 0 r (fun i result =>
            for_range 0 c (fun j result => for_range 0 m (step i j) result) result)
            (zeros r c)) /\
       forall i j, i < r -> j < c ->
         get2 (for_range 0 r (fun i result =>
                 for_range 0 c (fun j result => for_range 0 m (step i j) result) result)
                 (zeros r c)) i j
         = if i <? r then dotLU AA BB i j m else zero).
  { intros [Hshape Hentries]. split; [exact Hshape|].
    intros i j Hi Hj. rewrite Hentries by assumption.
    now replace (i <? r) with true by (symmetry; apply Nat.ltb_lt; lia). }
  apply (for_range_invariant
           (fun i0 (M : matrix T) =>
              shaped r c M /\
              forall i j, i < r -> j < c ->
                get2 M i j = if i <? i0 then dotLU AA BB i j m else zero)); try lia.
  - split; [apply shaped_zeros|]. intros i j Hi Hj. now apply get2_zeros.
  - intros i0 M Hi0 [HM Hentries].
    cut (shaped r c (for_range 0 c (fun j result => for_range 0 m (step i0 j) result) M) /\
         forall i j, i < r -> j < c ->
           get2 (for_range 0 c (fun j result => for_range 0 m (step i0 j) result) M) i j
           = if (i =? i0) && (j <? c) then dotLU AA BB i j m else get2 M i j).
    { intros [Hshape Hrow]. split; [exact Hshape|].
      intros i j Hi Hj. rewrite Hrow, Hentries by assumption.
      replace (j <? c) with true by (symmetry; apply Nat.ltb_lt; lia).
      rewrite andb_true_r. destruct (Nat.eq_dec i i0) as [->|Hne].
      - rewrite Nat.eqb_refl.
        now replace (i0 <? i0 + 1) with true by (symmetry; apply Nat.ltb_lt; lia).
      - replace (i =? i0) with false by (symmetry; apply Nat.eqb_neq; lia).
        destruct (i <? i0) eqn:E.
        + apply Nat.ltb_lt in E.
          now replace (i <? i0 + 1) with true by (symmetry; apply Nat.ltb_lt; lia).
        + apply Nat.ltb_ge in E.
          now replace (i <? i0 + 1) with false by (symmetry; apply Nat.ltb_ge; lia). }
    apply (for_range_invariant
             (fun j0 (N : matrix T) =>
                shaped r c N /\
                forall i j, i < r -> j < c ->
                  get2 N i j = if (i =? i0) && (j <? j0) then dotLU AA BB i j m
                               else get2 M i j)); try lia.
    + split; [exact HM|]. intros i j Hi Hj. now rewrite andb_false_r.
    + intros j0 N Hj0 [HN Hdone].
      unfold step.
      rewrite (for_range_accumulate2 r c 0 m i0 j0
                 (fun acc k => add acc (mul (get2 AA i0 k) (get2 BB k j0)))) by (auto; lia).
      split; [apply shaped_set2; auto; lia|].
      intros i j Hi Hj. rewrite (get2_set2_shaped r c) by (auto; lia).
      destruct (Nat.eq_dec i i0) as [->|Hne].
      * rewrite Nat.eqb_refl. simpl. destruct (Nat.eq_dec j j0) as [->|Hnej].
        -- rewrite Nat.eqb_refl.
           replace (j0 <? j0 + 1) with true by (symmetry; apply Nat.ltb_lt; lia).
           rewrite Hdone by lia. rewrite Nat.eqb_refl. simpl.
           replace (j0 <? j0) with false by (symmetry; apply Nat.ltb_ge; lia).
           rewrite Hentries by lia.
           replace (i0 <? i0) with false by (symmetry; apply Nat.ltb_ge; lia).
           reflexivity.
        -- replace (j =? j0) with false by (symmetry; apply Nat.eqb_neq; lia).
           rewrite Hdone by lia. rewrite Nat.eqb_refl. simpl.
           destruct (j <? j0) eqn:E.
           ++ apply Nat.ltb_lt in E.
              now replace (j <? j0 + 1) with true by (symmetry; apply Nat.ltb_lt; lia).
           ++ apply Nat.ltb_ge in E.
              now replace (j <? j0 + 1) with false by (symmetry; apply Nat.ltb_ge; lia).
      * replace (i =? i0) with false by (symmetry; apply Nat.eqb_neq; lia). simpl.
        rewrite Hdone by lia.
        now replace (i =? i0) with false by (symmetry; apply Nat.eqb_neq; lia).
Qed.
End Generic.
End ProductFacts.

(** * Gaussian elimination with partial pivoting *)

Section LoopOutcome.
Context {S : Type}.

(** A property kept by every turn is kept by the loop. *)
Lemma for_range_preserves (P : S -> Prop) (lo hi : nat) (body : nat -> S -> S) (s : S) :
  P s -> (forall i t, lo <= i < hi -> P t -> P (body i t)) ->
  P (for_range lo hi body s).
Proof.
  intros Hs Hbody. destruct (Nat.le_gt_cases lo hi) as [Hle|Hgt].
  - apply (for_range_invariant (fun _ t => P t)); auto.
  - now rewrite for_range_empty by lia.
Qed.

(** A loop throws exactly when one of its turns throws, the turns before it
    having returned. *)
Lemma for_range_try_throws (lo hi : nat) (body : nat -> S -> result S) (s : S) (e : exn) :
  for_range_try lo hi body s = Throw e <->
  exists i t, lo <= i < hi /\ for_range_try lo i body s = Ok t /\ body i t = Throw e.
Proof.
  destruct (Nat.le_gt_cases lo hi) as [Hle|Hgt].
  2: { rewrite for_range_try_empty by lia. split; [discriminate|].
       intros (i & t & Hi & _). lia. }
  induction hi as [|hi IH].
  - rewrite for_range_try_empty by lia. split; [discriminate|].
    intros (i & t & Hi & _). lia.
  - destruct (Nat.eq_dec lo (Datatypes.S hi)) as [->|Hne].
    + rewrite for_range_try_empty by lia. split; [discriminate|].
      intros (i & t & Hi & _). lia.
    + replace (Datatypes.S hi) with (hi + 1) by lia.
      rewrite for_range_try_last by lia.
      destruct (for_range_try lo hi body s) as [t|e'] eqn:Hprev; simpl.
      * split.
        -- intros Hthrow. exists hi, t. repeat split; try lia; auto.
        -- intros (i & u & Hi & Hrun & Hthrow).
           destruct (Nat.eq_dec i hi) as [->|Hlt].
           ++ rewrite Hprev in Hrun. inversion Hrun; subst. exact Hthrow.
           ++ assert (Hcontra : Ok t = Throw e); [|discriminate].
              apply IH; [lia|]. exists i, u. repeat split; try lia; auto.
      * split.
        -- intros Hthrow. inversion Hthrow; subst e'.
           destruct IH as [IH _]; [lia|]. destruct (IH eq_refl) as (i & u & Hi & Hrest).
           exists i, u. split; [lia|exact Hrest].
        -- intros (i & u & Hi & Hrun & Hthrow).
           destruct (Nat.eq_dec i hi) as [->|Hlt].
           ++ rewrite Hprev in Hrun. discriminate.
           ++ apply IH; [lia|]. exists i, u. repeat split; try lia; auto.
Qed.
End LoopOutcome.

Module PivotFacts.
Import MatrixOperations ArrayLemmas.
Section Generic.
Context {T : Type} `{Number T}.

(** What the pivot search needs of [<]: on binary64 it holds with NaN too. *)
Hypothesis lt_trans : forall x y z : T, ltb x y = true -> ltb y z = true -> ltb x z = true.
Hypothesis lt_irrefl : forall x : T, ltb x x = false.


Lemma swapRows_length (M : matrix T) (i j : nat) : length (swapRows M i j) = length M.
Proof. unfold swapRows. now rewrite !upd_length. Qed.

(** After the swap row [i] is the old row [j], row [j] the old row [i], and
    the other rows are where they were. *)
Lemma row_swapRows (M : matrix T) (i j k : nat) :
  i < length M -> j < length M ->
  row (swapRows M i j) k =
  if k =? j then row M i else if k =? i then row M j else row M k.
Proof.
  intros Hi Hj. unfold swapRows, row.
  rewrite nth_upd by (now rewrite upd_length).
  destruct (k =? j) eqn:Ekj; [reflexivity|].
  now rewrite nth_upd by exact Hi.
Qed.














End Generic.
End PivotFacts.

(** * LU decomposition *)

Section LoopPure.
Context {S : Type}.

(** A loop whose turns all return, on the states an invariant describes, is
    the loop of what they return. *)
Lemma for_range_try_returns (I : S -> Prop) (lo hi : nat)
    (body : nat -> S -> result S) (body' : nat -> S -> S) (s : S) :
  I s ->
  (forall i t, lo <= i < hi -> I t -> body i t = Ok (body' i t) /\ I (body' i t)) ->
  for_range_try lo hi body s = Ok (for_range lo hi body' s) /\
  I (for_range lo hi body' s).
Proof.
  intros Hs Hbody. destruct (Nat.le_gt_cases lo hi) as [Hle|Hgt].
  2: { rewrite for_range_try_empty, for_range_empty by lia. auto. }
  induction hi as [|hi IH].
  - rewrite for_range_try_empty, for_range_empty by lia. auto.
  - destruct (Nat.eq_dec lo (Datatypes.S hi)) as [->|Hne].
    + rewrite for_range_try_empty, for_range_empty by lia. auto.
    + replace (Datatypes.S hi) with (hi + 1) by lia.
      rewrite for_range_try_last, for_range_last by lia.
      destruct IH as [Hrun Hinv]; [intros i t Hi; apply Hbody; lia|lia|].
      rewrite Hrun. simpl. apply Hbody; [lia|exact Hinv].
Qed.
End LoopPure.

Module LUFacts.
Import MatrixOperations ArrayLemmas.
Section Generic.
Context {T : Type} `{Number T}.

(** The partial sum reads [L[i][k]] and [U[k][j]] for [k < upto] only. *)
Lemma dotLU_ext (L U L' U' : matrix T) (i j upto : nat) :
  (forall k, k < upto -> get2 L i k = get2 L' i k /\ get2 U k j = get2 U' k j) ->
  dotLU L U i j upto = dotLU L' U' i j upto.
Proof.
  intros Hsame. unfold dotLU. apply for_range_ext.
  intros k acc Hk. destruct (Hsame k) as [-> ->]; [lia|reflexivity].
Qed.

(** Ones written on the first [m] places of the diagonal of the zero matrix. *)
Lemma diagonal_prefix (n m : nat) :
  m <= n ->
  shaped n n (for_range 0 m (fun i (M : matrix T) => set2 M i i one) (zeros n n)) /\
  forall i j, i < n -> j < n ->
    get2 (for_range 0 m (fun i (M : matrix T) => set2 M i i one) (zeros n n)) i j =
    if (i =? j) && (i <? m) then one else zero.
Proof.
  intros Hm.
  apply (for_range_invariant
           (fun k (M : matrix T) =>
              shaped n n M /\
              forall i j, i < n -> j < n ->
                get2 M i j = if (i =? j) && (i <? k) then one else zero));
    try lia.
  - split; [apply shaped_zeros|]. intros i j Hi Hj.
    rewrite get2_zeros by assumption. now rewrite andb_false_r.
  - intros k M Hk [Hshape Hentries]. split; [apply shaped_set2; auto; lia|].
    intros i j Hi Hj. rewrite (get2_set2_shaped n n M) by (auto; lia).
    rewrite Hentries by assumption.
    destruct (Nat.eq_dec i j) as [->|Hij].
    + rewrite Nat.eqb_refl. simpl. destruct (Nat.eq_dec j k) as [->|Hjk].
      * rewrite Nat.eqb_refl. simpl.
        replace (k <? k + 1) with true by (symmetry; apply Nat.ltb_lt; lia).
        reflexivity.
      * replace (j =? k) with false by (symmetry; apply Nat.eqb_neq; lia). simpl.
        destruct (j <? k) eqn:E.
        -- apply Nat.ltb_lt in E.
           replace (j <? k + 1) with true by (symmetry; apply Nat.ltb_lt; lia).
           reflexivity.
        -- apply Nat.ltb_ge in E.
           replace (j <? k + 1) with false by (symmetry; apply Nat.ltb_ge; lia).
           reflexivity.
    + replace (i =? j) with false by (symmetry; apply Nat.eqb_neq; lia). simpl.
      destruct (i =? k) eqn:E1; [|reflexivity].
      destruct (j =? k) eqn:E2; [|reflexivity].
      apply Nat.eqb_eq in E1, E2. lia.
Qed.

Lemma identityMatrix_entries (n : nat) :
  shaped n n (identityMatrix n) /\
  forall i j, i < n -> j < n ->
    get2 (identityMatrix n) i j = if i =? j then one else zero.
Proof.
  destruct (diagonal_prefix n n (Nat.le_refl n)) as [Hshape Hentries].
  split; [exact Hshape|]. intros i j Hi Hj.
  unfold identityMatrix. rewrite Hentries by assumption.
  replace (i <? n) with true by (symmetry; apply Nat.ltb_lt; lia).
  now rewrite andb_true_r.
Qed.

(** What the loop over the upper entries of column [j] leaves. *)
Lemma luUpper_spec (A L U : matrix T) (n j : nat) :
  shaped n n U -> j < n ->
  exists U',
    luUpper A j (L, U) = (L, U') /\
    shaped n n U' /\
    (forall r c, c <> j \/ j < r -> get2 U' r c = get2 U r c) /\
    (forall r, r <= j -> get2 U' r j = sub (get2 A r j) (dotLU L U' r j r)).
Proof.
  intros HU Hj. unfold luUpper.
  loop_invariant
    (fun i (st : matrix T * matrix T) =>
       exists U',
         st = (L, U') /\
         shaped n n U' /\
         (forall r c, c <> j \/ i <= r -> get2 U' r c = get2 U r c) /\
         (forall r, r < i -> get2 U' r j = sub (get2 A r j) (dotLU L U' r j r))).
  - lia.
  - exists U. repeat split; auto; try (apply HU). intros r Hr. lia.
  - intros i st Hi (U' & -> & HU' & Hframe & Hdone).
    eexists. split; [reflexivity|]. split; [apply shaped_set2; auto; lia|]. split.
    + intros r c Hrc. rewrite (get2_set2_shaped n n U') by (auto; lia).
      destruct ((r =? i) && (c =? j)) eqn:E.
      * apply andb_true_iff in E. destruct E as [E1 E2].
        apply Nat.eqb_eq in E1, E2. lia.
      * apply Hframe. lia.
    + intros r Hr.
      assert (Hdot : dotLU L (set2 U' i j (sub (get2 A i j) (dotLU L U' i j i))) r j r
                     = dotLU L U' r j r).
      { apply dotLU_ext. intros k Hk. split; [reflexivity|].
        rewrite (get2_set2_shaped n n U') by (auto; lia).
        replace (k =? i) with false by (symmetry; apply Nat.eqb_neq; lia).
        reflexivity. }
      rewrite Hdot. rewrite (get2_set2_shaped n n U') by (auto; lia).
      rewrite Nat.eqb_refl, andb_true_r.
      destruct (Nat.eq_dec r i) as [->|Hne].
      * now rewrite Nat.eqb_refl.
      * replace (r =? i) with false by (symmetry; apply Nat.eqb_neq; lia).
        apply Hdone. lia.
  - destruct Hinv as (U' & Heq & HU' & Hframe & Hdone). exists U'.
    split; [exact Heq|]. split; [exact HU'|]. split.
    + intros r c Hrc. apply Hframe. lia.
    + intros r Hr. apply Hdone. lia.
Qed.

(** The loop over the lower entries of column [j] throws at its first turn
    when the pivot is below the tolerance; it has no turn when [j] is the
    last column. *)
Lemma luLower_throws (A L U : matrix T) (n j : nat) :
  j + 1 < n -> ltb (abs (get2 U j j)) tolerance = true ->
  luLower A n j (L, U) = Throw ZeroPivot.
Proof.
  intros Hj Hlow. unfold luLower. rewrite for_range_try_first by lia.
  now rewrite Hlow.
Qed.

Lemma luLower_last_column (A L U : matrix T) (n j : nat) :
  n <= j + 1 -> luLower A n j (L, U) = Ok (L, U).
Proof.
  intros Hj. unfold luLower. now rewrite for_range_try_empty by lia.
Qed.

Lemma luLower_returns (A L U : matrix T) (n j : nat) :
  shaped n n L -> j < n -> ltb (abs (get2 U j j)) tolerance = false ->
  exists L',
    luLower A n j (L, U) = Ok (L', U) /\
    shaped n n L' /\
    (forall r c, c <> j \/ r <= j -> get2 L' r c = get2 L r c) /\
    (forall r, j < r < n ->
       get2 L' r j = div (sub (get2 A r j) (dotLU L' U r j j)) (get2 U j j)).
Proof.
  intros HL Hj Hpivot. unfold luLower.
  match goal with
  | |- context [for_range_try ?lo ?hi ?body ?s] =>
      destruct (for_range_try_returns (fun st : matrix T * matrix T => snd st = U)
                  lo hi body
                  (fun i '(L, U) =>
                     (set2 L i j (div (sub (get2 A i j) (dotLU L U i j j)) (get2 U j j)), U))
                  s) as [Hrun _]
  end.
  { reflexivity. }
  { intros i [L0 U0] Hi HU0. simpl in HU0. subst U0. rewrite Hpivot. auto. }
  rewrite Hrun. clear Hrun.
  destruct (Nat.le_gt_cases (j + 1) n) as [Hle|Hgt]; [|lia].
  loop_invariant
    (fun i (st : matrix T * matrix T) =>
       exists L',
         st = (L', U) /\
         shaped n n L' /\
         (forall r c, c <> j \/ r <= j \/ i <= r -> get2 L' r c = get2 L r c) /\
         (forall r, j < r < i ->
            get2 L' r j = div (sub (get2 A r j) (dotLU L' U r j j)) (get2 U j j))).
  - lia.
  - exists L. repeat split; auto; try apply HL. intros r Hr. lia.
  - intros i st Hi (L' & -> & HL' & Hframe & Hdone).
    eexists. split; [reflexivity|]. split; [apply shaped_set2; auto; lia|]. split.
    + intros r c Hrc. rewrite (get2_set2_shaped n n L') by (auto; lia).
      destruct ((r =? i) && (c =? j)) eqn:E.
      * apply andb_true_iff in E. destruct E as [E1 E2].
        apply Nat.eqb_eq in E1, E2. lia.
      * apply Hframe. lia.
    + intros r Hr.
      assert (Hdot : forall r',
                 dotLU (set2 L' i j (div (sub (get2 A i j) (dotLU L' U i j j)) (get2 U j j)))
                       U r' j j
                 = dotLU L' U r' j j).
      { intros r'. apply dotLU_ext. intros k Hk. split; [|reflexivity].
        rewrite (get2_set2_shaped n n L') by (auto; lia).
        replace (k =? j) with false by (symmetry; apply Nat.eqb_neq; lia).
        now rewrite andb_false_r. }
      rewrite Hdot. rewrite (get2_set2_shaped n n L') by (auto; lia).
      rewrite Nat.eqb_refl, andb_true_r.
      destruct (Nat.eq_dec r i) as [->|Hne].
      * now rewrite Nat.eqb_refl.
      * replace (r =? i) with false by (symmetry; apply Nat.eqb_neq; lia).
        apply Hdone. lia.
  - destruct Hinv as (L' & Heq & HL' & Hframe & Hdone). exists L'.
    split; [now rewrite Heq|]. split; [exact HL'|]. split.
    + intros r c Hrc. apply Hframe. lia.
    + intros r Hr. apply Hdone. lia.
Qed.

(** What the loop over the lower entries leaves when it returns. *)
Lemma luLower_ok (A L U L' U' : matrix T) (n j : nat) :
  shaped n n L -> j < n ->
  luLower A n j (L, U) = Ok (L', U') ->
  U' = U /\
  shaped n n L' /\
  (forall r c, c <> j \/ r <= j -> get2 L' r c = get2 L r c) /\
  (forall r, j < r < n ->
     get2 L' r j = div (sub (get2 A r j) (dotLU L' U r j j)) (get2 U j j)) /\
  (j + 1 < n -> ltb (abs (get2 U j j)) tolerance = false).
Proof.
  intros HL Hj Hrun.
  destruct (ltb (abs (get2 U j j)) tolerance) eqn:Hpivot.
  - destruct (Nat.le_gt_cases n (j + 1)) as [Hlast|Hmore].
    + rewrite luLower_last_column in Hrun by exact Hlast.
      inversion Hrun; subst. repeat split; auto; try apply HL; intros; lia.
    + rewrite luLower_throws in Hrun by (auto; lia). discriminate.
  - destruct (luLower_returns A L U n j HL Hj Hpivot) as (L1 & Hrun1 & H1 & H2 & H3).
    rewrite Hrun1 in Hrun. inversion Hrun; subst. auto.
Qed.

(** ** The Doolittle recursion *)

(** [L] is lower triangular with unit diagonal, [U] is upper triangular. *)
Definition unitLowerTriangular (n : nat) (L : matrix T) : Prop :=
  forall i c, i < n -> c < n ->
    (i = c -> get2 L i c = one) /\ (i < c -> get2 L i c = zero).

Definition upperTriangular (n : nat) (U : matrix T) : Prop :=
  forall i c, i < n -> c < n -> c < i -> get2 U i c = zero.

(** The recursion of the specification on the columns before [j]:
    [U[i][c] = A[i][c] - sum over k < i of L[i][k] U[k][c]] for [i <= c], and
    [L[i][c] = (A[i][c] - sum over k < c of L[i][k] U[k][c]) / U[c][c]] for
    [i > c], the sums added from [k = 0] upward. *)
Definition doolittleColumns (A : matrix T) (n j : nat) (L U : matrix T) : Prop :=
  (forall i c, i <= c -> c < j ->
     get2 U i c = sub (get2 A i c) (dotLU L U i c i)) /\
  (forall i c, c < i -> i < n -> c < j ->
     get2 L i c = div (sub (get2 A i c) (dotLU L U i c c)) (get2 U c c)).

(** The columns from [j] on still hold what they were created with. *)
Definition pendingColumns (n j : nat) (L U : matrix T) : Prop :=
  forall i c, i < n -> c < n -> j <= c ->
    get2 U i c = zero /\ (c < i -> get2 L i c = zero).

(** The state of the decomposition when the columns before [j] are done. *)
Definition doolittleUpTo (A : matrix T) (n j : nat) (L U : matrix T) : Prop :=
  shaped n n L /\ shaped n n U /\
  unitLowerTriangular n L /\ upperTriangular n U /\
  pendingColumns n j L U /\ doolittleColumns A n j L U.

(** A Doolittle pair of [A]: the recursion on every column. *)
Definition Doolittle (A : matrix T) (n : nat) (L U : matrix T) : Prop :=
  shaped n n L /\ shaped n n U /\
  unitLowerTriangular n L /\ upperTriangular n U /\
  doolittleColumns A n n L U.

Lemma luInit_state (A : matrix T) (n : nat) :
  doolittleUpTo A n 0 (fst (luInit n)) (snd (luInit n)).
Proof.
  unfold luInit. simpl.
  destruct (diagonal_prefix n n (Nat.le_refl n)) as [Hshape Hentries].
  assert (Hdiag : forall i c, i < n -> c < n ->
            get2 (for_range 0 n (fun i (M : matrix T) => set2 M i i one) (zeros n n)) i c
            = if i =? c then one else zero).
  { intros i c Hi Hc. rewrite Hentries by assumption.
    replace (i <? n) with true by (symmetry; apply Nat.ltb_lt; lia).
    now rewrite andb_true_r. }
  split; [exact Hshape|]. split; [apply shaped_zeros|]. split; [|split; [|split]].
  - intros i c Hi Hc. rewrite Hdiag by assumption. split.
    + intros ->. now rewrite Nat.eqb_refl.
    + intros Hlt. now replace (i =? c) with false by (symmetry; apply Nat.eqb_neq; lia).
  - intros i c Hi Hc _. now apply get2_zeros.
  - intros i c Hi Hc _. split; [now apply get2_zeros|].
    intros Hlt. rewrite Hdiag by assumption.
    now replace (i =? c) with false by (symmetry; apply Nat.eqb_neq; lia).
  - split; intros; lia.
Qed.

(** One column of the decomposition, when it returns, extends the
    recursion by that column and has found its pivot not below the
    tolerance unless the column is the last. *)
Lemma luColumn_sound (A L U L' U' : matrix T) (n j : nat) :
  j < n ->
  doolittleUpTo A n j L U ->
  luColumn A n j (L, U) = Ok (L', U') ->
  doolittleUpTo A n (j + 1) L' U' /\
  (j + 1 < n -> ltb (abs (get2 U' j j)) tolerance = false).
Proof.
  intros Hj (HL & HU & Hunit & Hupper & Hpending & Hrec_U & Hrec_L) Hrun.
  unfold luColumn in Hrun.
  destruct (luUpper_spec A L U n j HU Hj) as (U1 & Hupper_run & HU1 & Hframe_U & Hnew_U).
  rewrite Hupper_run in Hrun.
  destruct (luLower_ok A L U1 L' U' n j HL Hj Hrun)
    as (-> & HL' & Hframe_L & Hnew_L & Hpivot).
  split; [|exact Hpivot].
  assert (Hdot_old : forall i c m, c < j -> m <= c ->
            dotLU L' U1 i c m = dotLU L U i c m).
  { intros i c m Hc Hm. apply dotLU_ext. intros k Hk. split.
    - apply Hframe_L. lia.
    - apply Hframe_U. lia. }
  assert (Hdot_new : forall i m, m <= j ->
            dotLU L' U1 i j m = dotLU L U1 i j m).
  { intros i m Hm. apply dotLU_ext. intros k Hk. split; [|reflexivity].
    apply Hframe_L. lia. }
  split; [exact HL'|]. split; [exact HU1|]. split; [|split; [|split; [|split]]].
  - intros i c Hi Hc. destruct (Hunit i c Hi Hc) as [Hone Hzero]. split.
    + intros ->. rewrite Hframe_L by lia. now apply Hone.
    + intros Hlt. rewrite Hframe_L by lia. now apply Hzero.
  - intros i c Hi Hc Hlt. rewrite Hframe_U by lia.
    destruct (Nat.eq_dec c j) as [->|Hne].
    + now apply (Hpending i j Hi Hc).
    + now apply Hupper.
  - intros i c Hi Hc Hjc. split.
    + rewrite Hframe_U by lia. apply (Hpending i c Hi Hc). lia.
    + intros Hlt. rewrite Hframe_L by lia. apply (Hpending i c Hi Hc); lia.
  - intros i c Hic Hc. destruct (Nat.eq_dec c j) as [->|Hne].
    + rewrite Hdot_new by lia. now apply Hnew_U.
    + rewrite Hframe_U by lia. rewrite Hdot_old by lia. apply Hrec_U; lia.
  - intros i c Hci Hi Hc. destruct (Nat.eq_dec c j) as [->|Hne].
    + now apply Hnew_L.
    + rewrite Hframe_L by lia. rewrite Hdot_old by lia.
      rewrite (Hframe_U c c) by lia. apply Hrec_L; lia.
Qed.

(** The states of the loop over the columns. *)
Lemma luPrefix_sound (A L U : matrix T) (j : nat) :
  j <= length A ->
  for_range_try 0 j (luColumn A (length A)) (luInit (length A)) = Ok (L, U) ->
  doolittleUpTo A (length A) j L U /\
  forall c, c < j -> c + 1 < length A -> ltb (abs (get2 U c c)) tolerance = false.
Proof.
  intros Hj Hrun.
  apply (for_range_try_invariant
           (fun k (st : matrix T * matrix T) =>
              doolittleUpTo A (length A) k (fst st) (snd st) /\
              forall c, c < k -> c + 1 < length A ->
                ltb (abs (get2 (snd st) c c)) tolerance = false)
           0 j (luColumn A (length A)) (luInit (length A)) (L, U)); auto; try lia.
  - split; [apply luInit_state|]. intros; lia.
  - intros k [L0 U0] [L1 U1] Hk [Hstate Hpivots] Hstep. simpl in *.
    destruct (luColumn_sound A L0 U0 L1 U1 (length A) k) as [Hnext Hpivot]; auto; try lia.
    split; [exact Hnext|]. intros c Hc Hc1.
    destruct (Nat.eq_dec c k) as [->|Hne]; [now apply Hpivot|].
    destruct Hstate as (HL0 & HU0 & _).
    unfold luColumn in Hstep.
    destruct (luUpper_spec A L0 U0 (length A) k HU0) as (U2 & Hup & _ & Hframe & _); [lia|].
    rewrite Hup in Hstep.
    destruct (luLower_ok A L0 U2 L1 U1 (length A) k HL0) as (-> & _); auto; try lia.
    rewrite Hframe by lia. apply Hpivots; lia.
Qed.

(** A decomposition that returns gives a Doolittle pair, and has met no
    pivot below the tolerance before the last column. *)
Lemma luDecomposition_sound (A L U : matrix T) :
  luDecomposition A = Ok (L, U) ->
  Doolittle A (length A) L U /\
  forall c, c + 1 < length A -> ltb (abs (get2 U c c)) tolerance = false.
Proof.
  intros Hrun. unfold luDecomposition in Hrun.
  destruct (luPrefix_sound A L U (length A) (Nat.le_refl _) Hrun)
    as [(HL & HU & Hunit & Hupper & _ & Hrec) Hpivots].
  split; [exact (conj HL (conj HU (conj Hunit (conj Hupper Hrec))))|].
  intros c Hc. apply Hpivots; lia.
Qed.

(** The pivot of column [j]: the entry [U[j][j]] the upper loop has just
    written. *)
Definition pivotOfColumn (A : matrix T) (j : nat) (LU : matrix T * matrix T) : T :=
  get2 (snd (luUpper A j LU)) j j.

Lemma luColumn_throws (A L U : matrix T) (n j : nat) (e : exn) :
  shaped n n L -> shaped n n U -> j < n ->
  (luColumn A n j (L, U) = Throw e <->
   e = ZeroPivot /\ j + 1 < n /\
   ltb (abs (pivotOfColumn A j (L, U))) tolerance = true).
Proof.
  intros HL HU Hj. unfold luColumn, pivotOfColumn.
  destruct (luUpper_spec A L U n j HU Hj) as (U1 & Hup & HU1 & _).
  rewrite Hup. simpl.
  destruct (ltb (abs (get2 U1 j j)) tolerance) eqn:Hpivot.
  - destruct (Nat.le_gt_cases n (j + 1)) as [Hlast|Hmore].
    + rewrite luLower_last_column by exact Hlast.
      split; [discriminate|]. intros (_ & Hlt & _). lia.
    + rewrite luLower_throws by (auto; lia).
      split; [intros Hx; inversion Hx; auto|intros (-> & _); reflexivity].
  - destruct (luLower_returns A L U1 n j HL Hj Hpivot) as (L1 & Hrun1 & _).
    rewrite Hrun1. split; [discriminate|]. intros (_ & _ & Hx). discriminate.
Qed.

(** [luDecomposition] throws exactly when a column that is not the last has
    its pivot below the tolerance, and then it throws [ZeroPivot]. *)
Lemma luDecomposition_throws (A : matrix T) (e : exn) :
  luDecomposition A = Throw e <->
  e = ZeroPivot /\
  exists j LU,
    j + 1 < length A /\
    for_range_try 0 j (luColumn A (length A)) (luInit (length A)) = Ok LU /\
    ltb (abs (pivotOfColumn A j LU)) tolerance = true.
Proof.
  unfold luDecomposition. rewrite for_range_try_throws. split.
  - intros (j & [L U] & Hj & Hpre & Hstep).
    destruct (luPrefix_sound A L U j) as [(HL & HU & _) _]; auto; try lia.
    apply (luColumn_throws A L U (length A) j e HL HU) in Hstep; [|lia].
    destruct Hstep as (-> & Hlt & Hlow). split; [reflexivity|].
    exists j, (L, U). auto.
  - intros (-> & j & [L U] & Hj & Hpre & Hlow).
    destruct (luPrefix_sound A L U j) as [(HL & HU & _) _]; auto; try lia.
    exists j, (L, U). split; [lia|]. split; [exact Hpre|].
    apply (luColumn_throws A L U (length A) j ZeroPivot HL HU); [lia|]. auto.
Qed.

(** ** The decomposition computes every Doolittle pair whose pivots before
    the last are not below the tolerance *)

(** The state that agrees with [(Ls, Us)] on the columns before [j]. *)
Definition agreesUpTo (n j : nat) (Ls Us L U : matrix T) : Prop :=
  shaped n n L /\ shaped n n U /\
  forall r c, r < n -> c < n ->
    get2 L r c = (if c <? j then get2 Ls r c else if r =? c then one else zero) /\
    get2 U r c = (if c <? j then get2 Us r c else zero).

Lemma luColumn_complete (A Ls Us L U : matrix T) (n j : nat) :
  j < n ->
  Doolittle A n Ls Us ->
  (j + 1 < n -> ltb (abs (get2 Us j j)) tolerance = false) ->
  agreesUpTo n j Ls Us L U ->
  exists L' U',
    luColumn A n j (L, U) = Ok (L', U') /\ agreesUpTo n (j + 1) Ls Us L' U'.
Proof.
  intros Hj (HLs & HUs & Hunit & Hupper & Hrec_U & Hrec_L) Hpivot (HL & HU & Hagree).
  unfold luColumn.
  destruct (luUpper_spec A L U n j HU Hj) as (U1 & Hup & HU1 & Hframe_U & Hnew_U).
  rewrite Hup.
  assert (Hcol_U : forall r, r <= j -> get2 U1 r j = get2 Us r j).
  { intros r. induction r as [r IH] using lt_wf_ind. intros Hr.
    rewrite Hnew_U by exact Hr. rewrite Hrec_U by lia. f_equal.
    apply dotLU_ext. intros k Hk. split.
    - destruct (Hagree r k) as [-> _]; try lia.
      now replace (k <? j) with true by (symmetry; apply Nat.ltb_lt; lia).
    - apply IH; lia. }
  assert (Hlower : exists L',
             luLower A n j (L, U1) = Ok (L', U1) /\
             shaped n n L' /\
             (forall r c, c <> j \/ r <= j -> get2 L' r c = get2 L r c) /\
             (forall r, j < r < n ->
                get2 L' r j = div (sub (get2 A r j) (dotLU L' U1 r j j)) (get2 U1 j j))).
  { destruct (Nat.le_gt_cases n (j + 1)) as [Hlast|Hmore].
    - exists L. rewrite luLower_last_column by exact Hlast.
      repeat split; auto; try apply HL. intros r Hr. lia.
    - apply luLower_returns; auto. rewrite Hcol_U by lia. apply Hpivot. lia. }
  destruct Hlower as (L' & Hlow & HL' & Hframe_L & Hnew_L).
  exists L', U1. split; [exact Hlow|]. split; [exact HL'|]. split; [exact HU1|].
  intros r c Hr Hc. destruct (Hagree r c Hr Hc) as [HLrc HUrc].
  destruct (Nat.eq_dec c j) as [->|Hne].
  - replace (j <? j + 1) with true by (symmetry; apply Nat.ltb_lt; lia).
    replace (j <? j) with false in * by (symmetry; apply Nat.ltb_ge; lia).
    split.
    + destruct (Nat.le_gt_cases r j) as [Hle|Hgt].
      * rewrite Hframe_L by lia. rewrite HLrc.
        destruct (Hunit r j Hr Hc) as [Hone Hzero].
        destruct (Nat.eq_dec r j) as [->|Hrj].
        -- rewrite Nat.eqb_refl. symmetry. now apply Hone.
        -- replace (r =? j) with false by (symmetry; apply Nat.eqb_neq; lia).
           symmetry. apply Hzero. lia.
      * rewrite Hnew_L by lia. rewrite Hrec_L by lia.
        rewrite (Hcol_U j) by lia. f_equal. f_equal.
        apply dotLU_ext. intros k Hk. split.
        -- rewrite Hframe_L by lia. destruct (Hagree r k) as [-> _]; try lia.
           now replace (k <? j) with true by (symmetry; apply Nat.ltb_lt; lia).
        -- apply Hcol_U. lia.
    + destruct (Nat.le_gt_cases r j) as [Hle|Hgt].
      * now apply Hcol_U.
      * rewrite Hframe_U by lia. rewrite HUrc. symmetry. now apply Hupper.
  - rewrite Hframe_L, Hframe_U by lia. rewrite HLrc, HUrc.
    destruct (c <? j) eqn:E.
    + apply Nat.ltb_lt in E.
      now replace (c <? j + 1) with true by (symmetry; apply Nat.ltb_lt; lia).
    + apply Nat.ltb_ge in E.
      now replace (c <? j + 1) with false by (symmetry; apply Nat.ltb_ge; lia).
Qed.

Lemma luInit_agrees (n : nat) (Ls Us : matrix T) :
  agreesUpTo n 0 Ls Us (fst (luInit n)) (snd (luInit n)).
Proof.
  destruct (luInit_state (zeros n n) n) as (HL & HU & Hunit & _ & Hpending & _).
  split; [exact HL|]. split; [exact HU|].
  intros r c Hr Hc. simpl. destruct (Hpending r c Hr Hc) as [HUz HLz]; [lia|].
  split; [|exact HUz].
  destruct (Hunit r c Hr Hc) as [Hone Hzero].
  destruct (Nat.lt_trichotomy r c) as [Hlt|[->|Hgt]].
  - replace (r =? c) with false by (symmetry; apply Nat.eqb_neq; lia). now apply Hzero.
  - rewrite Nat.eqb_refl. now apply Hone.
  - replace (r =? c) with false by (symmetry; apply Nat.eqb_neq; lia). now apply HLz.
Qed.

Lemma luDecomposition_complete (A Ls Us : matrix T) :
  Doolittle A (length A) Ls Us ->
  (forall j, j + 1 < length A -> ltb (abs (get2 Us j j)) tolerance = false) ->
  luDecomposition A = Ok (Ls, Us).
Proof.
  intros Hpair Hpivots. unfold luDecomposition.
  assert (Hrun : forall j, j <= length A ->
            exists L U,
              for_range_try 0 j (luColumn A (length A)) (luInit (length A)) = Ok (L, U) /\
              agreesUpTo (length A) j Ls Us L U).
  { induction j as [|j IH]; intros Hj.
    - rewrite for_range_try_empty by lia.
      exists (fst (luInit (length A))), (snd (luInit (length A))).
      split; [now destruct (luInit (length A))|apply luInit_agrees].
    - destruct IH as (L & U & Hpre & Hagree); [lia|].
      replace (Datatypes.S j) with (j + 1) by lia.
      rewrite for_range_try_last by lia. rewrite Hpre. simpl.
      apply (luColumn_complete A Ls Us L U (length A) j); auto. }
  destruct (Hrun (length A) (Nat.le_refl _)) as (L & U & Hfinal & HL & HU & Hagree).
  rewrite Hfinal. destruct Hpair as (HLs & HUs & _).
  assert (Hlt : forall c, c < length A -> (c <? length A) = true).
  { intros c Hc. now apply Nat.ltb_lt. }
  f_equal. f_equal.
  - apply (shaped_ext (length A) (length A)); auto.
    intros i c Hi Hc. destruct (Hagree i c Hi Hc) as [-> _]. now rewrite Hlt.
  - apply (shaped_ext (length A) (length A)); auto.
    intros i c Hi Hc. destruct (Hagree i c Hi Hc) as [_ ->]. now rewrite Hlt.
Qed.

End Generic.
End LUFacts.

(** * Exact rational arithmetic *)

Module ExactFacts.
Import MatrixOperations ArrayLemmas.

(** The operations of [Qc_Number] are those of the field of rationals. *)
Ltac exact_ops :=
  cbn [add sub mul div opp zero one Qc_Number] in *.

(** [sum over k < n of f k], added from [k = 0] upward. *)
Definition sumTo (n : nat) (f : nat -> Qc) : Qc :=
  for_range 0 n (fun k acc => (acc + f k)%Qc) 0%Qc.

Lemma dotLU_sum (L U : matrix Qc) (i j m : nat) :
  dotLU L U i j m = sumTo m (fun k => (get2 L i k * get2 U k j)%Qc).
Proof. reflexivity. Qed.

Lemma sumTo_0 (f : nat -> Qc) : sumTo 0 f = 0%Qc.
Proof. reflexivity. Qed.

Lemma sumTo_succ (n : nat) (f : nat -> Qc) : sumTo (n + 1) f = (sumTo n f + f n)%Qc.
Proof. unfold sumTo. now rewrite for_range_last by lia. Qed.

Lemma sumTo_ext (n : nat) (f g : nat -> Qc) :
  (forall k, k < n -> f k = g k) -> sumTo n f = sumTo n g.
Proof.
  intros Hfg. unfold sumTo. apply for_range_ext.
  intros k acc Hk. rewrite Hfg by lia. reflexivity.
Qed.

(** Terms that are zero from [m] on add nothing. *)
Lemma sumTo_zero_tail (m n : nat) (f : nat -> Qc) :
  m <= n -> (forall k, m <= k < n -> f k = 0%Qc) -> sumTo n f = sumTo m f.
Proof.
  intros Hmn Hzero. induction n as [|n IH].
  - now replace m with 0 by lia.
  - destruct (Nat.eq_dec m (S n)) as [->|Hne]; [reflexivity|].
    replace (S n) with (n + 1) by lia. rewrite sumTo_succ.
    rewrite IH by (try lia; intros k Hk; apply Hzero; lia).
    rewrite Hzero by lia. ring.
Qed.

(** In exact arithmetic a number that is not below the tolerance in
    magnitude is not zero. *)
Lemma not_below_tolerance_nonzero (x : Qc) :
  ltb (abs x) tolerance = false -> x <> 0%Qc.
Proof.
  intros Hx ->. vm_compute in Hx. discriminate.
Qed.

(** The product of a Doolittle pair whose pivots before the last column
    are not zero is the matrix itself. *)
Lemma doolittle_product (A L U : matrix Qc) (n i j : nat) :
  LUFacts.Doolittle A n L U ->
  (forall c, c + 1 < n -> get2 U c c <> 0%Qc) ->
  i < n -> j < n ->
  dotLU L U i j n = get2 A i j.
Proof.
  intros (HL & HU & Hunit & Hupper & Hrec_U & Hrec_L) Hpivots Hi Hj.
  destruct (Nat.le_gt_cases i j) as [Hle|Hgt].
  - rewrite dotLU_sum.
    rewrite (sumTo_zero_tail (i + 1) n) by
      (try lia; intros k Hk; destruct (Hunit i k) as [_ ->]; try lia; exact_ops; ring).
    rewrite sumTo_succ. rewrite <- dotLU_sum.
    destruct (Hunit i i) as [-> _]; try lia.
    rewrite (Hrec_U i j) by lia. exact_ops. ring.
  - rewrite dotLU_sum.
    rewrite (sumTo_zero_tail (j + 1) n) by
      (try lia; intros k Hk; rewrite (Hupper k j) by lia; exact_ops; ring).
    rewrite sumTo_succ. rewrite <- dotLU_sum.
    rewrite (Hrec_L i j) by lia. exact_ops.
    field. apply Hpivots. lia.
Qed.

Lemma luDecomposition_product (A L U : matrix Qc) :
  shaped (length A) (length A) A ->
  1 <= length A ->
  luDecomposition A = Ok (L, U) ->
  matrixMultiply L U = Ok A.
Proof.
  intros HA Hn Hrun.
  destruct (LUFacts.luDecomposition_sound A L U Hrun) as [Hpair Hpivots].
  assert (HLU := Hpair). destruct HLU as (HL & HU & _).
  destruct (ProductFacts.matrixMultiply_spec L U (length A) (length A) (length A))
    as (P & Hprod & HP & Hentries); auto.
  rewrite Hprod. f_equal.
  apply (shaped_ext (length A) (length A)); auto.
  intros i j Hi Hj. rewrite Hentries by assumption.
  apply doolittle_product; auto.
  intros c Hc. apply not_below_tolerance_nonzero. now apply Hpivots.
Qed.

End ExactFacts.

(** * The determinant of the identity *)

Section FilterFacts.
Context {A : Type}.

(** Filtering out the single index [col]. *)
Lemma filteri_from_keeps_all (col k : nat) (l : list A) :
  col < k -> filteri_from (fun j => negb (j =? col)) k l = l.
Proof.
  revert k. induction l as [|x l IH]; intros k Hk; simpl; [reflexivity|].
  replace (k =? col) with false by (symmetry; apply Nat.eqb_neq; lia). simpl.
  f_equal. apply IH. lia.
Qed.

Lemma filteri_from_remove (col k : nat) (l : list A) (d : A) :
  k <= col -> col < k + length l ->
  length (filteri_from (fun j => negb (j =? col)) k l) = length l - 1 /\
  forall j, nth j (filteri_from (fun j => negb (j =? col)) k l) d =
            if j <? col - k then nth j l d else nth (j + 1) l d.
Proof.
  revert k. induction l as [|x l IH]; intros k Hk Hlen; simpl in *; [lia|].
  destruct (Nat.eq_dec k col) as [->|Hne].
  - rewrite Nat.eqb_refl. simpl. rewrite filteri_from_keeps_all by lia.
    split; [lia|]. intros j. replace (col - col) with 0 by lia.
    replace (j + 1) with (S j) by lia. reflexivity.
  - replace (k =? col) with false by (symmetry; apply Nat.eqb_neq; lia). simpl.
    destruct (IH (S k)) as [Hl Hn]; try lia. split; [simpl; lia|].
    intros [|j].
    + replace (0 <? col - k) with true by (symmetry; apply Nat.ltb_lt; lia). reflexivity.
    + rewrite Hn. replace (col - S k) with (col - k - 1) by lia.
      destruct (j <? col - k - 1) eqn:E.
      * apply Nat.ltb_lt in E.
        now replace (S j <? col - k) with true by (symmetry; apply Nat.ltb_lt; lia).
      * apply Nat.ltb_ge in E.
        now replace (S j <? col - k) with false by (symmetry; apply Nat.ltb_ge; lia).
Qed.

Lemma filteri_remove (col : nat) (l : list A) (d : A) :
  col < length l ->
  length (filteri (fun j => negb (j =? col)) l) = length l - 1 /\
  forall j, nth j (filteri (fun j => negb (j =? col)) l) d =
            if j <? col then nth j l d else nth (j + 1) l d.
Proof.
  intros Hcol. unfold filteri.
  destruct (filteri_from_remove col 0 l d) as [Hl Hn]; try lia.
  split; [exact Hl|]. intros j. rewrite Hn. now rewrite Nat.sub_0_r.
Qed.
End FilterFacts.

Module DeterminantFacts.
Import MatrixOperations ArrayLemmas.
Section Generic.
Context {T : Type} `{Number T}.

(** The minor of a square matrix: its entries are those of the rows after
    the first, the columns from [col] on shifted by one. *)
Lemma minor_entries (n : nat) (m : matrix T) (col : nat) :
  shaped (n + 1) (n + 1) m -> col < n + 1 ->
  shaped n n (minor m col) /\
  forall i j, i < n ->
    get2 (minor m col) i j = get2 m (i + 1) (if j <? col then j else j + 1).
Proof.
  intros [Hr Hc] Hcol. unfold minor.
  assert (Hrow : forall i, i < n ->
            row (map (filteri (fun j => negb (j =? col))) (tl m)) i
            = filteri (fun j => negb (j =? col)) (row m (i + 1))).
  { intros i Hi. unfold row.
    destruct m as [|r0 rest]; [simpl in Hr; lia|]. simpl in *.
    replace (i + 1) with (S i) by lia. simpl.
    rewrite (nth_indep _ [] (filteri (fun j => negb (j =? col)) []))
      by (rewrite length_map; lia).
    now rewrite map_nth. }
  split; [split|].
  - rewrite length_map. destruct m; simpl in *; lia.
  - intros i Hi. rewrite Hrow by exact Hi.
    destruct (filteri_remove col (row m (i + 1)) undef) as [Hl _].
    { rewrite Hc; lia. }
    rewrite Hl, Hc; lia.
  - intros i j Hi. unfold get2 at 1. rewrite Hrow by exact Hi.
    destruct (filteri_remove col (row m (i + 1)) undef) as [_ Hn].
    { rewrite Hc; lia. }
    unfold get at 1. rewrite Hn. destruct (j <? col); reflexivity.
Qed.

(** The text of [matrixDeterminant], the recursive call being on the minor. *)
Lemma matrixDeterminant_unfold (n : nat) (m : matrix T) :
  shaped n n m ->
  matrixDeterminant m =
  if n =? 1 then get2 m 0 0
  else if n =? 2 then
    sub (mul (get2 m 0 0) (get2 m 1 1)) (mul (get2 m 0 1) (get2 m 1 0))
  else
    for_range 0 n (fun col det =>
      let sign := if col mod 2 =? 0 then one else opp one in
      add det (mul (mul sign (get2 m 0 col)) (matrixDeterminant (minor m col)))) zero.
Proof.
  intros Hm. assert (Hlen : length m = n) by apply Hm.
  unfold matrixDeterminant. rewrite Hlen.
  destruct n as [|n]; [reflexivity|].
  cbn [determinantOfSize].
  destruct (S n =? 1) eqn:E1; [reflexivity|].
  destruct (S n =? 2) eqn:E2; [reflexivity|].
  apply for_range_ext. intros col det Hcol. cbv zeta. do 3 f_equal.
  replace (S n) with (n + 1) in Hm by lia.
  destruct (minor_entries n m col Hm) as [[Hl _] _]; [lia|].
  now rewrite Hl.
Qed.
End Generic.
End DeterminantFacts.

Module IdentityDeterminant.
Import MatrixOperations ArrayLemmas DeterminantFacts.

(** The doubles the expansion of a 0/1 matrix with at most one 1 in each row
    can produce: there they are closed under the products and the sums the
    expansion forms, so no rounding, overflow or NaN occurs. *)
Definition zeroLike (x : float) : Prop := x = 0%float \/ x = (-0)%float.
Definition unitLike (x : float) : Prop :=
  x = 0%float \/ x = (-0)%float \/ x = 1%float \/ x = (-1)%float.
Definition isSign (x : float) : Prop := x = 1%float \/ x = (-1)%float.

Lemma sign_of_column (col : nat) :
  isSign (if col mod 2 =? 0 then one else opp one).
Proof. destruct (col mod 2 =? 0); [left|right]; reflexivity. Qed.

Lemma zero_term (sign d : float) :
  isSign sign -> unitLike d -> zeroLike (mul (mul sign zero) d).
Proof.
  intros [->| ->] [->|[->|[->| ->]]]; vm_compute; auto.
Qed.

Lemma one_term (sign d : float) :
  isSign sign -> unitLike d -> unitLike (mul (mul sign one) d).
Proof.
  intros [->| ->] [->|[->|[->| ->]]]; vm_compute; auto.
Qed.

Lemma add_zeroLike (a b : float) : zeroLike a -> zeroLike b -> zeroLike (add a b).
Proof. intros [->| ->] [->| ->]; vm_compute; auto. Qed.

Lemma add_unit_zero (a b : float) : unitLike a -> zeroLike b -> unitLike (add a b).
Proof. intros [->|[->|[->| ->]]] [->| ->]; vm_compute; auto. Qed.

Lemma add_zero_unit (a b : float) : zeroLike a -> unitLike b -> unitLike (add a b).
Proof. intros [->| ->] [->|[->|[->| ->]]]; vm_compute; auto. Qed.

Lemma add_one_zeroLike (b : float) : zeroLike b -> add one b = one.
Proof. intros [->| ->]; reflexivity. Qed.

Lemma zeroLike_unitLike (x : float) : zeroLike x -> unitLike x.
Proof. unfold zeroLike, unitLike. tauto. Qed.

Lemma one_not_zero : (1 <> 0)%float.
Proof.
  intros Heq. apply (f_equal Prim2SF) in Heq. vm_compute in Heq. discriminate.
Qed.

(** A square matrix of zeros and ones with at most one 1 in each row. *)
Definition sparse01 (n : nat) (m : matrix float) : Prop :=
  shaped n n m /\
  (forall i j, i < n -> j < n -> get2 m i j = 0%float \/ get2 m i j = 1%float) /\
  (forall i j j', i < n -> j < n -> j' < n ->
     get2 m i j = 1%float -> get2 m i j' = 1%float -> j = j').

Lemma minor_sparse01 (n : nat) (m : matrix float) (col : nat) :
  sparse01 (n + 1) m -> col < n + 1 -> sparse01 n (minor m col).
Proof.
  intros (Hm & Hbits & Huniq) Hcol.
  destruct (minor_entries n m col Hm Hcol) as [Hshape Hentries].
  split; [exact Hshape|]. split.
  - intros i j Hi Hj. rewrite Hentries by exact Hi.
    apply Hbits; try lia. destruct (j <? col); lia.
  - intros i j j' Hi Hj Hj'. rewrite !Hentries by exact Hi. intros H1 H1'.
    assert (Heq : (if j <? col then j else j + 1) = (if j' <? col then j' else j' + 1)).
    { apply (Huniq (i + 1)); auto; try lia.
      - destruct (j <? col); lia.
      - destruct (j' <? col); lia. }
    revert Heq. clear H1 H1'.
    destruct (Nat.ltb_spec j col), (Nat.ltb_spec j' col); intros Heq; lia.
Qed.

(** The determinant the code computes for such a matrix is 0, -0, 1 or -1. *)
Lemma determinant_sparse01 (n : nat) (m : matrix float) :
  1 <= n -> sparse01 n m -> unitLike (matrixDeterminant m).
Proof.
  revert m. induction n as [|n IH]; intros m Hn Hsparse; [lia|].
  assert (Hs := Hsparse). destruct Hs as (Hm & Hbits & Huniq).
  rewrite (matrixDeterminant_unfold (S n) m Hm).
  destruct (S n =? 1) eqn:E1.
  { destruct (Hbits 0 0) as [-> | ->]; try lia; unfold unitLike; auto. }
  destruct (S n =? 2) eqn:E2.
  { apply Nat.eqb_eq in E2.
    destruct (Hbits 0 0) as [-> | ->]; try lia;
      destruct (Hbits 1 1) as [-> | ->]; try lia;
      destruct (Hbits 0 1) as [-> | ->]; try lia;
      destruct (Hbits 1 0) as [-> | ->]; try lia;
      vm_compute; auto. }
  apply Nat.eqb_neq in E1, E2.
  assert (Hminor : forall col, col < S n -> unitLike (matrixDeterminant (minor m col))).
  { intros col Hcol. apply IH; [lia|].
    apply minor_sparse01; [|lia]. now replace (n + 1) with (S n) by lia. }
  cut (zeroLike (for_range 0 (S n) (fun col det =>
                   let sign := if col mod 2 =? 0 then one else opp one in
                   add det (mul (mul sign (get2 m 0 col))
                                (matrixDeterminant (minor m col)))) zero)
       \/ (unitLike (for_range 0 (S n) (fun col det =>
                   let sign := if col mod 2 =? 0 then one else opp one in
                   add det (mul (mul sign (get2 m 0 col))
                                (matrixDeterminant (minor m col)))) zero)
           /\ exists c, c < S n /\ get2 m 0 c = 1%float)).
  { intros [Hz|[Hu _]]; [now apply zeroLike_unitLike|exact Hu]. }
  apply (for_range_invariant
           (fun k acc => zeroLike acc \/
                         (unitLike acc /\ exists c, c < k /\ get2 m 0 c = 1%float)));
    try lia.
  - left. left. reflexivity.
  - intros k acc Hk Hacc. cbv zeta.
    pose proof (sign_of_column k) as Hsign.
    pose proof (Hminor k ltac:(lia)) as Hd.
    destruct (Hbits 0 k) as [Hzero|Hone]; try lia.
    + rewrite Hzero.
      pose proof (zero_term _ _ Hsign Hd) as Hterm.
      destruct Hacc as [Hz|[Hu (c & Hc & Hc1)]].
      * left. now apply add_zeroLike.
      * right. split; [now apply add_unit_zero|]. exists c. split; [lia|exact Hc1].
    + rewrite Hone.
      pose proof (one_term _ _ Hsign Hd) as Hterm.
      destruct Hacc as [Hz|[Hu (c & Hc & Hc1)]].
      * right. split; [now apply add_zero_unit|]. exists k. split; [lia|exact Hone].
      * assert (c = k) by (apply (Huniq 0); auto; lia). lia.
Qed.

Lemma identity_sparse01 (n : nat) : sparse01 n (identityMatrix n).
Proof.
  destruct (LUFacts.identityMatrix_entries (T := float) n) as [Hshape Hentries].
  split; [exact Hshape|]. split.
  - intros i j Hi Hj. rewrite Hentries by assumption.
    destruct (i =? j); [right|left]; reflexivity.
  - intros i j j' Hi Hj Hj'. rewrite !Hentries by assumption.
    destruct (i =? j) eqn:E, (i =? j') eqn:E'; intros H1 H1';
      try (apply Nat.eqb_eq in E; apply Nat.eqb_eq in E'; lia);
      exfalso; apply one_not_zero; symmetry; assumption.
Qed.

(** Removing the first row and the first column of the identity leaves the
    identity. *)
Lemma minor_identity (n : nat) :
  minor (identityMatrix (n + 1)) 0 = (identityMatrix n : matrix float).
Proof.
  destruct (LUFacts.identityMatrix_entries (T := float) (n + 1)) as [Hshape Hentries].
  destruct (minor_entries n _ 0 Hshape) as [Hminor Hme]; [lia|].
  destruct (LUFacts.identityMatrix_entries (T := float) n) as [Hshape' Hentries'].
  apply (shaped_ext n n); auto.
  intros i j Hi Hj. rewrite Hme by exact Hi. simpl.
  rewrite Hentries, Hentries' by lia.
  destruct (Nat.eq_dec i j) as [->|Hne].
  - now rewrite !Nat.eqb_refl.
  - replace (i =? j) with false by (symmetry; apply Nat.eqb_neq; lia).
    now replace (i + 1 =? j + 1) with false by (symmetry; apply Nat.eqb_neq; lia).
Qed.

Lemma determinant_identity (n : nat) :
  1 <= n -> matrixDeterminant (identityMatrix n : matrix float) = 1%float.
Proof.
  induction n as [|n IH]; intros Hn; [lia|].
  replace (S n) with (n + 1) by lia.
  destruct (LUFacts.identityMatrix_entries (T := float) (n + 1)) as [Hshape Hentries].
  rewrite (matrixDeterminant_unfold (n + 1) _ Hshape).
  destruct (n + 1 =? 1) eqn:E1.
  { rewrite Hentries by lia. reflexivity. }
  destruct (n + 1 =? 2) eqn:E2.
  { rewrite !Hentries by (apply Nat.eqb_eq in E2; lia). reflexivity. }
  apply Nat.eqb_neq in E1, E2.
  rewrite for_range_first by lia. cbv zeta.
  rewrite minor_identity. rewrite IH by lia. rewrite Hentries by lia.
  change (add zero (mul (mul (if 0 mod 2 =? 0 then one else opp one)
                             (if 0 =? 0 then one else zero)) 1%float))
    with (one : float).
  apply (for_range_invariant (fun _ acc => acc = 1%float)); try lia; auto.
  intros k acc Hk ->. cbv zeta. rewrite Hentries by lia.
  replace (0 =? k) with false by (symmetry; apply Nat.eqb_neq; lia).
  refine (add_one_zeroLike _ _). apply zero_term; [apply sign_of_column|].
  apply (determinant_sparse01 n); [lia|].
  apply minor_sparse01; [apply identity_sparse01|lia].
Qed.

End IdentityDeterminant.

(** * The Fourier transform *)

Module FourierFacts.
Import MatrixOperations SignalProcessing ArrayLemmas.
Section Generic.
Context {T : Type} `{Number T}.
Variables (Math_cos Math_sin : T -> T) (Math_PI : T).

Abbreviation fft := (fft Math_cos Math_sin Math_PI).
Abbreviation ifft := (ifft Math_cos Math_sin Math_PI).

(** The lengths of the two halves. *)
Lemma splitEvenOdd_lengths (x : list T) :
  length (fst (splitEvenOdd x)) = (length x + 1) / 2 /\
  length (snd (splitEvenOdd x)) = length x / 2.
Proof.
  unfold splitEvenOdd.
  apply (for_range_invariant
           (fun i (st : list T * list T) =>
              length (fst st) = (i + 1) / 2 /\ length (snd st) = i / 2)); try lia.
  - split; reflexivity.
  - intros i [even odd] Hi [He Ho]. cbn [fst snd] in He, Ho.
    pose proof (Nat.div_mod_eq i 2) as Hd0.
    pose proof (Nat.mod_upper_bound i 2 ltac:(lia)) as Hm0.
    pose proof (Nat.div_mod_eq (i + 1) 2) as Hd1.
    pose proof (Nat.mod_upper_bound (i + 1) 2 ltac:(lia)) as Hm1.
    pose proof (Nat.div_mod_eq (i + 1 + 1) 2) as Hd2.
    pose proof (Nat.mod_upper_bound (i + 1 + 1) 2 ltac:(lia)) as Hm2.
    destruct (i mod 2 =? 0) eqn:E; cbn [fst snd]; rewrite ?length_app; cbn [length].
    + apply Nat.eqb_eq in E. lia.
    + apply Nat.eqb_neq in E. lia.
Qed.

(** The combining loop fills two arrays of length [n]. *)
Lemma combine_lengths (n : nat) (fftEven fftOdd : spectrum T) :
  n mod 2 = 0 ->
  length (real (combine Math_cos Math_sin Math_PI n fftEven fftOdd)) = n /\
  length (imag (combine Math_cos Math_sin Math_PI n fftEven fftOdd)) = n.
Proof.
  intros Heven. unfold combine.
  assert (Hn : n = 2 * (n / 2)).
  { pose proof (Nat.div_mod n 2). lia. }
  match goal with
  | |- context [for_range ?lo ?hi ?body ?s] =>
      assert (Hinv : length (fst (for_range lo hi body s)) = n /\
                     length (snd (for_range lo hi body s)) = n);
      [|destruct (for_range lo hi body s) as [re im]; exact Hinv]
  end.
  apply (for_range_invariant
           (fun _ (st : list T * list T) =>
              length (fst st) = n /\ length (snd st) = n)); try lia.
  - simpl. now rewrite !repeat_length.
  - intros k [re im] Hk [Hre Him]. simpl in *.
    rewrite !set_length; rewrite ?set_length; auto; lia.
Qed.

(** On the empty array every call makes the same call again: [fft] does
    not return, whatever the depth allowed. *)
Lemma fft_empty (fuel : nat) : fft fuel [] = None.
Proof.
  induction fuel as [|fuel IH]; [reflexivity|].
  simpl. change (splitEvenOdd []) with (([] : list T), ([] : list T)).
  now rewrite IH.
Qed.

(** One call of [fft]. *)
Lemma fft_step (fuel : nat) (x : list T) :
  fft (S fuel) x =
  if length x =? 1 then Some (Ok {| real := [get x 0]; imag := [zero] |})
  else if negb (length x mod 2 =? 0) then Some (Throw InvalidLength)
  else
    let '(even, odd) := splitEvenOdd x in
    match fft fuel even with
    | None => None
    | Some (Throw e) => Some (Throw e)
    | Some (Ok fftEven) =>
        match fft fuel odd with
        | None => None
        | Some (Throw e) => Some (Throw e)
        | Some (Ok fftOdd) =>
            Some (Ok (combine Math_cos Math_sin Math_PI (length x) fftEven fftOdd))
        end
    end.
Proof. reflexivity. Qed.

(** The lengths [fft] accepts. *)
Definition powerOfTwo (n : nat) : Prop := exists k, n = 2 ^ k.

Lemma powerOfTwo_double (n : nat) : powerOfTwo n -> powerOfTwo (2 * n).
Proof. intros [k ->]. exists (S k). simpl. lia. Qed.

Lemma powerOfTwo_half (n : nat) : 1 <= n -> powerOfTwo (2 * n) -> powerOfTwo n.
Proof.
  intros Hn [k Hk]. destruct k as [|k]; [simpl in Hk; lia|].
  exists k. simpl in Hk. lia.
Qed.

Lemma powerOfTwo_odd (n : nat) : powerOfTwo n -> n mod 2 <> 0 -> n = 1.
Proof.
  intros [k ->] Hodd. destruct k as [|k]; [reflexivity|].
  exfalso. apply Hodd. rewrite Nat.pow_succ_r'.
  rewrite Nat.mul_comm. apply Nat.Div0.mod_mul.
Qed.

(** On a non-empty array, with enough depth, [fft] returns a spectrum of
    the length of the input when that length is a power of two, and throws
    InvalidLength when it is not. *)
Lemma fft_outcome (fuel : nat) (x : list T) :
  1 <= length x -> length x < 2 ^ fuel ->
  (powerOfTwo (length x) /\
   exists X, fft fuel x = Some (Ok X) /\
             length (real X) = length x /\ length (imag X) = length x) \/
  (~ powerOfTwo (length x) /\ fft fuel x = Some (Throw InvalidLength)).
Proof.
  revert x. induction fuel as [|fuel IH]; intros x Hpos Hfuel; [simpl in Hfuel; lia|].
  rewrite fft_step.
  destruct (length x =? 1) eqn:E1.
  { apply Nat.eqb_eq in E1. left. split; [exists 0; exact E1|].
    eexists. split; [reflexivity|]. simpl. lia. }
  apply Nat.eqb_neq in E1.
  destruct (length x mod 2 =? 0) eqn:E2; cbn [negb].
  2: { apply Nat.eqb_neq in E2. right. split; [|reflexivity].
       intros Hpow. apply E1. now apply powerOfTwo_odd. }
  apply Nat.eqb_eq in E2.
  assert (Hn : length x = 2 * (length x / 2)).
  { pose proof (Nat.div_mod_eq (length x) 2). lia. }
  destruct (splitEvenOdd_lengths x) as [Hle Hlo].
  destruct (splitEvenOdd x) as [even odd]. cbn [fst snd] in Hle, Hlo.
  assert (Hle' : length even = length x / 2).
  { rewrite Hle.
    pose proof (Nat.div_mod_eq (length x + 1) 2) as Hd1.
    pose proof (Nat.mod_upper_bound (length x + 1) 2 ltac:(lia)) as Hm1.
    lia. }
  assert (Hhalf : 1 <= length x / 2) by lia.
  assert (Hfuel' : length x / 2 < 2 ^ fuel).
  { rewrite Nat.pow_succ_r' in Hfuel. lia. }
  destruct (IH even) as [[Hpow (Xe & Hre & Hle1 & Hle2)]|[Hnpow Hthrow]]; try lia.
  - rewrite Hre.
    destruct (IH odd) as [[_ (Xo & Hro & _)]|[Hnpow _]]; try lia.
    + rewrite Hro. left. split.
      * rewrite Hn. apply powerOfTwo_double. now rewrite <- Hle'.
      * eexists. split; [reflexivity|]. now apply combine_lengths.
    + exfalso. apply Hnpow. rewrite Hlo, <- Hle'. exact Hpow.
  - rewrite Hthrow. right. split; [|reflexivity].
    intros Hpow. apply Hnpow. rewrite Hle'. apply powerOfTwo_half; [lia|].
    now rewrite <- Hn.
Qed.

(** More depth does not change what [fft] has returned. *)
Lemma fft_more_fuel (fuel : nat) (x : list T) (r : result (spectrum T)) :
  fft fuel x = Some r -> fft (S fuel) x = Some r.
Proof.
  revert x r. induction fuel as [|fuel IH]; intros x r Hrun; [discriminate|].
  rewrite fft_step in Hrun. rewrite (fft_step (S fuel)).
  destruct (length x =? 1); [exact Hrun|].
  destruct (negb (length x mod 2 =? 0)); [exact Hrun|].
  destruct (splitEvenOdd x) as [even odd].
  destruct (fft fuel even) as [re|] eqn:He; [|discriminate].
  rewrite (IH even re He).
  destruct re as [Xe|e]; [|exact Hrun].
  destruct (fft fuel odd) as [ro|] eqn:Ho; [|discriminate].
  rewrite (IH odd ro Ho). exact Hrun.
Qed.

Lemma mapi_from_identity (k : nat) (l : list T) : mapi_from (fun r _ => r) k l = l.
Proof.
  revert k. induction l as [|a l IH]; intros k; simpl; [reflexivity|].
  now rewrite IH.
Qed.

(** [ifft] is the forward transform of the real part, each entry of its
    real part divided by [n]; the imaginary part of the argument is not
    read by what is returned. *)
Lemma ifft_forward_real (fuel : nat) (X : spectrum T) :
  ifft fuel X =
  match fft fuel (real X) with
  | None => None
  | Some (Throw e) => Some (Throw e)
  | Some (Ok Y) => Some (Ok (map (fun v => div v (of_nat (length (real X)))) (real Y)))
  end.
Proof.
  unfold SignalProcessing.ifft, mapi. now rewrite mapi_from_identity.
Qed.

(** On a non-empty array [fft] throws InvalidLength exactly when the
    length is not a power of two, and otherwise returns a spectrum of the
    length of the input. *)
Lemma fft_on_nonempty (x : list T) :
  1 <= length x ->
  ((exists fuel, fft fuel x = Some (Throw InvalidLength))
   <-> ~ powerOfTwo (length x)) /\
  (powerOfTwo (length x) ->
   exists fuel X,
     fft fuel x = Some (Ok X) /\
     length (real X) = length x /\ length (imag X) = length x).
Proof.
  intros Hpos.
  assert (Hfuel : length x < 2 ^ length x) by (apply Nat.pow_gt_lin_r; lia).
  pose proof (fft_outcome (length x) x Hpos Hfuel)
    as Hout.
  split; [split|].
  - intros [fuel Hthrow] Hpow.
    assert (Hf : length x < 2 ^ (fuel + length x)).
    { apply Nat.lt_le_trans with (1 := Hfuel). apply Nat.pow_le_mono_r; lia. }
    destruct (fft_outcome (fuel + length x) x Hpos Hf)
      as [[_ (X & Hok & _)]|[Hnpow _]]; [|now apply Hnpow].
    assert (Hmore : forall k, fft (k + fuel) x
                              = Some (Throw InvalidLength)).
    { induction k as [|k IHk]; [exact Hthrow|].
      now apply fft_more_fuel. }
    specialize (Hmore (length x)). rewrite Nat.add_comm in Hmore.
    rewrite Hok in Hmore. discriminate.
  - intros Hnpow. destruct Hout as [[Hpow _]|[_ Hthrow]]; [contradiction|].
    now exists (length x).
  - intros Hpow. destruct Hout as [[_ (X & Hok & Hlen)]|[Hnpow _]]; [|contradiction].
    now exists (length x), X.
Qed.

End Generic.
End FourierFacts.

(** * Gauss-Jordan inversion *)

Module InverseFacts.
Import MatrixOperations ArrayLemmas.
Section Generic.
Context {T : Type} `{Number T}.

Lemma get_app (a b : list T) (j : nat) :
  get (a ++ b) j = if j <? length a then get a j else get b (j - length a).
Proof.
  unfold get. destruct (Nat.ltb_spec j (length a)).
  - now apply app_nth1.
  - now apply app_nth2.
Qed.

(** The augmented matrix [[A | I]]. *)
Lemma augmentIdentity_entries (n : nat) (m : matrix T) :
  shaped n n m ->
  shaped n (2 * n) (augmentIdentity m) /\
  forall i j, i < n -> j < 2 * n ->
    get2 (augmentIdentity m) i j =
    if j <? n then get2 m i j else if j - n =? i then one else zero.
Proof.
  intros [Hr Hc]. unfold augmentIdentity. rewrite Hr.
  assert (Hrow : forall i, i < n ->
            row (mapi (fun r i => r ++ identityRow n i) m) i
            = row m i ++ identityRow n i).
  { intros i Hi. unfold row, mapi.
    rewrite (nth_mapi_from _ 0 i m [] []) by lia. reflexivity. }
  assert (Hid : forall i, i < n -> length (identityRow n i) = n).
  { intros i Hi. unfold identityRow. rewrite set_length; rewrite repeat_length; auto. }
  split; [split|].
  - unfold mapi. now rewrite mapi_from_length.
  - intros i Hi. rewrite Hrow by exact Hi. rewrite length_app, Hc, Hid by exact Hi. lia.
  - intros i j Hi Hj. unfold get2. rewrite Hrow by exact Hi.
    rewrite get_app, Hc by exact Hi.
    destruct (j <? n) eqn:E; [reflexivity|].
    apply Nat.ltb_ge in E. unfold identityRow.
    rewrite get_set by (rewrite repeat_length; exact Hi).
    destruct (j - n =? i); [reflexivity|]. apply get_repeat. lia.
Qed.

(** The right half, [augmented.map(row => row.slice(n))]. *)
Lemma rightHalf_entries (n : nat) (aug : matrix T) :
  shaped n (2 * n) aug ->
  shaped n n (map (skipn n) aug) /\
  forall i j, i < n -> get2 (map (skipn n) aug) i j = get2 aug i (n + j).
Proof.
  intros [Hr Hc].
  assert (Hrow : forall i, i < n -> row (map (skipn n) aug) i = skipn n (row aug i)).
  { intros i Hi. unfold row.
    rewrite (nth_indep _ [] (skipn n [])) by (rewrite length_map; lia).
    now rewrite map_nth. }
  split; [split|].
  - now rewrite length_map.
  - intros i Hi. rewrite Hrow by exact Hi. rewrite length_skipn, Hc by exact Hi. lia.
  - intros i j Hi. unfold get2. rewrite Hrow by exact Hi.
    unfold get. now rewrite nth_skipn.
Qed.

(** The pivot row is inside [[col, n)]. *)
Lemma findPivot_range (aug : matrix T) (n col : nat) :
  col < n -> col <= findPivot aug n col < n.
Proof.
  intros Hcol. unfold findPivot.
  apply (for_range_invariant (fun i m => col <= m < i)); try lia.
  intros i m Hi Hm. destruct (ltb _ _); lia.
Qed.

Lemma swapRows_entries (r c : nat) (M : matrix T) (a b : nat) :
  shaped r c M -> a < r -> b < r ->
  shaped r c (swapRows M a b) /\
  forall i j,
    get2 (swapRows M a b) i j =
    get2 M (if i =? b then a else if i =? a then b else i) j.
Proof.
  intros [Hr Hc] Ha Hb.
  assert (Hrow : forall i,
            row (swapRows M a b) i
            = row M (if i =? b then a else if i =? a then b else i)).
  { intros i. rewrite PivotFacts.row_swapRows by lia.
    destruct (i =? b); [reflexivity|]. destruct (i =? a); reflexivity. }
  split; [split|].
  - now rewrite PivotFacts.swapRows_length.
  - intros i Hi. rewrite Hrow. apply Hc.
    destruct (i =? b); [lia|]. destruct (i =? a); lia.
  - intros i j. unfold get2. now rewrite Hrow.
Qed.

(** The pivot row divided by the pivot. *)
Lemma scalePivotRow_entries (n col : nat) (M : matrix T) :
  shaped n (2 * n) M -> col < n ->
  shaped n (2 * n) (scalePivotRow n col M) /\
  forall i j, i < n -> j < 2 * n ->
    get2 (scalePivotRow n col M) i j =
    if i =? col then div (get2 M col j) (get2 M col col) else get2 M i j.
Proof.
  intros HM Hcol. unfold scalePivotRow.
  cut (shaped n (2 * n)
         (for_range 0 (2 * n) (fun j aug =>
            set2 aug col j (div (get2 aug col j) (get2 M col col))) M) /\
       forall i j, i < n -> j < 2 * n ->
         get2 (for_range 0 (2 * n) (fun j aug =>
                 set2 aug col j (div (get2 aug col j) (get2 M col col))) M) i j
         = if (i =? col) && (j <? 2 * n) then div (get2 M col j) (get2 M col col)
           else get2 M i j).
  { intros [Hshape Hentries]. split; [exact Hshape|].
    intros i j Hi Hj. rewrite Hentries by assumption.
    replace (j <? 2 * n) with true by (symmetry; apply Nat.ltb_lt; lia).
    now rewrite andb_true_r. }
  apply (for_range_invariant
           (fun j0 (N : matrix T) =>
              shaped n (2 * n) N /\
              forall i j, i < n -> j < 2 * n ->
                get2 N i j = if (i =? col) && (j <? j0)
                             then div (get2 M col j) (get2 M col col)
                             else get2 M i j)); try lia.
  - split; [exact HM|]. intros i j Hi Hj. now rewrite andb_false_r.
  - intros j0 N Hj0 [HN Hdone]. split; [apply shaped_set2; auto; lia|].
    intros i j Hi Hj. rewrite (get2_set2_shaped n (2 * n)) by (auto; lia).
    rewrite (Hdone col j0) by lia. rewrite Nat.eqb_refl.
    replace (j0 <? j0) with false by (symmetry; apply Nat.ltb_ge; lia). simpl.
    rewrite Hdone by assumption.
    destruct (i =? col) eqn:Ei; simpl; [|reflexivity].
    destruct (Nat.eq_dec j j0) as [->|Hne].
    + rewrite Nat.eqb_refl.
      now replace (j0 <? j0 + 1) with true by (symmetry; apply Nat.ltb_lt; lia).
    + replace (j =? j0) with false by (symmetry; apply Nat.eqb_neq; lia).
      destruct (Nat.ltb_spec j j0).
      * now replace (j <? j0 + 1) with true by (symmetry; apply Nat.ltb_lt; lia).
      * now replace (j <? j0 + 1) with false by (symmetry; apply Nat.ltb_ge; lia).
Qed.

(** One row minus its entry in column [col] times the pivot row. *)
Lemma eliminateRow_entries (n col r : nat) (M : matrix T) :
  shaped n (2 * n) M -> col < n -> r < n -> r <> col ->
  let M' := for_range 0 (2 * n) (fun j aug =>
              set2 aug r j (sub (get2 aug r j) (mul (get2 M r col) (get2 aug col j)))) M in
  shaped n (2 * n) M' /\
  forall i j, i < n -> j < 2 * n ->
    get2 M' i j =
    if i =? r then sub (get2 M r j) (mul (get2 M r col) (get2 M col j)) else get2 M i j.
Proof.
  intros HM Hcol Hr Hne. cbv zeta.
  cut (shaped n (2 * n)
         (for_range 0 (2 * n) (fun j aug =>
            set2 aug r j (sub (get2 aug r j) (mul (get2 M r col) (get2 aug col j)))) M) /\
       forall i j, i < n -> j < 2 * n ->
         get2 (for_range 0 (2 * n) (fun j aug =>
                 set2 aug r j (sub (get2 aug r j) (mul (get2 M r col) (get2 aug col j)))) M)
              i j
         = if (i =? r) && (j <? 2 * n)
           then sub (get2 M r j) (mul (get2 M r col) (get2 M col j))
           else get2 M i j).
  { intros [Hshape Hentries]. split; [exact Hshape|].
    intros i j Hi Hj. rewrite Hentries by assumption.
    replace (j <? 2 * n) with true by (symmetry; apply Nat.ltb_lt; lia).
    now rewrite andb_true_r. }
  apply (for_range_invariant
           (fun j0 (N : matrix T) =>
              shaped n (2 * n) N /\
              forall i j, i < n -> j < 2 * n ->
                get2 N i j = if (i =? r) && (j <? j0)
                             then sub (get2 M r j) (mul (get2 M r col) (get2 M col j))
                             else get2 M i j)); try lia.
  - split; [exact HM|]. intros i j Hi Hj. now rewrite andb_false_r.
  - intros j0 N Hj0 [HN Hdone]. split; [apply shaped_set2; auto; lia|].
    intros i j Hi Hj. rewrite (get2_set2_shaped n (2 * n)) by (auto; lia).
    rewrite (Hdone r j0) by lia. rewrite Nat.eqb_refl.
    replace (j0 <? j0) with false by (symmetry; apply Nat.ltb_ge; lia). simpl.
    rewrite (Hdone col j0) by lia.
    replace (col =? r) with false by (symmetry; apply Nat.eqb_neq; lia). simpl.
    rewrite Hdone by assumption.
    destruct (i =? r) eqn:Ei; simpl; [|reflexivity].
    destruct (Nat.eq_dec j j0) as [->|Hnej].
    + rewrite Nat.eqb_refl.
      now replace (j0 <? j0 + 1) with true by (symmetry; apply Nat.ltb_lt; lia).
    + replace (j =? j0) with false by (symmetry; apply Nat.eqb_neq; lia).
      destruct (Nat.ltb_spec j j0).
      * now replace (j <? j0 + 1) with true by (symmetry; apply Nat.ltb_lt; lia).
      * now replace (j <? j0 + 1) with false by (symmetry; apply Nat.ltb_ge; lia).
Qed.

(** Every row but the pivot row minus its entry in column [col] times the
    pivot row. *)
Lemma eliminateColumn_entries (n col : nat) (M : matrix T) :
  shaped n (2 * n) M -> col < n ->
  shaped n (2 * n) (eliminateColumn n col M) /\
  forall i j, i < n -> j < 2 * n ->
    get2 (eliminateColumn n col M) i j =
    if i =? col then get2 M i j
    else sub (get2 M i j) (mul (get2 M i col) (get2 M col j)).
Proof.
  intros HM Hcol. unfold eliminateColumn.
  match goal with
  | |- context [for_range ?lo ?hi ?body ?s] =>
      cut (shaped n (2 * n) (for_range lo hi body s) /\
           forall i j, i < n -> j < 2 * n ->
             get2 (for_range lo hi body s) i j =
             if (i <? n) && negb (i =? col)
             then sub (get2 M i j) (mul (get2 M i col) (get2 M col j))
             else get2 M i j)
  end.
  { intros [Hshape Hentries]. split; [exact Hshape|].
    intros i j Hi Hj. rewrite Hentries by assumption.
    replace (i <? n) with true by (symmetry; apply Nat.ltb_lt; lia). simpl.
    destruct (i =? col); reflexivity. }
  apply (for_range_invariant
           (fun r0 (N : matrix T) =>
              shaped n (2 * n) N /\
              forall i j, i < n -> j < 2 * n ->
                get2 N i j = if (i <? r0) && negb (i =? col)
                             then sub (get2 M i j) (mul (get2 M i col) (get2 M col j))
                             else get2 M i j)); try lia.
  - split; [exact HM|]. intros i j Hi Hj. reflexivity.
  - intros r0 N Hr0 [HN Hdone].
    destruct (r0 =? col) eqn:Er.
    + apply Nat.eqb_eq in Er. subst r0. split; [exact HN|].
      intros i j Hi Hj. rewrite Hdone by assumption.
      destruct (Nat.eq_dec i col) as [->|Hne].
      * rewrite Nat.eqb_refl. simpl. now rewrite !andb_false_r.
      * replace (i =? col) with false by (symmetry; apply Nat.eqb_neq; lia). simpl.
        rewrite !andb_true_r.
        destruct (Nat.ltb_spec i col).
        -- now replace (i <? col + 1) with true by (symmetry; apply Nat.ltb_lt; lia).
        -- now replace (i <? col + 1) with false by (symmetry; apply Nat.ltb_ge; lia).
    + apply Nat.eqb_neq in Er.
      destruct (eliminateRow_entries n col r0 N HN Hcol) as [Hshape Hrow]; try lia.
      assert (Hcur_r : forall j, j < 2 * n -> get2 N r0 j = get2 M r0 j).
      { intros j Hj. rewrite Hdone by lia.
        now replace (r0 <? r0) with false by (symmetry; apply Nat.ltb_ge; lia). }
      assert (Hcur_col : forall j, j < 2 * n -> get2 N col j = get2 M col j).
      { intros j Hj. rewrite Hdone by lia. rewrite Nat.eqb_refl. simpl.
        now rewrite andb_false_r. }
      cbv zeta in Hshape, Hrow. split; [exact Hshape|].
      intros i j Hi Hj. rewrite Hrow by assumption.
      destruct (Nat.eq_dec i r0) as [->|Hne].
      * rewrite Nat.eqb_refl.
        replace (r0 <? r0 + 1) with true by (symmetry; apply Nat.ltb_lt; lia).
        replace (r0 =? col) with false by (symmetry; apply Nat.eqb_neq; lia). simpl.
        rewrite !Hcur_r, Hcur_col by lia. reflexivity.
      * replace (i =? r0) with false by (symmetry; apply Nat.eqb_neq; lia).
        rewrite Hdone by assumption.
        destruct (Nat.ltb_spec i r0).
        -- now replace (i <? r0 + 1) with true by (symmetry; apply Nat.ltb_lt; lia).
        -- now replace (i <? r0 + 1) with false by (symmetry; apply Nat.ltb_ge; lia).
Qed.

End Generic.
End InverseFacts.

(** * Binary64 numbers that are computed exactly

    The doubles [z * 2^e] with [|z| < 2^53]: sums, differences and halves
    of such numbers that stay in this range are computed without rounding.
    This is what makes coordinates of pixels exact. *)
Module Binary64.

(** [2^t * m], by [t] doublings. *)
Definition shiftMantissa (m : positive) (t : nat) : positive := Nat.iter t xO m.

Lemma shiftMantissa_value (m : positive) (t : nat) :
  Z.pos (shiftMantissa m t) = (Z.pos m * 2 ^ Z.of_nat t)%Z.
Proof.
  induction t as [|t IH].
  - simpl. lia.
  - unfold shiftMantissa in *. rewrite Nat.iter_succ.
    rewrite Pos2Z.inj_xO, IH, Nat2Z.inj_succ, Z.pow_succ_r by lia. lia.
Qed.

Lemma shiftMantissa_digits (m : positive) (t : nat) :
  Z.pos (digits2_pos (shiftMantissa m t)) = (Z.pos (digits2_pos m) + Z.of_nat t)%Z.
Proof.
  induction t as [|t IH].
  - simpl. lia.
  - unfold shiftMantissa in *. rewrite Nat.iter_succ. cbn [digits2_pos].
    rewrite Pos2Z.inj_succ, IH. lia.
Qed.

Lemma iter_pos_nat {A : Type} (f : A -> A) (p : positive) (x : A) :
  SpecFloat.iter_pos f p x = Nat.iter (Pos.to_nat p) f x.
Proof.
  revert x. induction p as [p IH|p IH|]; intros x; cbn [SpecFloat.iter_pos].
  - rewrite !IH. rewrite Pos2Nat.inj_xI. 
    rewrite <- Nat.iter_add. rewrite <- Nat.iter_succ_r. f_equal. lia.
  - rewrite !IH. rewrite Pos2Nat.inj_xO. rewrite <- Nat.iter_add. f_equal. lia.
  - reflexivity.
Qed.

Lemma pos_iter_nat {A : Type} (f : A -> A) (p : positive) (x : A) :
  Pos.iter f x p = Nat.iter (Pos.to_nat p) f x.
Proof. apply Pos2Nat.inj_iter. Qed.

(** Shifting out [t] zero bits is exact. *)
Lemma shr_zero_bits (m : positive) (t : nat) :
  Nat.iter t shr_1 {| shr_m := Z.pos (shiftMantissa m t); shr_r := false; shr_s := false |}
  = {| shr_m := Z.pos m; shr_r := false; shr_s := false |}.
Proof.
  induction t as [|t IH]; [reflexivity|].
  rewrite Nat.iter_succ_r. unfold shiftMantissa. rewrite Nat.iter_succ. 
  cbn [shr_1 orb]. exact IH.
Qed.


(** A canonical mantissa and exponent, as [valid_binary] asks. *)
Lemma bounded_fexp (m : positive) (e : Z) :
  bounded prec emax m e = true ->
  fexp prec emax (Z.pos (digits2_pos m) + e) = e /\ (e <= emax - prec)%Z.
Proof.
  unfold bounded, canonical_mantissa. intros H.
  apply andb_true_iff in H. destruct H as [H1 H2].
  apply Z.eqb_eq in H1. apply Z.leb_le in H2. auto.
Qed.

(** Rounding [2^t * m] at exponent [e - t], for a canonical [(m, e)], shifts
    the [t] zero bits out and returns [(m, e)]: nothing is lost. *)
Lemma round_aux_exact (s : bool) (m : positive) (e : Z) (t : nat) :
  bounded prec emax m e = true ->
  binary_round_aux prec emax s (Z.pos (shiftMantissa m t)) (e - Z.of_nat t) loc_Exact
  = S754_finite s m e.
Proof.
  intros Hb. destruct (bounded_fexp m e Hb) as [Hfexp Hle].
  unfold binary_round_aux, shr_fexp.
  cbn [Zdigits2]. rewrite shiftMantissa_digits.
  replace (Z.pos (digits2_pos m) + Z.of_nat t + (e - Z.of_nat t))%Z
    with (Z.pos (digits2_pos m) + e)%Z by lia.
  rewrite Hfexp.
  replace (e - (e - Z.of_nat t))%Z with (Z.of_nat t) by lia.
  assert (Hshr : shr (shr_record_of_loc (Z.pos (shiftMantissa m t)) loc_Exact)
                     (e - Z.of_nat t) (Z.of_nat t)
                 = ({| shr_m := Z.pos m; shr_r := false; shr_s := false |}, e)).
  { unfold shr. destruct t as [|t].
    - simpl. f_equal. lia.
    - rewrite Nat2Z.inj_succ. rewrite <- Zpos_P_of_succ_nat.
      rewrite iter_pos_nat. rewrite SuccNat2Pos.id_succ.
      cbn [shr_record_of_loc]. rewrite shr_zero_bits. f_equal. 
      rewrite Zpos_P_of_succ_nat. lia. }
  rewrite Hshr. cbn [shr_m loc_of_shr_record round_nearest_even Zdigits2].
  rewrite Hfexp. rewrite Z.sub_diag. cbn [shr shr_record_of_loc shr_m].
  apply Z.leb_le in Hle. now rewrite Hle.
Qed.


Lemma shiftMantissa_add (m : positive) (a b : nat) :
  shiftMantissa (shiftMantissa m a) b = shiftMantissa m (a + b).
Proof.
  unfold shiftMantissa. rewrite (Nat.add_comm a b). now rewrite Nat.iter_add.
Qed.

Lemma shiftMantissa_unique (M m : positive) (t : nat) :
  Z.pos M = (Z.pos m * 2 ^ Z.of_nat t)%Z -> M = shiftMantissa m t.
Proof.
  intros HM. apply Pos2Z.inj. now rewrite shiftMantissa_value.
Qed.

(** The number of binary digits of a positive number. *)
Lemma digits_bounds (k : positive) :
  (2 ^ (Z.pos (digits2_pos k) - 1) <= Z.pos k < 2 ^ Z.pos (digits2_pos k))%Z.
Proof.
  induction k as [k IH|k IH|]; cbn [digits2_pos].
  - rewrite Pos2Z.inj_succ.
    replace (Z.succ (Z.pos (digits2_pos k)) - 1)%Z with (Z.succ (Z.pos (digits2_pos k) - 1))
      by lia.
    rewrite !Z.pow_succ_r by lia. lia.
  - rewrite Pos2Z.inj_succ.
    replace (Z.succ (Z.pos (digits2_pos k)) - 1)%Z with (Z.succ (Z.pos (digits2_pos k) - 1))
      by lia.
    rewrite !Z.pow_succ_r by lia. lia.
  - simpl. lia.
Qed.

Lemma digits_small (k : positive) :
  (Z.pos k < 2 ^ 53)%Z -> (Z.pos (digits2_pos k) <= 53)%Z.
Proof.
  intros Hk. destruct (digits_bounds k) as [Hlow _].
  destruct (Z.le_gt_cases (Z.pos (digits2_pos k)) 53) as [|Hgt]; [assumption|].
  assert (2 ^ 53 <= 2 ^ (Z.pos (digits2_pos k) - 1))%Z by (apply Z.pow_le_mono_r; lia).
  lia.
Qed.

(** The zero bits to append to a mantissa of at most 53 digits. *)
Definition slack (k : positive) : nat := Z.to_nat (prec - Z.pos (digits2_pos k)).

(** The binary64 number [z * 2^e] for [|z| < 2^53]: its canonical mantissa
    and exponent. *)
Definition dyadic (z e : Z) : spec_float :=
  match z with
  | Z0 => S754_zero false
  | Z.pos k => S754_finite false (shiftMantissa k (slack k)) (e - Z.of_nat (slack k))
  | Z.neg k => S754_finite true (shiftMantissa k (slack k)) (e - Z.of_nat (slack k))
  end.

Lemma dyadic_bounded (k : positive) (e : Z) :
  (Z.pos k < 2 ^ 53)%Z -> (-1021 <= e <= 971)%Z ->
  bounded prec emax (shiftMantissa k (slack k)) (e - Z.of_nat (slack k)) = true.
Proof.
  intros Hk He. pose proof (digits_small k Hk) as Hd.
  unfold bounded, canonical_mantissa, fexp, FloatOps.emin, emin, slack.
  rewrite shiftMantissa_digits. unfold prec, emax in *.
  rewrite Z2Nat.id by lia.
  apply andb_true_iff. split; [apply Z.eqb_eq|apply Z.leb_le]; lia.
Qed.

Lemma dyadic_valid (z e : Z) :
  (Z.abs z < 2 ^ 53)%Z -> (-1021 <= e <= 971)%Z ->
  valid_binary (dyadic z e) = true.
Proof.
  intros Hz He. destruct z as [|k|k]; [reflexivity| |];
    apply dyadic_bounded; auto; lia.
Qed.

(** Rounding a positive mantissa that is [2^t] times a short one. *)
Lemma round_dyadic (s : bool) (k : positive) (e : Z) (t : nat) :
  (Z.pos k < 2 ^ 53)%Z -> (-1021 <= e <= 971)%Z ->
  binary_round prec emax s (shiftMantissa k t) (e - Z.of_nat t)
  = S754_finite s (shiftMantissa k (slack k)) (e - Z.of_nat (slack k)).
Proof.
  intros Hk He. pose proof (digits_small k Hk) as Hd.
  pose proof (dyadic_bounded k e Hk He) as Hb.
  unfold binary_round. rewrite shiftMantissa_digits.
  replace (Z.pos (digits2_pos k) + Z.of_nat t + (e - Z.of_nat t))%Z
    with (Z.pos (digits2_pos k) + e)%Z by lia.
  assert (Hfexp : fexp prec emax (Z.pos (digits2_pos k) + e) = (e - Z.of_nat (slack k))%Z).
  { unfold fexp, FloatOps.emin, emin, slack, prec, emax in *.
    rewrite Z2Nat.id by lia. lia. }
  rewrite Hfexp. unfold shl_align.
  destruct (e - Z.of_nat (slack k) - (e - Z.of_nat t))%Z as [|d|d] eqn:Hdiff.
  - assert (t = slack k) by lia. subst t.
    rewrite <- (round_aux_exact s _ _ 0 Hb). cbn [shiftMantissa Nat.iter]. f_equal. lia.
  - assert (Ht : t = slack k + Pos.to_nat d) by lia.
    rewrite Ht, <- shiftMantissa_add.
    rewrite <- (round_aux_exact s _ _ (Pos.to_nat d) Hb). f_equal. lia.
  - rewrite pos_iter_nat. fold (shiftMantissa (shiftMantissa k t) (Pos.to_nat d)).
    rewrite shiftMantissa_add.
    replace (t + Pos.to_nat d) with (slack k) by lia.
    rewrite <- (round_aux_exact s _ _ 0 Hb). cbn [shiftMantissa Nat.iter]. f_equal. lia.
Qed.

(** Normalising any integer mantissa and exponent of the value [z * 2^e]. *)
Lemma normalize_dyadic (z e z' e' : Z) :
  (Z.abs z < 2 ^ 53)%Z -> (-1021 <= e <= 971)%Z ->
  (e' <= e)%Z -> z' = (z * 2 ^ (e - e'))%Z ->
  binary_normalize prec emax z' e' false = dyadic z e.
Proof.
  intros Hz He He' ->.
  assert (Hpow : (0 < 2 ^ (e - e'))%Z) by (apply Z.pow_pos_nonneg; lia).
  destruct z as [|k|k].
  - reflexivity.
  - unfold binary_normalize, dyadic.
    destruct (Z.pos k * 2 ^ (e - e'))%Z as [|M|M] eqn:HM; try lia.
    assert (HM' : M = shiftMantissa k (Z.to_nat (e - e'))).
    { apply shiftMantissa_unique. rewrite Z2Nat.id by lia. lia. }
    rewrite HM'. set (T := Z.to_nat (e - e')).
    replace e' with (e - Z.of_nat T)%Z by (unfold T; lia).
    apply round_dyadic; auto; lia.
  - unfold binary_normalize, dyadic.
    destruct (Z.neg k * 2 ^ (e - e'))%Z as [|M|M] eqn:HM; try lia.
    assert (HM' : M = shiftMantissa k (Z.to_nat (e - e'))).
    { apply shiftMantissa_unique. rewrite Z2Nat.id by lia. lia. }
    rewrite HM'. set (T := Z.to_nat (e - e')).
    replace e' with (e - Z.of_nat T)%Z by (unfold T; lia).
    apply round_dyadic; auto; lia.
Qed.


(** Two mantissa-exponent pairs of the same value give the same number. *)
Lemma dyadic_scale (z e : Z) (t : Z) :
  (Z.abs (z * 2 ^ t) < 2 ^ 53)%Z -> (0 <= t)%Z ->
  (-1021 <= e - t)%Z -> (e <= 971)%Z ->
  dyadic (z * 2 ^ t) (e - t) = dyadic z e.
Proof.
  intros Hz Ht He1 He2.
  assert (Hpow : (1 <= 2 ^ t)%Z) by (apply Z.lt_pred_le; apply Z.pow_pos_nonneg; lia).
  assert (Hz' : (Z.abs z < 2 ^ 53)%Z).
  { rewrite Z.abs_mul in Hz. rewrite (Z.abs_eq (2 ^ t)) in Hz by lia. nia. }
  rewrite <- (normalize_dyadic (z * 2 ^ t) (e - t) (z * 2 ^ t) (e - t)); auto; try lia.
  - apply normalize_dyadic; auto; try lia. f_equal. f_equal. lia.
  - rewrite Z.sub_diag. simpl. lia.
Qed.

Lemma dyadic_opp (z e : Z) : z <> 0%Z -> SFopp (dyadic z e) = dyadic (- z) e.
Proof. destruct z; [contradiction| |]; reflexivity. Qed.

(** The mantissa of a number aligned on a lower exponent. *)
Lemma shl_align_value (m : positive) (e ez : Z) :
  (ez <= e)%Z -> Z.pos (fst (shl_align m e ez)) = (Z.pos m * 2 ^ (e - ez))%Z.
Proof.
  intros Hle. unfold shl_align.
  destruct (ez - e)%Z as [|d|d] eqn:Hd; try lia.
  - replace (e - ez)%Z with 0%Z by lia. simpl. lia.
  - cbn [fst]. rewrite pos_iter_nat. fold (shiftMantissa m (Pos.to_nat d)).
    rewrite shiftMantissa_value. f_equal. f_equal. lia.
Qed.

Lemma dyadic_aligned (z e ez : Z) (s : bool) (m : positive) (E : Z) :
  dyadic z e = S754_finite s m E -> (ez <= E)%Z ->
  cond_Zopp s (Z.pos (fst (shl_align m E ez))) = (z * 2 ^ (e - ez))%Z /\ (E <= e)%Z.
Proof.
  intros Hd Hez. rewrite shl_align_value by exact Hez.
  destruct z as [|k|k]; [discriminate| |]; cbn [dyadic] in Hd;
    inversion Hd; subst s m E; clear Hd; cbn [cond_Zopp];
    rewrite shiftMantissa_value;
    (split; [|lia]).
  - rewrite <- Z.mul_assoc, <- Z.pow_add_r by lia. f_equal. f_equal. lia.
  - rewrite <- Z.mul_assoc, <- Z.pow_add_r by lia.
    rewrite <- Pos2Z.opp_pos. rewrite Z.mul_opp_l. f_equal. f_equal. f_equal. lia.
Qed.

Lemma dyadic_finite_exponent (z e : Z) (s : bool) (m : positive) (E : Z) :
  dyadic z e = S754_finite s m E -> (e - 53 <= E <= e)%Z.
Proof.
  destruct z as [|k|k]; [discriminate| |]; cbn [dyadic]; intros Hd;
    inversion Hd; unfold slack, prec; lia.
Qed.

(** Sums and differences of numbers on one exponent are exact as long as
    they stay below [2^53] in mantissa. *)
Lemma add_dyadic (a b e : Z) :
  (Z.abs a < 2 ^ 53)%Z -> (Z.abs b < 2 ^ 53)%Z -> (Z.abs (a + b) < 2 ^ 53)%Z ->
  (-900 <= e <= 900)%Z ->
  SFadd prec emax (dyadic a e) (dyadic b e) = dyadic (a + b) e.
Proof.
  intros Ha Hb Hab He.
  destruct (dyadic a e) as [sa|sa| |sa ma ea] eqn:Da;
    try (destruct a; discriminate).
  { destruct a; try discriminate. inversion Da; subst sa. rewrite Z.add_0_l.
    destruct (dyadic b e) as [sb|sb| |sb mb eb] eqn:Db; try reflexivity.
    destruct b; try discriminate. now inversion Db. }
  destruct (dyadic b e) as [sb|sb| |sb mb eb] eqn:Db;
    try (destruct b; discriminate).
  { destruct b; try discriminate. rewrite Z.add_0_r, Da. reflexivity. }
  pose proof (dyadic_finite_exponent a e sa ma ea Da) as Hea.
  pose proof (dyadic_finite_exponent b e sb mb eb Db) as Heb.
  cbn [SFadd].
  destruct (dyadic_aligned a e (Z.min ea eb) sa ma ea Da) as [Va _]; [lia|].
  destruct (dyadic_aligned b e (Z.min ea eb) sb mb eb Db) as [Vb _]; [lia|].
  rewrite Va, Vb. apply normalize_dyadic; auto; try lia.
Qed.

Lemma sub_dyadic (a b e : Z) :
  (Z.abs a < 2 ^ 53)%Z -> (Z.abs b < 2 ^ 53)%Z -> (Z.abs (a - b) < 2 ^ 53)%Z ->
  (-900 <= e <= 900)%Z ->
  SFsub prec emax (dyadic a e) (dyadic b e) = dyadic (a - b) e.
Proof.
  intros Ha Hb Hab He.
  destruct (dyadic a e) as [sa|sa| |sa ma ea] eqn:Da;
    try (destruct a; discriminate).
  { destruct a; try discriminate. inversion Da; subst sa. rewrite Z.sub_0_l.
    destruct b as [|k|k]; reflexivity. }
  destruct (dyadic b e) as [sb|sb| |sb mb eb] eqn:Db;
    try (destruct b; discriminate).
  { destruct b; try discriminate. rewrite Z.sub_0_r, Da. reflexivity. }
  pose proof (dyadic_finite_exponent a e sa ma ea Da) as Hea.
  pose proof (dyadic_finite_exponent b e sb mb eb Db) as Heb.
  cbn [SFsub].
  destruct (dyadic_aligned a e (Z.min ea eb) sa ma ea Da) as [Va _]; [lia|].
  destruct (dyadic_aligned b e (Z.min ea eb) sb mb eb Db) as [Vb _]; [lia|].
  rewrite Va, Vb. apply normalize_dyadic; auto; try lia.
Qed.


(** ** The numbers themselves *)

Definition fl (z e : Z) : float := SF2Prim (dyadic z e).

Lemma Prim2SF_fl (z e : Z) :
  (Z.abs z < 2 ^ 53)%Z -> (-1021 <= e <= 971)%Z -> Prim2SF (fl z e) = dyadic z e.
Proof.
  intros Hz He. unfold fl. apply Prim2SF_SF2Prim. now apply dyadic_valid.
Qed.

Lemma fl_add (a b e : Z) :
  (Z.abs a < 2 ^ 53)%Z -> (Z.abs b < 2 ^ 53)%Z -> (Z.abs (a + b) < 2 ^ 53)%Z ->
  (-900 <= e <= 900)%Z ->
  (fl a e + fl b e)%float = fl (a + b) e.
Proof.
  intros Ha Hb Hab He. apply Prim2SF_inj.
  rewrite FloatAxioms.add_spec, !Prim2SF_fl by (auto; lia). now apply add_dyadic.
Qed.

Lemma fl_sub (a b e : Z) :
  (Z.abs a < 2 ^ 53)%Z -> (Z.abs b < 2 ^ 53)%Z -> (Z.abs (a - b) < 2 ^ 53)%Z ->
  (-900 <= e <= 900)%Z ->
  (fl a e - fl b e)%float = fl (a - b) e.
Proof.
  intros Ha Hb Hab He. apply Prim2SF_inj.
  rewrite FloatAxioms.sub_spec, !Prim2SF_fl by (auto; lia). now apply sub_dyadic.
Qed.

Lemma fl_scale (z e t : Z) :
  (Z.abs (z * 2 ^ t) < 2 ^ 53)%Z -> (0 <= t)%Z ->
  (-1021 <= e - t)%Z -> (e <= 971)%Z ->
  fl (z * 2 ^ t) (e - t) = fl z e.
Proof. intros. unfold fl. now rewrite dyadic_scale. Qed.

(** Multiplying by 1 changes no double, NaN and the infinities included. *)
Lemma mul_one_l (x : float) : (1 * x)%float = x.
Proof.
  apply Prim2SF_inj. rewrite FloatAxioms.mul_spec.
  change (Prim2SF 1) with (S754_finite false 4503599627370496 (-52)).
  pose proof (Prim2SF_valid x) as Hv.
  destruct (Prim2SF x) as [s|s| |s m e]; try reflexivity.
  cbn [SF64mul SFmul xorb]. unfold SF64mul. cbn [SFmul xorb].
  replace (4503599627370496 * m)%positive with (shiftMantissa m 52).
  - replace (-52 + e)%Z with (e - Z.of_nat 52)%Z by lia.
    now apply round_aux_exact.
  - symmetry. apply shiftMantissa_unique. rewrite Pos2Z.inj_mul. 
    change (2 ^ Z.of_nat 52)%Z with 4503599627370496%Z. lia.
Qed.

(** The product of a zero and a finite double is a zero. *)
Definition isZero (x : float) : Prop := x = 0%float \/ x = (-0)%float.

Lemma zero_mul_fl (z0 : float) (z e : Z) :
  isZero z0 -> (Z.abs z < 2 ^ 53)%Z -> (-1021 <= e <= 971)%Z ->
  isZero (z0 * fl z e)%float.
Proof.
  intros Hz0 Hz He.
  assert (Hsf : exists s, Prim2SF (z0 * fl z e)%float = S754_zero s).
  { rewrite FloatAxioms.mul_spec, Prim2SF_fl by auto.
    destruct Hz0 as [-> | ->].
    - change (Prim2SF 0) with (S754_zero false).
      destruct z; cbn [dyadic]; unfold SF64mul; cbn [SFmul]; eauto.
    - change (Prim2SF (-0)) with (S754_zero true).
      destruct z; cbn [dyadic]; unfold SF64mul; cbn [SFmul]; eauto. }
  destruct Hsf as [[|] Hs]; [right|left]; apply Prim2SF_inj; rewrite Hs; reflexivity.
Qed.

(** Adding a zero to one of these numbers gives the number. *)
Lemma fl_add_zero (z0 : float) (z e : Z) :
  isZero z0 -> (Z.abs z < 2 ^ 53)%Z -> (-1021 <= e <= 971)%Z ->
  (fl z e + z0)%float = fl z e /\ (z0 + fl z e)%float = fl z e.
Proof.
  intros Hz0 Hz He. split; apply Prim2SF_inj; rewrite FloatAxioms.add_spec, Prim2SF_fl by auto;
    destruct Hz0 as [-> | ->];
    try change (Prim2SF 0) with (S754_zero false);
    try change (Prim2SF (-0)) with (S754_zero true);
    destruct z; reflexivity.
Qed.


(** Halving: division by 2 lowers the exponent by one. *)
Lemma div_core_two (m : positive) (ex : Z) :
  Z.pos (digits2_pos m) = 53%Z -> (-1072 <= ex)%Z ->
  SFdiv_core_binary prec emax (Z.pos m) ex 4503599627370496 (-51)
  = (Z.pos (shiftMantissa m 1), (ex - 2)%Z, loc_Exact).
Proof.
  intros Hd He. unfold SFdiv_core_binary.
  cbn [Zdigits2]. rewrite Hd.
  change (Z.pos (digits2_pos 4503599627370496)) with 53%Z.
  replace (Z.min (fexp prec emax (53 + ex - (53 + -51))) (ex - -51)) with (ex - 2)%Z.
  2:{ unfold fexp, emin, emax, prec. lia. }
  replace (ex - -51 - (ex - 2))%Z with 53%Z by lia.
  rewrite Z.shiftl_mul_pow2 by lia.
  assert (Hq : Z.div_eucl (Z.pos m * 2 ^ 53) 4503599627370496
               = ((Z.pos m * 2 ^ 53) / 4503599627370496,
                  (Z.pos m * 2 ^ 53) mod 4503599627370496)%Z).
  { unfold Z.div, Z.modulo. now destruct Z.div_eucl. }
  rewrite Hq.
  replace (Z.pos m * 2 ^ 53)%Z with ((2 * Z.pos m) * 4503599627370496)%Z
    by (change (2 ^ 53)%Z with (2 * 4503599627370496)%Z; lia).
  rewrite Z.div_mul, Z.mod_mul by lia.
  reflexivity.
Qed.

Lemma fl_half (z e : Z) :
  (Z.abs z < 2 ^ 53)%Z -> (-1000 <= e <= 971)%Z ->
  (fl z e / 2)%float = fl z (e - 1).
Proof.
  intros Hz He. apply Prim2SF_inj.
  rewrite FloatAxioms.div_spec, !Prim2SF_fl by (auto; lia).
  change (Prim2SF 2) with (S754_finite false 4503599627370496 (-51)).
  destruct z as [|k|k]; [reflexivity| |];
    cbn [dyadic]; unfold SF64div; cbn [SFdiv xorb];
    (rewrite div_core_two;
     [ replace (e - Z.of_nat (slack k) - 2)%Z
         with (e - 1 - Z.of_nat (slack k) - Z.of_nat 1)%Z by lia;
       apply round_aux_exact; apply dyadic_bounded; [exact Hz | lia]
     | rewrite shiftMantissa_digits; unfold slack;
       pose proof (digits_small k Hz); rewrite Z2Nat.id by (unfold prec; lia);
       unfold prec; lia
     | pose proof (digits_small k Hz) as Hs; unfold slack;
       rewrite Z2Nat.id by (unfold prec; lia); unfold prec; lia ]).
Qed.

(** Whole numbers compare as the integers they are. *)
Lemma leb_zero_fl (n : Z) :
  (0 <= n < 2 ^ 53)%Z -> PrimFloat.leb 0 (fl n 0) = true.
Proof.
  intros Hn. rewrite FloatAxioms.leb_spec, Prim2SF_fl by lia.
  change (Prim2SF 0) with (S754_zero false).
  destruct n; [reflexivity | reflexivity | lia].
Qed.

Lemma digits_monotone (a b : positive) :
  (a < b)%positive -> (Z.pos (digits2_pos a) <= Z.pos (digits2_pos b))%Z.
Proof.
  intros Hab. pose proof (digits_bounds a) as [Ha _].
  pose proof (digits_bounds b) as [_ Hb].
  destruct (Z_le_gt_dec (Z.pos (digits2_pos a)) (Z.pos (digits2_pos b))) as [|Hgt]; [assumption|].
  exfalso.
  assert (2 ^ Z.pos (digits2_pos b) <= 2 ^ (Z.pos (digits2_pos a) - 1))%Z
    by (apply Z.pow_le_mono_r; lia).
  lia.
Qed.

Lemma ltb_fl (a b : Z) :
  (0 <= a < b)%Z -> (b < 2 ^ 53)%Z -> PrimFloat.ltb (fl a 0) (fl b 0) = true.
Proof.
  intros Hab Hb. rewrite FloatAxioms.ltb_spec, !Prim2SF_fl by lia.
  destruct b as [|kb|kb]; try lia.
  destruct a as [|ka|ka]; try lia; [reflexivity|].
  cbn [dyadic]. unfold SFltb. cbn [SFcompare].
  assert (Hlt : (ka < kb)%positive) by lia.
  pose proof (digits_monotone ka kb Hlt) as Hd.
  pose proof (digits_small kb Hb) as Hsb.
  assert (Hsl : slack kb <= slack ka) by (unfold slack, prec; lia).
  destruct (Z.compare_spec (0 - Z.of_nat (slack ka)) (0 - Z.of_nat (slack kb))) as [He|He|He];
    [ | reflexivity | lia ].
  assert (slack ka = slack kb) as -> by lia.
  replace (Pos.compare_cont Eq (shiftMantissa ka (slack kb)) (shiftMantissa kb (slack kb)))
    with Lt; [reflexivity|].
  symmetry. change (Pos.compare_cont Eq ?x ?y) with (Pos.compare x y).
  apply Pos.compare_lt_iff.
  assert (Z.pos (shiftMantissa ka (slack kb)) < Z.pos (shiftMantissa kb (slack kb)))%Z; [|lia].
  rewrite !shiftMantissa_value. apply Z.mul_lt_mono_pos_r; lia.
Qed.

Lemma digits_product (a b : positive) :
  (Z.pos (digits2_pos a) + Z.pos (digits2_pos b) - 1 <= Z.pos (digits2_pos (a * b)))%Z.
Proof.
  pose proof (digits_bounds a) as [Ha _].
  pose proof (digits_bounds b) as [Hb _].
  pose proof (digits_bounds (a * b)) as [_ Hab].
  destruct (Z_le_gt_dec (Z.pos (digits2_pos a) + Z.pos (digits2_pos b) - 1)
              (Z.pos (digits2_pos (a * b)))) as [|Hgt]; [assumption|].
  exfalso.
  assert (H1 : (2 ^ Z.pos (digits2_pos (a * b))
                <= 2 ^ (Z.pos (digits2_pos a) - 1 + (Z.pos (digits2_pos b) - 1)))%Z)
    by (apply Z.pow_le_mono_r; lia).
  rewrite Z.pow_add_r in H1 by lia.
  assert (H2 : (2 ^ (Z.pos (digits2_pos a) - 1) * 2 ^ (Z.pos (digits2_pos b) - 1)
                <= Z.pos a * Z.pos b)%Z) by (apply Z.mul_le_mono_nonneg; lia).
  rewrite Pos2Z.inj_mul in Hab. lia.
Qed.

(** The product of two whole numbers, when it is below [2^53]. *)
Lemma fl_mul_whole (a b : Z) :
  (0 <= a < 2 ^ 53)%Z -> (0 <= b < 2 ^ 53)%Z -> (a * b < 2 ^ 53)%Z ->
  (fl a 0 * fl b 0)%float = fl (a * b) 0.
Proof.
  intros Ha Hb Hab.
  destruct a as [|ka|ka]; try lia.
  { destruct b as [|kb|kb]; try lia.
    - reflexivity.
    - apply Prim2SF_inj. rewrite FloatAxioms.mul_spec, !Prim2SF_fl by (cbn [Z.abs Z.mul]; lia).
      reflexivity. }
  destruct b as [|kb|kb]; try lia.
  { apply Prim2SF_inj. rewrite FloatAxioms.mul_spec, !Prim2SF_fl by (cbn [Z.abs Z.mul]; lia).
    reflexivity. }
  assert (Hka : (Z.pos ka < 2 ^ 53)%Z) by lia.
  assert (Hkb : (Z.pos kb < 2 ^ 53)%Z) by lia.
  apply Prim2SF_inj. rewrite FloatAxioms.mul_spec, !Prim2SF_fl by lia.
  change (Z.pos ka * Z.pos kb)%Z with (Z.pos (ka * kb)) in *.
  cbn [dyadic]. unfold SF64mul. cbn [SFmul xorb].
  pose proof (digits_product ka kb) as Hd.
  pose proof (digits_small ka Hka) as Hda.
  pose proof (digits_small kb Hkb) as Hdb.
  pose proof (digits_small (ka * kb) Hab) as Hdab.
  set (t := slack ka + slack kb - slack (ka * kb)).
  assert (Ht : slack ka + slack kb = slack (ka * kb) + t)
    by (unfold t, slack, prec in *; lia).
  replace (shiftMantissa ka (slack ka) * shiftMantissa kb (slack kb))%positive
    with (shiftMantissa (shiftMantissa (ka * kb) (slack (ka * kb))) t).
  - replace (0 - Z.of_nat (slack ka) + (0 - Z.of_nat (slack kb)))%Z
      with (0 - Z.of_nat (slack (ka * kb)) - Z.of_nat t)%Z by lia.
    apply round_aux_exact. apply dyadic_bounded; [exact Hab|lia].
  - rewrite shiftMantissa_add. symmetry. apply shiftMantissa_unique.
    rewrite Pos2Z.inj_mul, !shiftMantissa_value.
    replace (Z.of_nat (slack (ka * kb) + t))
      with (Z.of_nat (slack ka) + Z.of_nat (slack kb))%Z by lia.
    rewrite Z.pow_add_r by lia. rewrite Pos2Z.inj_mul. ring.
Qed.

End Binary64.

(** * Whole-number coordinates and loops over the pixels *)

Module PixelFacts.
Import MatrixOperations SignalProcessing ArrayLemmas Binary64.

(** Array lengths and loop counters are whole numbers below [2^32]. *)
Lemma of_nat_fl (n : nat) :
  (Z.of_nat n < 2 ^ 53)%Z -> of_nat n = fl (Z.of_nat n) 0.
Proof.
  intros Hn. apply Prim2SF_inj. rewrite Prim2SF_fl by lia.
  cbn [of_nat float_Number]. rewrite of_uint63_spec, Uint63.of_Z_spec.
  rewrite Z.mod_small.
  - apply normalize_dyadic; try lia.
  - split; [lia|]. eapply Z.lt_trans; [exact Hn|]. reflexivity.
Qed.

Lemma float_of_Z_fl (z : Z) : (Z.abs z < 2 ^ 53)%Z -> float_of_Z z = fl z 0.
Proof.
  intros Hz. unfold float_of_Z, fl. f_equal. apply normalize_dyadic; lia.
Qed.

Lemma Math_round_whole (n : Z) :
  (0 <= n < 2 ^ 53)%Z -> Math_round (fl n 0) = fl n 0.
Proof.
  intros Hn. unfold Math_round. rewrite Prim2SF_fl by lia.
  destruct n as [|k|k]; [reflexivity| |lia]. cbn [dyadic].
  destruct (Z.leb_spec 0 (0 - Z.of_nat (slack k))) as [|Hneg]; [reflexivity|].
  rewrite shiftMantissa_value.
  replace (- (0 - Z.of_nat (slack k)))%Z with (Z.of_nat (slack k)) by lia.
  set (d := (2 ^ Z.of_nat (slack k))%Z).
  assert (Hd : (0 < d)%Z) by (apply Z.pow_pos_nonneg; lia).
  replace ((2 * (Z.pos k * d) + d) / (2 * d))%Z with (Z.pos k).
  - cbn [Z.eqb]. apply float_of_Z_fl. lia.
  - apply Z.div_unique with (r := d); [lia|lia].
Qed.

Lemma index_of_whole (n : nat) :
  (Z.of_nat n < 2 ^ 53)%Z -> index_of (fl (Z.of_nat n) 0) = Some n.
Proof.
  intros Hn. unfold index_of. rewrite Prim2SF_fl by lia.
  destruct (Z.of_nat n) as [|k|k] eqn:Hk; cbn [dyadic].
  - f_equal. lia.
  - rewrite shiftMantissa_value.
    set (d := (2 ^ Z.of_nat (slack k))%Z).
    assert (Hd : (0 < d)%Z) by (apply Z.pow_pos_nonneg; lia).
    destruct (Z.leb_spec 0 (0 - Z.of_nat (slack k))) as [Hz|Hneg].
    + assert (Hs : slack k = 0) by lia. subst d. rewrite Hs.
      change (0 - Z.of_nat 0)%Z with 0%Z. f_equal. lia.
    + replace (- (0 - Z.of_nat (slack k)))%Z with (Z.of_nat (slack k)) by lia.
      fold d. rewrite Z.mod_mul by lia. cbn [Z.eqb].
      rewrite Z.div_mul by lia. f_equal. lia.
  - lia.
Qed.


(** The centre [n / 2] of [n] pixels is a half of a whole number. *)
Lemma centre_fl (n : nat) :
  (Z.of_nat n < 2 ^ 32)%Z -> (of_nat n / 2)%float = fl (Z.of_nat n) (-1).
Proof.
  intros Hn. rewrite of_nat_fl by lia. rewrite fl_half by lia. reflexivity.
Qed.

Lemma whole_as_halves (x : nat) :
  (Z.of_nat x < 2 ^ 32)%Z -> of_nat x = fl (2 * Z.of_nat x) (-1).
Proof.
  intros Hx. rewrite of_nat_fl by lia.
  replace (2 * Z.of_nat x)%Z with (Z.of_nat x * 2 ^ 1)%Z by lia.
  change (-1)%Z with (0 - 1)%Z. symmetry. apply fl_scale; lia.
Qed.

(** The offset of pixel [x] from the centre. *)
Lemma offset_fl (x n : nat) :
  (Z.of_nat x < 2 ^ 32)%Z -> (Z.of_nat n < 2 ^ 32)%Z ->
  (of_nat x - of_nat n / 2)%float = fl (2 * Z.of_nat x - Z.of_nat n) (-1).
Proof.
  intros Hx Hn. rewrite centre_fl, whole_as_halves by lia.
  apply fl_sub; lia.
Qed.

(** Adding the centre to the offset gives the pixel back. *)
Lemma offset_plus_centre (x n : nat) :
  (Z.of_nat x < 2 ^ 32)%Z -> (Z.of_nat n < 2 ^ 32)%Z ->
  (fl (2 * Z.of_nat x - Z.of_nat n) (-1) + of_nat n / 2)%float = of_nat x.
Proof.
  intros Hx Hn. rewrite centre_fl by lia. rewrite fl_add by lia.
  rewrite (whole_as_halves x) by lia. f_equal. lia.
Qed.

(** The source coordinates of the destination pixel [(x, y)] when the
    cosine is 1 and the sine is 0. *)
Lemma source_x (x y cols rows : nat) :
  (Z.of_nat x < 2 ^ 32)%Z -> (Z.of_nat y < 2 ^ 32)%Z ->
  (Z.of_nat cols < 2 ^ 32)%Z -> (Z.of_nat rows < 2 ^ 32)%Z ->
  (1 * (of_nat x - of_nat cols / 2) + 0 * (of_nat y - of_nat rows / 2)
   + of_nat cols / 2)%float = of_nat x.
Proof.
  intros Hx Hy Hc Hr. rewrite mul_one_l, !offset_fl by lia.
  assert (Hz : isZero (0 * fl (2 * Z.of_nat y - Z.of_nat rows) (-1))%float)
    by (apply zero_mul_fl; [now left|lia|lia]).
  destruct (fl_add_zero _ (2 * Z.of_nat x - Z.of_nat cols) (-1) Hz) as [-> _]; try lia.
  apply offset_plus_centre; lia.
Qed.

Lemma source_y (x y cols rows : nat) :
  (Z.of_nat x < 2 ^ 32)%Z -> (Z.of_nat y < 2 ^ 32)%Z ->
  (Z.of_nat cols < 2 ^ 32)%Z -> (Z.of_nat rows < 2 ^ 32)%Z ->
  (- 0 * (of_nat x - of_nat cols / 2) + 1 * (of_nat y - of_nat rows / 2)
   + of_nat rows / 2)%float = of_nat y.
Proof.
  intros Hx Hy Hc Hr. rewrite mul_one_l, !offset_fl by lia.
  assert (Hz : isZero (- 0 * fl (2 * Z.of_nat x - Z.of_nat cols) (-1))%float)
    by (apply zero_mul_fl; [now right|lia|lia]).
  destruct (fl_add_zero _ (2 * Z.of_nat y - Z.of_nat rows) (-1) Hz) as [_ ->]; try lia.
  apply offset_plus_centre; lia.
Qed.

Lemma whole_in_range (x n : nat) :
  x < n -> (Z.of_nat n < 2 ^ 32)%Z ->
  PrimFloat.leb 0 (Math_round (of_nat x)) = true /\
  PrimFloat.ltb (Math_round (of_nat x)) (of_nat n) = true /\
  index_of (Math_round (of_nat x)) = Some x.
Proof.
  intros Hx Hn. rewrite !of_nat_fl by lia. rewrite Math_round_whole by lia.
  repeat split.
  - apply leb_zero_fl. lia.
  - apply ltb_fl; lia.
  - apply index_of_whole. lia.
Qed.

(** A double loop that writes [f y x] at every position. *)
Lemma fill_row (rows cols y : nat) (f : nat -> float) (M : matrix float) :
  shaped rows cols M -> y < rows ->
  let R := for_range 0 cols (fun x result => set2 result y x (f x)) M in
  shaped rows cols R /\
  forall i j, i < rows -> j < cols ->
    get2 R i j = if i =? y then f j else get2 M i j.
Proof.
  intros HM Hy. cbv zeta.
  loop_invariant (fun k R => shaped rows cols R /\
              forall i j, i < rows -> j < cols ->
                get2 R i j = if (i =? y) && (j <? k) then f j else get2 M i j).
  - lia.
  - split; [assumption|]. intros i j _ _. now rewrite andb_false_r.
  - intros k R Hk [HR Hget]. split.
    + apply shaped_set2; [assumption|lia|lia].
    + intros i j Hi Hj. rewrite (get2_set2_shaped rows cols) by (assumption || lia).
      rewrite Hget by assumption.
      destruct (Nat.eqb_spec i y) as [->|Hiy]; cbn [andb]; [|reflexivity].
      destruct (Nat.eqb_spec j k) as [->|Hjk].
      * replace (k <? k + 1) with true by (symmetry; apply Nat.ltb_lt; lia).
        reflexivity.
      * destruct (Nat.ltb_spec j k), (Nat.ltb_spec j (k + 1)); try lia; reflexivity.
  - destruct Hinv as [HR Hget]. split; [assumption|].
    intros i j Hi Hj. rewrite Hget by assumption.
    replace (j <? cols) with true by (symmetry; apply Nat.ltb_lt; lia).
    now rewrite andb_true_r.
Qed.

Lemma fill_image (rows cols : nat) (f : nat -> nat -> float) (M : matrix float) :
  shaped rows cols M ->
  let R := for_range 0 rows (fun y result =>
             for_range 0 cols (fun x result => set2 result y x (f y x)) result) M in
  shaped rows cols R /\
  forall i j, i < rows -> j < cols -> get2 R i j = f i j.
Proof.
  intros HM. cbv zeta.
  loop_invariant (fun k R => shaped rows cols R /\
              forall i j, i < rows -> j < cols ->
                get2 R i j = if i <? k then f i j else get2 M i j).
  - lia.
  - split; [assumption|]. intros i j _ _. reflexivity.
  - intros k R Hk [HR Hget].
    destruct (fill_row rows cols k (f k) R HR) as [HR' Hget']; [lia|].
    split; [assumption|].
    intros i j Hi Hj. rewrite Hget', Hget by assumption.
    destruct (Nat.eqb_spec i k) as [->|Hik].
    + replace (k <? k + 1) with true by (symmetry; apply Nat.ltb_lt; lia).
      reflexivity.
    + destruct (Nat.ltb_spec i k), (Nat.ltb_spec i (k + 1)); try lia; reflexivity.
  - destruct Hinv as [HR Hget]. split; [assumption|].
    intros i j Hi Hj. rewrite Hget by assumption.
    now replace (i <? rows) with true by (symmetry; apply Nat.ltb_lt; lia).
Qed.

End PixelFacts.

(** * histogramEqualization on an image of one level *)

Module HistogramFacts.
Import MatrixOperations SignalProcessing ArrayLemmas Binary64 PixelFacts.

(** The histogram of [n] pixels of level [k]. *)
Definition counted (k n : nat) : list float :=
  set (repeat 0%float 256) k (fl (Z.of_nat n) 0).

Lemma counted_zero (k : nat) : k < 256 -> counted k 0 = repeat 0%float 256.
Proof.
  intros Hk. unfold counted. change (fl (Z.of_nat 0) 0) with 0%float.
  rewrite <- (get_repeat 0%float 256 k Hk) at 2.
  apply set_get_same. now rewrite repeat_length.
Qed.

Lemma counted_length (k n : nat) : k < 256 -> length (counted k n) = 256.
Proof.
  intros Hk. unfold counted. rewrite set_length; now rewrite repeat_length.
Qed.

Lemma counted_entries (k n i : nat) :
  k < 256 -> i < 256 ->
  get (counted k n) i = if i =? k then fl (Z.of_nat n) 0 else 0%float.
Proof.
  intros Hk Hi. unfold counted. rewrite get_set by now rewrite repeat_length.
  destruct (i =? k); [reflexivity|]. now apply get_repeat.
Qed.

Lemma counted_succ (k n : nat) :
  k < 256 -> (Z.of_nat (n + 1) < 2 ^ 53)%Z ->
  set (counted k n) k (get (counted k n) k + 1)%float = counted k (n + 1).
Proof.
  intros Hk Hn. rewrite counted_entries, Nat.eqb_refl by assumption.
  unfold counted. rewrite set_twice by now rewrite repeat_length.
  f_equal. change 1%float with (fl 1 0). rewrite fl_add by lia.
  f_equal. lia.
Qed.

Lemma level_index (k : nat) : k < 256 -> index_of (of_nat k) = Some k.
Proof.
  intros Hk. rewrite of_nat_fl by lia. apply index_of_whole. lia.
Qed.

Section ConstantLevel.
Variables (img : image) (rows cols k : nat).
Hypothesis level : k < 256.
Hypothesis size : (Z.of_nat (rows * cols) < 2 ^ 53)%Z.
Hypothesis constant :
  forall i j, i < rows -> j < cols -> clampPixel (get2 img i j) = of_nat k.

Lemma computeHistogram_constant :
  computeHistogram img rows cols = counted k (rows * cols).
Proof.
  unfold computeHistogram.
  loop_invariant (fun i h => h = counted k (i * cols)).
  - lia.
  - symmetry. now apply counted_zero.
  - intros i h Hi ->.
    loop_invariant (fun j h => h = counted k (i * cols + j)).
    + lia.
    + f_equal. lia.
    + intros j h Hj ->. rewrite constant by lia.
      unfold setAt, getAt. rewrite level_index by assumption.
      rewrite counted_succ; [f_equal; lia|assumption|nia].
    + rewrite Hinv. f_equal. lia.
  - exact Hinv.
Qed.

Hypothesis nonempty : 1 <= rows * cols.

Lemma computeCdf_constant :
  length (computeCdf (counted k (rows * cols))) = 256 /\
  forall j, j < 256 ->
    get (computeCdf (counted k (rows * cols))) j
    = if j <? k then 0%float else fl (Z.of_nat (rows * cols)) 0.
Proof.
  unfold computeCdf.
  loop_invariant (fun i cdf => length cdf = 256 /\
      forall j, j < i ->
        get cdf j = if j <? k then 0%float else fl (Z.of_nat (rows * cols)) 0).
  - lia.
  - split; [rewrite set_length; rewrite repeat_length; lia|].
    intros j Hj. assert (j = 0) by lia. subst j.
    rewrite get_set_same by (rewrite repeat_length; lia).
    rewrite counted_entries by lia.
    destruct k; reflexivity.
  - intros i cdf Hi [Hlen Hget]. split; [rewrite set_length; lia|].
    intros j Hj. rewrite get_set by lia.
    destruct (Nat.eqb_spec j i) as [->|Hne]; [|apply Hget; lia].
    rewrite Hget by lia. rewrite counted_entries by lia.
    destruct (fl_add_zero 0%float (Z.of_nat (rows * cols)) 0) as [Hr Hl];
      [now left|lia|lia|].
    destruct (Nat.ltb_spec (i - 1) k), (Nat.ltb_spec i k), (Nat.eqb_spec i k);
      try lia; try reflexivity; assumption.
  - destruct Hinv as [Hlen Hget]. split; [assumption|]. exact Hget.
Qed.


Lemma find_first {A : Type} (f : A -> bool) (l : list A) (n : nat) (d : A) :
  n < length l ->
  (forall j, j < n -> f (nth j l d) = false) ->
  f (nth n l d) = true ->
  find f l = Some (nth n l d).
Proof.
  revert n. induction l as [|a l IH]; intros n Hn Hbefore Hat; [simpl in Hn; lia|].
  destruct n as [|n]; cbn [find nth] in *.
  - now rewrite Hat.
  - rewrite (Hbefore 0) by lia. apply IH; [simpl in Hn; lia| |assumption].
    intros j Hj. apply (Hbefore (S j)). lia.
Qed.

(** What the rest of the computation uses of the CDF: its entries are 0
    below level [k] and the number [N] of pixels from [k] on. *)
Definition stepAt (k : nat) (N : Z) (cdf : list float) : Prop :=
  length cdf = 256 /\
  forall j, j < 256 -> get cdf j = if j <? k then 0%float else fl N 0.

Lemma findCdfMin_step (cdf : list float) (N : Z) :
  (1 <= N < 2 ^ 53)%Z -> stepAt k N cdf -> findCdfMin cdf = fl N 0.
Proof.
  intros HN [Hlen Hget].
  assert (Hk : get cdf k = fl N 0).
  { rewrite Hget by assumption.
    now replace (k <? k) with false by (symmetry; apply Nat.ltb_ge; lia). }
  unfold findCdfMin. rewrite firstn_all2 by lia.
  rewrite (find_first _ _ k undef).
  - exact Hk.
  - lia.
  - intros j Hj. fold (get cdf j). rewrite Hget by lia.
    now replace (j <? k) with true by (symmetry; apply Nat.ltb_lt; lia).
  - fold (get cdf k). rewrite Hk.
    change (PrimFloat.ltb (fl 0 0) (fl N 0) = true).
    apply ltb_fl; lia.
Qed.

(** The pixels' entry of the lookup table is [Math.round(0 * 255 / 0)]. *)
Lemma lookup_step (cdf : list float) (N : Z) :
  (1 <= N < 2 ^ 53)%Z -> stepAt k N cdf ->
  get (for_range 0 256 (fun i lookup =>
         set lookup i
           (Math_round ((get cdf i - findCdfMin cdf) * 255
                        / (fl N 0 - findCdfMin cdf))%float))
         (repeat 0%float 256)) k = nan.
Proof.
  intros HN Hstep. rewrite (findCdfMin_step cdf N HN Hstep).
  destruct Hstep as [_ Hget]. specialize (Hget k level).
  replace (k <? k) with false in Hget by (symmetry; apply Nat.ltb_ge; lia).
  destruct (for_range_pointwise 256
              (fun i _ => Math_round ((get cdf i - fl N 0) * 255
                                      / (fl N 0 - fl N 0))%float)
              (repeat 0%float 256)) as [_ Hlookup].
  { rewrite repeat_length. apply Nat.le_refl. }
  cbv beta in Hlookup. rewrite Hlookup.
  replace (k <? 256) with true by (symmetry; apply Nat.ltb_lt; exact level).
  rewrite Hget. rewrite fl_sub by lia. rewrite Z.sub_diag. reflexivity.
Qed.

Hypothesis rectangular : shaped rows cols img.

(** Every pixel of the equalized image is NaN. *)
Lemma histogramEqualization_constant :
  exists out,
    histogramEqualization img = Ok out /\
    shaped rows cols out /\
    forall i j, i < rows -> j < cols -> get2 out i j = nan.
Proof.
  assert (Hrows : 1 <= rows).
  { pose proof nonempty as Hne. destruct (Nat.eq_dec rows 0) as [E|]; [|lia].
    rewrite E in Hne. simpl in Hne. lia. }
  destruct rectangular as [Hlen Hrow].
  assert (Hfirst : firstRowLength img = Ok cols).
  { destruct img as [|r0 img']; cbn [length] in Hlen; [lia|].
    cbn [firstRowLength]. f_equal. apply (Hrow 0). lia. }
  unfold histogramEqualization. rewrite Hfirst. cbn [bind]. rewrite Hlen.
  rewrite computeHistogram_constant.
  assert (Htotal : (of_nat rows * of_nat cols)%float = fl (Z.of_nat (rows * cols)) 0).
  { assert (Hcols : 1 <= cols).
    { pose proof nonempty as Hne. destruct (Nat.eq_dec cols 0) as [E|]; [|lia].
      rewrite E, Nat.mul_0_r in Hne. lia. }
    assert (HR : rows <= rows * cols) by nia.
    assert (HC : cols <= rows * cols) by nia.
    pose proof size as Hsize.
    rewrite !of_nat_fl by lia.
    rewrite fl_mul_whole by (rewrite <- ?Nat2Z.inj_mul; lia).
    f_equal. lia. }
  rewrite Htotal.
  pose proof computeCdf_constant as Hstep. fold (stepAt k (Z.of_nat (rows * cols))
    (computeCdf (counted k (rows * cols)))) in Hstep.
  revert Hstep. generalize (computeCdf (counted k (rows * cols))). intros cdf Hstep.
  pose proof (lookup_step cdf (Z.of_nat (rows * cols)) ltac:(lia) Hstep) as Hlookup.
  revert Hlookup.
  match goal with
  | |- get ?l k = nan -> _ => generalize l
  end.
  intros lookup Hlookup.
  eexists. split; [reflexivity|].
  match goal with
  | |- context [for_range 0 rows ?body ?s] =>
      rewrite (for_range_ext 0 rows body
                 (fun i result => for_range 0 cols
                    (fun j result => set2 result i j nan) result))
  end.
  - apply (fill_image rows cols (fun _ _ => nan)). apply shaped_zeros.
  - intros i result Hi. apply for_range_ext. intros j result' Hj.
    rewrite constant by lia. unfold getAt. rewrite level_index by assumption.
    now rewrite Hlookup.
Qed.

End ConstantLevel.
End HistogramFacts.

(** * Laws of the arithmetic of doubles *)

Module DoubleFacts.
Import Binary64.

Lemma add_comm (x y : float) : (x + y)%float = (y + x)%float.
Proof.
  apply Prim2SF_inj. rewrite !FloatAxioms.add_spec. unfold SF64add, SFadd.
  destruct (Prim2SF x) as [sx|sx| |sx mx ex], (Prim2SF y) as [sy|sy| |sy my ey];
    try reflexivity.
  - destruct sx, sy; reflexivity.
  - destruct sx, sy; reflexivity.
  - now rewrite Z.min_comm, Z.add_comm.
Qed.

Lemma mul_one_r (x : float) : (x * 1)%float = x.
Proof. rewrite FloatFacts.mul_comm. apply mul_one_l. Qed.

(** The doubles that are numbers: zeros and finite values. *)
Definition finite (x : float) : Prop :=
  match Prim2SF x with
  | S754_zero _ | S754_finite _ _ _ => True
  | _ => False
  end.

Lemma zero_mul (z x : float) :
  isZero z -> finite x -> isZero (z * x)%float /\ isZero (x * z)%float.
Proof.
  intros Hz Hx.
  assert (H : isZero (z * x)%float).
  { assert (Hsf : exists s, Prim2SF (z * x)%float = S754_zero s).
    { rewrite FloatAxioms.mul_spec. unfold finite in Hx.
      destruct Hz as [-> | ->];
        [change (Prim2SF 0) with (S754_zero false)
        |change (Prim2SF (-0)) with (S754_zero true)];
        destruct (Prim2SF x) as [s|s| |s m e]; try contradiction;
        unfold SF64mul; cbn [SFmul]; eauto. }
    destruct Hsf as [[|] Hs]; [right|left]; apply Prim2SF_inj; rewrite Hs; reflexivity. }
  split; [exact H|]. now rewrite FloatFacts.mul_comm.
Qed.

(** Adding a zero changes no double other than -0. *)
Lemma add_zero (z x : float) :
  isZero z -> x <> (-0)%float -> (x + z)%float = x /\ (z + x)%float = x.
Proof.
  intros Hz Hx.
  assert (H : (z + x)%float = x).
  { apply Prim2SF_inj. rewrite FloatAxioms.add_spec.
    assert (Hsx : Prim2SF x <> S754_zero true).
    { intros E. apply Hx. apply Prim2SF_inj. rewrite E. reflexivity. }
    destruct Hz as [-> | ->];
      [change (Prim2SF 0) with (S754_zero false)
      |change (Prim2SF (-0)) with (S754_zero true)];
      destruct (Prim2SF x) as [[|]|s| |s m e]; try reflexivity; congruence. }
  split; [|exact H]. now rewrite add_comm.
Qed.

Lemma zero_plus_zero (z : float) : isZero z -> (0 + z)%float = 0%float.
Proof. intros [-> | ->]; reflexivity. Qed.

(** Division by 1 is exact. *)
Lemma div_core_one (m : positive) (e : Z) :
  bounded prec emax m e = true ->
  exists t : nat,
    SFdiv_core_binary prec emax (Z.pos m) e 4503599627370496 (-52)
    = (Z.pos (shiftMantissa m t), (e - Z.of_nat t)%Z, loc_Exact).
Proof.
  intros Hb. destruct (bounded_fexp m e Hb) as [Hfexp _].
  unfold SFdiv_core_binary. cbn [Zdigits2].
  change (Z.pos (digits2_pos 4503599627370496)) with 53%Z.
  set (d := Z.pos (digits2_pos m)) in *.
  assert (Hq : forall a, Z.div_eucl (a * 4503599627370496) 4503599627370496 = (a, 0%Z)).
  { intros a.
    assert (H : Z.div_eucl (a * 4503599627370496) 4503599627370496
                = ((a * 4503599627370496) / 4503599627370496,
                   (a * 4503599627370496) mod 4503599627370496)%Z).
    { unfold Z.div, Z.modulo. now destruct Z.div_eucl. }
    rewrite H, Z.div_mul, Z.mod_mul by lia. reflexivity. }
  unfold fexp, emin, emax, prec in *.
  destruct (Z_le_gt_dec (-1074) (d + e - 54)) as [Hnormal|Hmin].
  - exists 1.
    replace (Z.min (Z.max (d + e - (53 + -52) - 53) (3 - 1024 - 53)) (e - -52))
      with (e - 1)%Z by lia.
    replace (e - -52 - (e - 1))%Z with 53%Z by lia.
    rewrite Z.shiftl_mul_pow2 by lia.
    replace (Z.pos m * 2 ^ 53)%Z with ((2 * Z.pos m) * 4503599627370496)%Z
      by (change (2 ^ 53)%Z with (2 * 4503599627370496)%Z; lia).
    rewrite Hq. reflexivity.
  - exists 0.
    replace (Z.min (Z.max (d + e - (53 + -52) - 53) (3 - 1024 - 53)) (e - -52))
      with e by lia.
    replace (e - -52 - e)%Z with 52%Z by lia.
    rewrite Z.shiftl_mul_pow2 by lia.
    change (2 ^ 52)%Z with 4503599627370496%Z.
    rewrite Hq. cbn [shiftMantissa Nat.iter]. now rewrite Z.sub_0_r.
Qed.

Lemma div_one (x : float) : (x / 1)%float = x.
Proof.
  apply Prim2SF_inj. rewrite FloatAxioms.div_spec.
  change (Prim2SF 1) with (S754_finite false 4503599627370496 (-52)).
  pose proof (Prim2SF_valid x) as Hv.
  destruct (Prim2SF x) as [[|]|[|]| |s m e]; try reflexivity.
  unfold SF64div. cbn [SFdiv]. rewrite xorb_false_r.
  cbn [valid_binary] in Hv.
  destruct (div_core_one m e Hv) as [t ->].
  now apply round_aux_exact.
Qed.

End DoubleFacts.

(** * matrixTranspose and matrixScalarMultiply *)

Module TransposeFacts.
Import MatrixOperations ArrayLemmas.
Section Generic.
Context {T : Type} `{Number T}.

(** A double loop that writes [f i j] at the mirrored position [(j, i)]. *)
Lemma fill_mirrored_row (rows cols i : nat) (f : nat -> T) (M : matrix T) :
  shaped cols rows M -> i < rows ->
  let R := for_range 0 cols (fun j result => set2 result j i (f j)) M in
  shaped cols rows R /\
  forall a b, a < cols -> b < rows ->
    get2 R a b = if b =? i then f a else get2 M a b.
Proof.
  intros HM Hi. cbv zeta.
  loop_invariant (fun k R => shaped cols rows R /\
      forall a b, a < cols -> b < rows ->
        get2 R a b = if (b =? i) && (a <? k) then f a else get2 M a b).
  - lia.
  - split; [assumption|]. intros a b _ _. now rewrite andb_false_r.
  - intros k R Hk [HR Hget]. split.
    + apply shaped_set2; [assumption|lia|lia].
    + intros a b Ha Hb. rewrite (get2_set2_shaped cols rows) by (assumption || lia).
      rewrite Hget by assumption.
      destruct (Nat.eqb_spec b i) as [->|Hbi]; cbn [andb];
        [|now rewrite andb_false_r].
      rewrite andb_true_r.
      destruct (Nat.eqb_spec a k) as [->|Hak].
      * replace (k <? k + 1) with true by (symmetry; apply Nat.ltb_lt; lia).
        reflexivity.
      * destruct (Nat.ltb_spec a k), (Nat.ltb_spec a (k + 1)); try lia; reflexivity.
  - destruct Hinv as [HR Hget]. split; [assumption|].
    intros a b Ha Hb. rewrite Hget by assumption.
    replace (a <? cols) with true by (symmetry; apply Nat.ltb_lt; lia).
    now rewrite andb_true_r.
Qed.

Lemma fill_mirrored (rows cols : nat) (f : nat -> nat -> T) (M : matrix T) :
  shaped cols rows M ->
  let R := for_range 0 rows (fun i result =>
             for_range 0 cols (fun j result => set2 result j i (f i j)) result) M in
  shaped cols rows R /\
  forall a b, a < cols -> b < rows -> get2 R a b = f b a.
Proof.
  intros HM. cbv zeta.
  loop_invariant (fun k R => shaped cols rows R /\
      forall a b, a < cols -> b < rows ->
        get2 R a b = if b <? k then f b a else get2 M a b).
  - lia.
  - split; [assumption|]. intros a b _ _. reflexivity.
  - intros k R Hk [HR Hget].
    destruct (fill_mirrored_row rows cols k (f k) R HR) as [HR' Hget']; [lia|].
    split; [assumption|].
    intros a b Ha Hb. rewrite Hget', Hget by assumption.
    destruct (Nat.eqb_spec b k) as [->|Hbk].
    + replace (k <? k + 1) with true by (symmetry; apply Nat.ltb_lt; lia).
      reflexivity.
    + destruct (Nat.ltb_spec b k), (Nat.ltb_spec b (k + 1)); try lia; reflexivity.
  - destruct Hinv as [HR Hget]. split; [assumption|].
    intros a b Ha Hb. rewrite Hget by assumption.
    now replace (b <? rows) with true by (symmetry; apply Nat.ltb_lt; lia).
Qed.

Lemma first_row_length (r c : nat) (m0 : list T) (m : matrix T) :
  shaped r c (m0 :: m) -> length m0 = c /\ r = Datatypes.S (length m).
Proof.
  intros [Hlen Hrow]. cbn [length] in Hlen. split; [|lia].
  apply (Hrow 0). lia.
Qed.

(** The transpose of an [r x c] matrix with a row is the [c x r] matrix of
    the mirrored entries. *)
Lemma matrixTranspose_spec (r c : nat) (m : matrix T) :
  shaped r c m -> 1 <= r ->
  exists t,
    matrixTranspose m = Ok t /\
    shaped c r t /\
    forall i j, i < r -> j < c -> get2 t j i = get2 m i j.
Proof.
  intros Hm Hr. unfold matrixTranspose.
  destruct m as [|m0 m']; [destruct Hm as [Hlen _]; simpl in Hlen; lia|].
  destruct (first_row_length r c m0 m' Hm) as [Hc Hlen].
  assert (Hrows : length (m0 :: m') = r) by (cbn [length]; lia).
  rewrite Hrows, Hc.
  destruct (fill_mirrored r c (get2 (m0 :: m')) (zeros c r)) as [Hshape Hget].
  { apply shaped_zeros. }
  eexists. split; [reflexivity|]. split; [exact Hshape|].
  intros i j Hi Hj. now apply Hget.
Qed.

Lemma shaped_no_rows (c : nat) (m : matrix T) : shaped 0 c m -> m = [].
Proof. intros [Hlen _]. now destruct m. Qed.

Lemma matrixTranspose_involutive (r c : nat) (m : matrix T) :
  shaped r c m -> 1 <= r -> 1 <= c ->
  (t <- matrixTranspose m ;; matrixTranspose t) = Ok m.
Proof.
  intros Hm Hr Hc.
  destruct (matrixTranspose_spec r c m Hm Hr) as (t & -> & Ht & Hentries).
  cbn [bind].
  destruct (matrixTranspose_spec c r t Ht Hc) as (u & -> & Hu & Hentries').
  f_equal. apply (shaped_ext r c); [assumption|assumption|].
  intros i j Hi Hj. rewrite Hentries' by assumption. now apply Hentries.
Qed.

Lemma matrixTranspose_no_columns (r : nat) (m : matrix T) :
  shaped r 0 m -> 1 <= r ->
  matrixTranspose m = Ok [] /\
  (t <- matrixTranspose m ;; matrixTranspose t) = Throw TypeError.
Proof.
  intros Hm Hr.
  destruct (matrixTranspose_spec r 0 m Hm Hr) as (t & Ht & Hshape & _).
  apply shaped_no_rows in Hshape. subst t. rewrite Ht. split; reflexivity.
Qed.

(** Scaling the entries commutes with transposition. *)
Lemma scaled_shape (r c : nat) (m : matrix T) (s : T) :
  shaped r c m ->
  shaped r c (matrixScalarMultiply m s) /\
  forall i j, i < r -> j < c ->
    get2 (matrixScalarMultiply m s) i j = mul (get2 m i j) s.
Proof.
  intros [Hlen Hrow]. unfold matrixScalarMultiply.
  assert (Hr : forall i, i < r ->
            row (map (map (fun val => mul val s)) m) i
            = map (fun val => mul val s) (row m i)).
  { intros i Hi. unfold row.
    rewrite (nth_indep _ [] (map (fun val => mul val s) []))
      by (rewrite length_map; lia).
    apply map_nth. }
  split; [split|].
  - now rewrite length_map.
  - intros i Hi. rewrite Hr by assumption. rewrite length_map. now apply Hrow.
  - intros i j Hi Hj. unfold get2. rewrite Hr by assumption. unfold get.
    rewrite (nth_indep _ undef (mul undef s))
      by (rewrite length_map, Hrow; assumption).
    apply (map_nth (fun val => mul val s)).
Qed.

Lemma transpose_scaled (r c : nat) (m : matrix T) (s : T) :
  shaped r c m -> 1 <= r ->
  matrixTranspose (matrixScalarMultiply m s)
  = (t <- matrixTranspose m ;; Ok (matrixScalarMultiply t s)).
Proof.
  intros Hm Hr.
  destruct (scaled_shape r c m s Hm) as [Hsm Hsentries].
  destruct (matrixTranspose_spec r c m Hm Hr) as (t & -> & Ht & Hentries).
  destruct (matrixTranspose_spec r c _ Hsm Hr) as (u & -> & Hu & Hentries').
  cbn [bind]. f_equal.
  destruct (scaled_shape c r t s Ht) as [Hst Hstentries].
  apply (shaped_ext c r); [assumption|assumption|].
  intros j i Hj Hi. rewrite Hentries', Hsentries, Hstentries by assumption.
  now rewrite Hentries.
Qed.

End Generic.
End TransposeFacts.

(** * dotProduct, matrixAdd and the vector functions *)

Module VectorFacts.
Import MatrixOperations ArrayLemmas Binary64 DoubleFacts.

Section Maps.
Context {A B : Type}.

(** A [map] whose callback does not throw. *)
Lemma mapi_try_from_ok (f : A -> nat -> result B) (g : A -> nat -> B) (k : nat)
    (l : list A) (d : A) :
  (forall i, i < length l -> f (nth i l d) (k + i) = Ok (g (nth i l d) (k + i))) ->
  mapi_try_from f k l = Ok (mapi_from g k l).
Proof.
  revert k. induction l as [|x l IH]; intros k Hf; [reflexivity|].
  cbn [mapi_try_from mapi_from].
  pose proof (Hf 0 ltac:(simpl; lia)) as H0. cbn [nth] in H0.
  rewrite Nat.add_0_r in H0. rewrite H0. cbn [bind].
  rewrite IH; [reflexivity|].
  intros i Hi. specialize (Hf (Datatypes.S i) ltac:(simpl; lia)). cbn [nth] in Hf.
  now replace (Datatypes.S k + i) with (k + Datatypes.S i) by lia.
Qed.

(** A [map] one of whose callbacks throws. *)
Lemma mapi_try_from_throws (f : A -> nat -> result B) (k : nat) (l : list A) (e : exn) :
  mapi_try_from f k l = Throw e ->
  exists i x, nth_error l i = Some x /\ f x (k + i) = Throw e.
Proof.
  revert k. induction l as [|x l IH]; intros k; cbn [mapi_try_from]; [discriminate|].
  destruct (f x k) as [y|e'] eqn:Hx; cbn [bind].
  - destruct (mapi_try_from f (Datatypes.S k) l) as [ys|e''] eqn:Hrest; cbn [bind];
      [discriminate|].
    intros Heq. inversion Heq. subst e''.
    destruct (IH _ Hrest) as (i & x' & Hnth & Hthrow).
    exists (Datatypes.S i), x'. split; [exact Hnth|].
    now replace (k + Datatypes.S i) with (Datatypes.S k + i) by lia.
  - intros Heq. inversion Heq. subst e'. exists 0, x. split; [reflexivity|].
    now rewrite Nat.add_0_r.
Qed.
End Maps.

Section Generic.
Context {T : Type} `{Number T}.

Lemma dotProduct_throws (a b : list T) (e : exn) :
  dotProduct a b = Throw e <-> e = LengthMismatch /\ length a <> length b.
Proof.
  unfold dotProduct. destruct (Nat.eqb_spec (length a) (length b)) as [Heq|Hne];
    cbn [negb].
  - split; [discriminate|]. intros [_ Hne]. contradiction.
  - split; [intros Hx; inversion Hx; auto|intros [-> _]; reflexivity].
Qed.

Lemma dotProduct_symmetric (a b : list T) :
  (forall x y : T, mul x y = mul y x) -> dotProduct a b = dotProduct b a.
Proof.
  intros Hcomm. unfold dotProduct. rewrite (Nat.eqb_sym (length b)).
  destruct (Nat.eqb_spec (length a) (length b)) as [Heq|Hne]; cbn [negb];
    [|reflexivity].
  rewrite Heq. f_equal. apply for_range_ext. intros i t _. now rewrite Hcomm.
Qed.

(** The sum of two matrices of one shape, entry by entry. *)
Definition addEntries (A B : matrix T) : matrix T :=
  mapi (fun row i => mapi (fun val j => add val (get2 B i j)) row) A.

Lemma matrixAdd_returns (A B : matrix T) :
  1 <= length A -> length A <= length B ->
  matrixAdd A B = Ok (addEntries A B).
Proof.
  intros HA HB. unfold matrixAdd, addEntries, mapi_try, mapi.
  destruct A as [|A0 A']; [simpl in HA; lia|].
  apply (mapi_try_from_ok _ _ 0 _ []).
  intros i Hi. cbn [Nat.add].
  apply (mapi_try_from_ok _ _ 0 _ undef). intros j Hj.
  replace (i <? length B) with true by (symmetry; apply Nat.ltb_lt; lia).
  reflexivity.
Qed.

Lemma addEntries_spec (r c : nat) (A B : matrix T) :
  shaped r c A ->
  shaped r c (addEntries A B) /\
  forall i j, i < r -> j < c ->
    get2 (addEntries A B) i j = add (get2 A i j) (get2 B i j).
Proof.
  intros [Hlen Hrow]. unfold addEntries, mapi.
  assert (Hr : forall i, i < r ->
            row (mapi_from (fun row i => mapi_from (fun val j => add val (get2 B i j)) 0 row) 0 A) i
            = mapi_from (fun val j => add val (get2 B i j)) 0 (row A i)).
  { intros i Hi. unfold row. rewrite (nth_mapi_from _ 0 i A []) by lia. reflexivity. }
  split; [split|].
  - now rewrite mapi_from_length.
  - intros i Hi. rewrite Hr by assumption. rewrite mapi_from_length. now apply Hrow.
  - intros i j Hi Hj. unfold get2 at 1. rewrite Hr by assumption. unfold get at 1.
    rewrite (nth_mapi_from _ 0 j (row A i) undef) by (rewrite Hrow; assumption).
    reflexivity.
Qed.

(** The rows of the sum have the lengths of the rows of [A], whatever the
    rows of [B] are. *)
Lemma addEntries_rows (A B : matrix T) :
  length (addEntries A B) = length A /\
  forall i, i < length A ->
    length (row (addEntries A B) i) = length (row A i) /\
    forall j, j < length (row A i) ->
      get2 (addEntries A B) i j = add (get2 A i j) (get2 B i j).
Proof.
  unfold addEntries, mapi. split; [apply mapi_from_length|].
  intros i Hi.
  assert (Hr : row (mapi_from (fun row i => mapi_from (fun val j => add val (get2 B i j)) 0 row) 0 A) i
               = mapi_from (fun val j => add val (get2 B i j)) 0 (row A i)).
  { unfold row. rewrite (nth_mapi_from _ 0 i A []) by lia. reflexivity. }
  rewrite Hr. split; [apply mapi_from_length|].
  intros j Hj. unfold get2 at 1. rewrite Hr. unfold get at 1.
  rewrite (nth_mapi_from _ 0 j (row A i) undef) by assumption. reflexivity.
Qed.

(** What [matrixAdd] throws is a [TypeError], on a first matrix without rows
    or on a second matrix with fewer rows than the first. *)
Lemma matrixAdd_throws (A B : matrix T) (e : exn) :
  matrixAdd A B = Throw e ->
  e = TypeError /\ (A = [] \/ length B < length A).
Proof.
  unfold matrixAdd, mapi_try. destruct A as [|A0 A'].
  - intros Heq. inversion Heq. auto.
  - intros Hthrow.
    destruct (mapi_try_from_throws _ 0 _ e Hthrow) as (i & r & Hnth & Hrow).
    destruct (mapi_try_from_throws _ 0 _ e Hrow) as (j & v & _ & Hcell).
    cbn [Nat.add] in Hcell.
    assert (Hi : i < length (A0 :: A')).
    { apply nth_error_Some. rewrite Hnth. discriminate. }
    destruct (Nat.ltb_spec i (length B)) as [Hlt|Hge]; [discriminate|].
    inversion Hcell. split; [reflexivity|]. right. lia.
Qed.

Lemma matrixAdd_commutes (r c : nat) (A B : matrix T) :
  (forall x y : T, add x y = add y x) ->
  shaped r c A -> shaped r c B -> matrixAdd A B = matrixAdd B A.
Proof.
  intros Hcomm HA HB.
  destruct (Nat.eq_dec r 0) as [->|Hr].
  - destruct HA as [HlA _], HB as [HlB _].
    destruct A; [|discriminate]. destruct B; [|discriminate]. reflexivity.
  - assert (HlA : length A = r) by apply HA.
    assert (HlB : length B = r) by apply HB.
    rewrite !matrixAdd_returns by lia. f_equal.
    destruct (addEntries_spec r c A B HA) as [HAB Hab].
    destruct (addEntries_spec r c B A HB) as [HBA Hba].
    apply (shaped_ext r c); [assumption|assumption|].
    intros i j Hi Hj. rewrite Hab, Hba by assumption. apply Hcomm.
Qed.

End Generic.

(** ** On doubles *)

Lemma scale_by_one (m : matrix float) : matrixScalarMultiply m 1%float = m.
Proof.
  unfold matrixScalarMultiply. rewrite <- (map_id m) at 2.
  apply map_ext. intros r. rewrite <- (map_id r) at 2.
  apply map_ext. intros x. apply mul_one_r.
Qed.

(** The sum of the squares of zeros is +0. *)
Lemma squares_of_zeros (v : list float) :
  Forall isZero v ->
  fold_left (fun sum val => (sum + val * val)%float) v 0%float = 0%float.
Proof.
  induction 1 as [|x v Hx _ IH]; [reflexivity|]. cbn [fold_left].
  replace (0 + x * x)%float with 0%float; [exact IH|].
  destruct Hx as [-> | ->]; reflexivity.
Qed.

Lemma vectorNormalize_length (v : list float) :
  length (vectorNormalize v) = length v.
Proof.
  unfold vectorNormalize. destruct (PrimFloat.eqb _ _); apply length_map.
Qed.

Lemma vectorNormalize_zeros (v : list float) :
  Forall isZero v -> vectorNormalize v = repeat 0%float (length v).
Proof.
  intros Hv. unfold vectorNormalize, vectorMagnitude.
  rewrite squares_of_zeros by assumption.
  change (PrimFloat.eqb (Math_sqrt 0) 0) with true. cbv iota.
  clear Hv. induction v as [|x v IH]; [reflexivity|]. cbn [map length repeat].
  now rewrite IH.
Qed.

(** A rounded result has the sign it is given. *)
Lemma round_aux_sign (m e : Z) (l : location) :
  SFltb (binary_round_aux prec emax false m e l) (S754_zero false) = false.
Proof.
  unfold binary_round_aux.
  destruct (shr_fexp prec emax m e l) as [mrs' e'].
  destruct (shr_fexp prec emax _ e' loc_Exact) as [mrs'' e''].
  destruct (shr_m mrs'') as [|p|p]; try reflexivity.
  destruct (e'' <=? emax - prec)%Z; reflexivity.
Qed.

Lemma sqrt_not_negative (x : float) : PrimFloat.ltb (PrimFloat.sqrt x) 0 = false.
Proof.
  rewrite FloatAxioms.ltb_spec, FloatAxioms.sqrt_spec.
  change (Prim2SF 0) with (S754_zero false).
  unfold SF64sqrt, SFsqrt.
  destruct (Prim2SF x) as [s|[|]| |[|] m e]; try reflexivity.
  destruct (SFsqrt_core_binary prec emax (Z.pos m) e) as [[mz ez] lz].
  apply round_aux_sign.
Qed.

End VectorFacts.

(** * Products, inverse and decomposition of the identity *)

Module IdentityFacts.
Import MatrixOperations ArrayLemmas Binary64 DoubleFacts.

(** A double that multiplication by the entries of an identity matrix gives
    back: finite, and not -0. *)
Definition plain (x : float) : Prop := finite x /\ x <> (-0)%float.

(** A sum one of whose terms is [x], the others being zeros. *)
Lemma single_term_sum (m j : nat) (f : nat -> float) (x : float) :
  j < m -> f j = x -> x <> (-0)%float ->
  (forall k, k < m -> k <> j -> isZero (f k)) ->
  for_range 0 m (fun k sum => (sum + f k)%float) 0%float = x.
Proof.
  intros Hj Hfj Hx Hzero.
  loop_invariant (fun k s => if k <=? j then s = 0%float else s = x).
  - lia.
  - reflexivity.
  - intros k s Hk Hs.
    destruct (Nat.leb_spec k j) as [Hle|Hgt].
    + subst s. destruct (Nat.eq_dec k j) as [->|Hne].
      * replace (j + 1 <=? j) with false by (symmetry; apply Nat.leb_gt; lia).
        rewrite Hfj. now apply (add_zero 0%float x (or_introl eq_refl)).
      * replace (k + 1 <=? j) with true by (symmetry; apply Nat.leb_le; lia).
        apply zero_plus_zero. apply Hzero; lia.
    + subst s. replace (k + 1 <=? j) with false by (symmetry; apply Nat.leb_gt; lia).
      apply (add_zero (f k) x); [apply Hzero; lia|assumption].
  - now replace (m <=? j) with false in Hinv by (symmetry; apply Nat.leb_gt; lia).
Qed.

Lemma identity_entries (n i j : nat) :
  i < n -> j < n ->
  get2 (identityMatrix n : matrix float) i j = if i =? j then 1%float else 0%float.
Proof.
  intros Hi Hj.
  now destruct (LUFacts.identityMatrix_entries (T := float) n) as [_ ->].
Qed.

Lemma identity_shaped (n : nat) : shaped n n (identityMatrix n : matrix float).
Proof. now destruct (LUFacts.identityMatrix_entries (T := float) n). Qed.

Lemma matrixMultiply_identity_left (r c : nat) (A : matrix float) :
  shaped r c A -> 1 <= r ->
  (forall i j, i < r -> j < c -> plain (get2 A i j)) ->
  matrixMultiply (identityMatrix r) A = Ok A.
Proof.
  intros HA Hr Hplain.
  destruct (ProductFacts.matrixMultiply_spec (identityMatrix r) A r r c
              (identity_shaped r) HA Hr Hr) as (P & -> & HP & Hentries).
  f_equal. apply (shaped_ext r c); [assumption|assumption|].
  intros i j Hi Hj. rewrite Hentries by assumption. unfold dotLU.
  cbn [add mul zero float_Number].
  apply (single_term_sum r i (fun k => (get2 (identityMatrix r) i k * get2 A k j)%float));
    [assumption| |apply Hplain; assumption|].
  - rewrite identity_entries, Nat.eqb_refl by assumption. apply mul_one_l.
  - intros k Hk Hne. rewrite identity_entries by assumption.
    replace (i =? k) with false by (symmetry; apply Nat.eqb_neq; lia).
    apply (zero_mul 0%float (get2 A k j)); [now left|apply Hplain; assumption].
Qed.

Lemma matrixMultiply_identity_right (r c : nat) (A : matrix float) :
  shaped r c A -> 1 <= r -> 1 <= c ->
  (forall i j, i < r -> j < c -> plain (get2 A i j)) ->
  matrixMultiply A (identityMatrix c) = Ok A.
Proof.
  intros HA Hr Hc Hplain.
  destruct (ProductFacts.matrixMultiply_spec A (identityMatrix c) r c c
              HA (identity_shaped c) Hr Hc) as (P & -> & HP & Hentries).
  f_equal. apply (shaped_ext r c); [assumption|assumption|].
  intros i j Hi Hj. rewrite Hentries by assumption. unfold dotLU.
  cbn [add mul zero float_Number].
  apply (single_term_sum c j (fun k => (get2 A i k * get2 (identityMatrix c) k j)%float));
    [assumption| |apply Hplain; assumption|].
  - rewrite identity_entries, Nat.eqb_refl by assumption. apply mul_one_r.
  - intros k Hk Hne. rewrite identity_entries by assumption.
    replace (k =? j) with false by (symmetry; apply Nat.eqb_neq; lia).
    apply (zero_mul 0%float (get2 A i k)); [now left|apply Hplain; assumption].
Qed.


(** ** The inverse of the identity *)

(** The entries of [[I | I]]. *)
Definition unitPair (n i j : nat) : float :=
  if j <? n then (if i =? j then 1%float else 0%float)
  else (if j - n =? i then 1%float else 0%float).

Definition isUnitPair (n : nat) (M : matrix float) : Prop :=
  shaped n (2 * n) M /\
  forall i j, i < n -> j < 2 * n -> get2 M i j = unitPair n i j.

Lemma unitPair_unique (n : nat) (M N : matrix float) :
  isUnitPair n M -> isUnitPair n N -> M = N.
Proof.
  intros [HM Hm] [HN Hn]. apply (shaped_ext n (2 * n)); [assumption|assumption|].
  intros i j Hi Hj. now rewrite Hm, Hn.
Qed.

Lemma augmentIdentity_unitPair (n : nat) :
  isUnitPair n (augmentIdentity (identityMatrix n)).
Proof.
  destruct (InverseFacts.augmentIdentity_entries n (identityMatrix n : matrix float)
              (identity_shaped n)) as [Hshape Hentries].
  split; [exact Hshape|]. intros i j Hi Hj. rewrite Hentries by assumption.
  unfold unitPair. destruct (Nat.ltb_spec j n); [|reflexivity].
  now apply identity_entries.
Qed.

Lemma unitPair_diagonal (n col : nat) : col < n -> unitPair n col col = 1%float.
Proof.
  intros Hc. unfold unitPair.
  replace (col <? n) with true by (symmetry; apply Nat.ltb_lt; lia).
  now rewrite Nat.eqb_refl.
Qed.

Lemma unitPair_column (n i col : nat) :
  col < n -> i <> col -> unitPair n i col = 0%float.
Proof.
  intros Hc Hne. unfold unitPair.
  replace (col <? n) with true by (symmetry; apply Nat.ltb_lt; lia).
  now replace (i =? col) with false by (symmetry; apply Nat.eqb_neq; lia).
Qed.

Lemma unitPair_values (n i j : nat) :
  unitPair n i j = 0%float \/ unitPair n i j = 1%float.
Proof.
  unfold unitPair. destruct (j <? n), (i =? j), (j - n =? i); auto.
Qed.

Lemma findPivot_unitPair (n col : nat) (M : matrix float) :
  isUnitPair n M -> col < n -> findPivot M n col = col.
Proof.
  intros [HM Hm] Hc. unfold findPivot.
  loop_invariant (fun (r : nat) (maxRow : nat) => maxRow = col).
  - lia.
  - reflexivity.
  - intros r maxRow Hr ->.
    rewrite !Hm by lia. rewrite unitPair_diagonal, unitPair_column by lia.
    reflexivity.
  - exact Hinv.
Qed.

Lemma inverseStep_unitPair (n col : nat) (M : matrix float) :
  isUnitPair n M -> col < n -> inverseStep n col M = Ok M.
Proof.
  intros HM Hc. unfold inverseStep. rewrite (findPivot_unitPair n col M HM Hc).
  pose proof HM as [Hshape Hm].
  destruct (InverseFacts.swapRows_entries n (2 * n) M col col Hshape Hc Hc)
    as [Hsw Hswe].
  assert (Hswap : swapRows M col col = M).
  { apply (shaped_ext n (2 * n)); [assumption|assumption|].
    intros i j Hi Hj. rewrite Hswe. now destruct (i =? col) eqn:E;
      [apply Nat.eqb_eq in E; subst i|]. }
  rewrite Hswap. rewrite Hm by lia. rewrite unitPair_diagonal by assumption.
  change (ltb (abs 1%float) tolerance) with false. cbv iota.
  destruct (InverseFacts.scalePivotRow_entries n col M Hshape Hc) as [Hsc Hsce].
  assert (Hscale : scalePivotRow n col M = M).
  { apply (shaped_ext n (2 * n)); [assumption|assumption|].
    intros i j Hi Hj. rewrite Hsce by assumption.
    destruct (Nat.eqb_spec i col) as [->|Hne]; [|reflexivity].
    rewrite !Hm by lia. rewrite unitPair_diagonal by assumption.
    cbn [div float_Number].
    destruct (unitPair_values n col j) as [-> | ->]; reflexivity. }
  rewrite Hscale.
  destruct (InverseFacts.eliminateColumn_entries n col M Hshape Hc) as [Hel Hele].
  f_equal. apply (shaped_ext n (2 * n)); [assumption|assumption|].
  intros i j Hi Hj. rewrite Hele by assumption.
  destruct (Nat.eqb_spec i col) as [->|Hne]; [reflexivity|].
  rewrite !Hm by lia. rewrite (unitPair_column n i col) by assumption.
  cbn [sub mul float_Number].
  destruct (unitPair_values n i j) as [-> | ->],
           (unitPair_values n col j) as [-> | ->]; reflexivity.
Qed.

Lemma elimination_of_unitPair (n : nat) (M : matrix float) :
  isUnitPair n M -> for_range_try 0 n (inverseStep n) M = Ok M.
Proof.
  intros HM.
  destruct (for_range_try_returns (fun t => t = M) 0 n (inverseStep n)
              (fun _ t => t) M eq_refl) as [Hrun Hend].
  { intros i t Hi ->. split; [|reflexivity]. apply inverseStep_unitPair; [assumption|lia]. }
  rewrite Hrun. now rewrite Hend.
Qed.

Lemma matrixInverse_identity (n : nat) :
  matrixInverse (identityMatrix n : matrix float) = Ok (identityMatrix n).
Proof.
  unfold matrixInverse.
  assert (Hlen : length (identityMatrix n : matrix float) = n)
    by apply (identity_shaped n).
  rewrite Hlen.
  pose proof (augmentIdentity_unitPair n) as HJ.
  rewrite (elimination_of_unitPair n _ HJ). cbn [bind].
  destruct HJ as [Hshape Hentries].
  apply (f_equal (fun M : matrix float => Ok M)).
  destruct (InverseFacts.rightHalf_entries n _ Hshape) as [Hrs Hre].
  apply (shaped_ext n n); [assumption|apply identity_shaped|].
  intros i j Hi Hj. rewrite Hre, Hentries, identity_entries by lia.
  unfold unitPair.
  replace (n + j <? n) with false by (symmetry; apply Nat.ltb_ge; lia).
  replace (n + j - n) with j by lia. now rewrite Nat.eqb_sym.
Qed.


(** ** The decomposition of the identity *)

Lemma zero_sum (m : nat) (f : nat -> float) :
  (forall k, k < m -> f k = 0%float) ->
  for_range 0 m (fun k sum => (sum + f k)%float) 0%float = 0%float.
Proof.
  intros Hf. loop_invariant (fun (k : nat) (s : float) => s = 0%float).
  - lia.
  - reflexivity.
  - intros k s Hk ->. now rewrite Hf by lia.
  - exact Hinv.
Qed.

Lemma identity_dot_below (n i c m : nat) :
  i < n -> c < n -> m <= i ->
  dotLU (identityMatrix n : matrix float) (identityMatrix n) i c m = 0%float.
Proof.
  intros Hi Hc Hm. unfold dotLU. cbn [add mul zero float_Number].
  apply (zero_sum m (fun k => (get2 (identityMatrix n) i k
                               * get2 (identityMatrix n) k c)%float)).
  intros k Hk. rewrite !identity_entries by lia.
  replace (i =? k) with false by (symmetry; apply Nat.eqb_neq; lia).
  destruct (k =? c); reflexivity.
Qed.

Lemma identity_doolittle (n : nat) :
  LUFacts.Doolittle (identityMatrix n : matrix float) n
    (identityMatrix n) (identityMatrix n).
Proof.
  repeat split; try apply identity_shaped.
  - intros ->. now rewrite identity_entries, Nat.eqb_refl.
  - intros Hlt. rewrite identity_entries by assumption.
    now replace (i =? c) with false by (symmetry; apply Nat.eqb_neq; lia).
  - intros i c Hi Hc Hlt. rewrite identity_entries by assumption.
    now replace (i =? c) with false by (symmetry; apply Nat.eqb_neq; lia).
  - intros i c Hic Hc. rewrite identity_dot_below by lia.
    rewrite identity_entries by lia. destruct (i =? c); reflexivity.
  - intros i c Hci Hi Hc. rewrite identity_dot_below by lia.
    rewrite !identity_entries by lia. rewrite Nat.eqb_refl.
    now replace (i =? c) with false by (symmetry; apply Nat.eqb_neq; lia).
Qed.

Lemma luDecomposition_identity (n : nat) :
  luDecomposition (identityMatrix n : matrix float)
  = Ok (identityMatrix n, identityMatrix n).
Proof.
  assert (Hlen : length (identityMatrix n : matrix float) = n)
    by apply (identity_shaped n).
  apply LUFacts.luDecomposition_complete; rewrite Hlen.
  - apply identity_doolittle.
  - intros j Hj. now rewrite identity_entries, Nat.eqb_refl by lia.
Qed.

End IdentityFacts.

(** * convolution2d *)

Module WindowFacts.
Import MatrixOperations SignalProcessing ArrayLemmas Binary64 DoubleFacts PixelFacts.

(** ** Loops over the pixels *)

(** A loop whose body keeps the shape keeps it. *)
Lemma for_range_shaped (r c lo hi : nat)
    (body : nat -> matrix float -> matrix float) (M : matrix float) :
  shaped r c M ->
  (forall i N, lo <= i < hi -> shaped r c N -> shaped r c (body i N)) ->
  shaped r c (for_range lo hi body M).
Proof.
  intros HM Hbody. destruct (Nat.le_gt_cases lo hi) as [Hle|Hgt].
  - apply (for_range_invariant (fun _ N => shaped r c N)); auto.
  - now rewrite for_range_empty by lia.
Qed.

(** A loop on a pair whose components do not read each other. *)
Lemma for_range_pair {A B : Type} (lo hi : nat) (body : nat -> A * B -> A * B)
    (F : nat -> A -> A) (G : nat -> B -> B) (a : A) (b : B) :
  (forall j x y, lo <= j < hi -> body j (x, y) = (F j x, G j y)) ->
  for_range lo hi body (a, b) = (for_range lo hi F a, for_range lo hi G b).
Proof.
  intros Hbody. destruct (Nat.le_gt_cases lo hi) as [Hle|Hgt].
  - induction hi as [|hi IH].
    + now rewrite !for_range_empty by lia.
    + destruct (Nat.eq_dec lo (Datatypes.S hi)) as [->|Hne].
      * now rewrite !for_range_empty by lia.
      * replace (Datatypes.S hi) with (hi + 1) by lia.
        rewrite !for_range_last by lia. rewrite IH; [|intros; apply Hbody; lia|lia].
        apply Hbody. lia.
  - now rewrite !for_range_empty by lia.
Qed.

(** A double loop that rewrites every entry from its own old value. *)
Lemma update_row (rows cols y : nat) (g : nat -> float -> float) (M : matrix float) :
  shaped rows cols M -> y < rows ->
  let R := for_range 0 cols (fun x result =>
             set2 result y x (g x (get2 result y x))) M in
  shaped rows cols R /\
  forall i j, i < rows -> j < cols ->
    get2 R i j = if i =? y then g j (get2 M i j) else get2 M i j.
Proof.
  intros HM Hy. cbv zeta.
  loop_invariant (fun k R => shaped rows cols R /\
      forall i j, i < rows -> j < cols ->
        get2 R i j = if (i =? y) && (j <? k) then g j (get2 M i j) else get2 M i j).
  - lia.
  - split; [assumption|]. intros i j _ _. now rewrite andb_false_r.
  - intros k R Hk [HR Hget]. split.
    + apply shaped_set2; [assumption|lia|lia].
    + intros i j Hi Hj. rewrite (get2_set2_shaped rows cols) by (assumption || lia).
      rewrite !Hget by (assumption || lia).
      destruct (Nat.eqb_spec i y) as [->|Hiy]; cbn [andb]; [|reflexivity].
      destruct (Nat.eqb_spec j k) as [->|Hjk].
      * replace (k <? k + 1) with true by (symmetry; apply Nat.ltb_lt; lia).
        rewrite Nat.eqb_refl. cbn [andb].
        now replace (k <? k) with false by (symmetry; apply Nat.ltb_ge; lia).
      * destruct (Nat.ltb_spec j k), (Nat.ltb_spec j (k + 1)); try lia; reflexivity.
  - destruct Hinv as [HR Hget]. split; [assumption|].
    intros i j Hi Hj. rewrite Hget by assumption.
    replace (j <? cols) with true by (symmetry; apply Nat.ltb_lt; lia).
    now rewrite andb_true_r.
Qed.

Lemma update_image (rows cols : nat) (g : nat -> nat -> float -> float)
    (M : matrix float) :
  shaped rows cols M ->
  let R := for_range 0 rows (fun y result =>
             for_range 0 cols (fun x result =>
               set2 result y x (g y x (get2 result y x))) result) M in
  shaped rows cols R /\
  forall i j, i < rows -> j < cols -> get2 R i j = g i j (get2 M i j).
Proof.
  intros HM. cbv zeta.
  loop_invariant (fun k R => shaped rows cols R /\
      forall i j, i < rows -> j < cols ->
        get2 R i j = if i <? k then g i j (get2 M i j) else get2 M i j).
  - lia.
  - split; [assumption|]. intros i j _ _. reflexivity.
  - intros k R Hk [HR Hget].
    destruct (update_row rows cols k (g k) R HR) as [HR' Hget']; [lia|].
    split; [assumption|].
    intros i j Hi Hj. rewrite Hget', Hget by assumption.
    destruct (Nat.eqb_spec i k) as [->|Hik].
    + replace (k <? k + 1) with true by (symmetry; apply Nat.ltb_lt; lia).
      now replace (k <? k) with false by (symmetry; apply Nat.ltb_ge; lia).
    + destruct (Nat.ltb_spec i k), (Nat.ltb_spec i (k + 1)); try lia; reflexivity.
  - destruct Hinv as [HR Hget]. split; [assumption|].
    intros i j Hi Hj. rewrite Hget by assumption.
    now replace (i <? rows) with true by (symmetry; apply Nat.ltb_lt; lia).
Qed.

Lemma firstRowLength_shaped (r c : nat) (img : image) :
  shaped r c img -> 1 <= r -> firstRowLength img = Ok c /\ length img = r.
Proof.
  intros [Hlen Hrow] Hr. split; [|exact Hlen].
  destruct img as [|r0 img']; cbn [length] in Hlen; [lia|].
  cbn [firstRowLength]. f_equal. apply (Hrow 0). lia.
Qed.

(** ** convolution2d *)

(** The sum the source accumulates for the pixel [(i, j)]: the kernel taps
    whose source position is inside the image, in row-major order. *)
Definition windowSum (img kernel : image) (rows cols i j : nat) : float :=
  let kernelSize := length kernel in
  let pad := kernelSize / 2 in
  for_range 0 kernelSize (fun ki sum =>
    for_range 0 kernelSize (fun kj sum =>
      let ii := (Z.of_nat i + Z.of_nat ki - Z.of_nat pad)%Z in
      let jj := (Z.of_nat j + Z.of_nat kj - Z.of_nat pad)%Z in
      if ((0 <=? ii) && (ii <? Z.of_nat rows)
          && (0 <=? jj) && (jj <? Z.of_nat cols))%Z
      then (sum + get2 img (Z.to_nat ii) (Z.to_nat jj) * get2 kernel ki kj)%float
      else sum) sum) 0%float.

Lemma convolution2d_spec (r c : nat) (img kernel : image) :
  shaped r c img -> 1 <= r ->
  exists out,
    convolution2d img kernel = Ok out /\
    shaped r c out /\
    forall i j, i < r -> j < c -> get2 out i j = windowSum img kernel r c i j.
Proof.
  intros Himg Hr. unfold convolution2d.
  destruct (firstRowLength_shaped r c img Himg Hr) as [-> ->]. cbn [bind].
  eexists. split; [reflexivity|].
  apply (fill_image r c (windowSum img kernel r c)). apply shaped_zeros.
Qed.

Lemma windowSum_unit_kernel (img : image) (r c i j : nat) :
  i < r -> j < c -> get2 img i j <> (-0)%float ->
  windowSum img [[1%float]] r c i j = get2 img i j.
Proof.
  intros Hi Hj Hx. unfold windowSum. cbn [length]. change (1 / 2) with 0.
  unfold for_range. cbn [seq Nat.sub fold_left].
  replace (Z.of_nat i + Z.of_nat 0 - Z.of_nat 0)%Z with (Z.of_nat i) by lia.
  replace (Z.of_nat j + Z.of_nat 0 - Z.of_nat 0)%Z with (Z.of_nat j) by lia.
  replace (0 <=? Z.of_nat i)%Z with true by (symmetry; apply Z.leb_le; lia).
  replace (Z.of_nat i <? Z.of_nat r)%Z with true by (symmetry; apply Z.ltb_lt; lia).
  replace (0 <=? Z.of_nat j)%Z with true by (symmetry; apply Z.leb_le; lia).
  replace (Z.of_nat j <? Z.of_nat c)%Z with true by (symmetry; apply Z.ltb_lt; lia).
  cbn [andb]. rewrite !Nat2Z.id.
  change (get2 [[1%float]] 0 0) with 1%float. rewrite mul_one_r.
  now apply (add_zero 0%float _ (or_introl eq_refl)).
Qed.

Lemma unit_kernel_is_neutral (r c : nat) (img : image) :
  shaped r c img -> 1 <= r ->
  (forall i j, i < r -> j < c -> get2 img i j <> (-0)%float) ->
  convolution2d img [[1%float]] = Ok img.
Proof.
  intros Himg Hr Hx.
  destruct (convolution2d_spec r c img [[1%float]] Himg Hr) as (out & -> & Hout & Hentries).
  f_equal. apply (shaped_ext r c); [assumption|assumption|].
  intros i j Hi Hj. rewrite Hentries by assumption.
  apply windowSum_unit_kernel; auto.
Qed.

Lemma convolution2d_empty_kernel (r c : nat) (img : image) :
  shaped r c img -> 1 <= r -> convolution2d img [] = Ok (zeros r c).
Proof.
  intros Himg Hr.
  destruct (convolution2d_spec r c img [] Himg Hr) as (out & -> & Hout & Hentries).
  f_equal. apply (shaped_ext r c); [assumption|apply shaped_zeros|].
  intros i j Hi Hj. rewrite Hentries by assumption. now rewrite get2_zeros.
Qed.

End WindowFacts.

(** * createGaussianKernel, gaussianBlur and rollingMean *)

Module KernelFacts.
Import MatrixOperations SignalProcessing ArrayLemmas Binary64 DoubleFacts PixelFacts WindowFacts.

Section Kernel.
Variable Math_exp : float -> float.

(** The value the first pass stores at [(i, j)]. *)
Definition gaussianValue (size : nat) (sigma : float) (i j : nat) : float :=
  let center := size / 2 in
  let x := (of_nat i - of_nat center)%float in
  let y := (of_nat j - of_nat center)%float in
  Math_exp (- (x * x + y * y) / (2 * sigma * sigma))%float.

(** The sum of the values, in row-major order. *)
Definition gaussianTotal (size : nat) (sigma : float) : float :=
  for_range 0 size (fun i sum =>
    for_range 0 size (fun j sum => (sum + gaussianValue size sigma i j)%float) sum)
    0%float.

Lemma gaussianValue_symmetric (size : nat) (sigma : float) (i j : nat) :
  gaussianValue size sigma i j = gaussianValue size sigma j i.
Proof. unfold gaussianValue. cbv zeta. now rewrite add_comm. Qed.

Lemma createGaussianKernel_spec (size : nat) (sigma : float) :
  shaped size size (createGaussianKernel Math_exp size sigma) /\
  forall i j, i < size -> j < size ->
    get2 (createGaussianKernel Math_exp size sigma) i j
    = (gaussianValue size sigma i j / gaussianTotal size sigma)%float.
Proof.
  unfold createGaussianKernel.
  rewrite (for_range_pair 0 size _
             (fun i K => for_range 0 size
                (fun j K => set2 K i j (gaussianValue size sigma i j)) K)
             (fun i s => for_range 0 size
                (fun j s => (s + gaussianValue size sigma i j)%float) s)).
  2:{ intros i K s Hi. apply for_range_pair. intros j K' s' Hj. reflexivity. }
  fold (gaussianTotal size sigma).
  destruct (fill_image size size (gaussianValue size sigma) (zeros size size))
    as [Hfilled Hvalues].
  { apply shaped_zeros. }
  destruct (update_image size size
              (fun _ _ v => (v / gaussianTotal size sigma)%float) _ Hfilled)
    as [Hshape Hentries].
  split; [exact Hshape|].
  intros i j Hi Hj. rewrite Hentries by assumption. now rewrite Hvalues.
Qed.

Lemma kernel_entries_symmetric (size : nat) (sigma : float) (i j : nat) :
  i < size -> j < size ->
  get2 (createGaussianKernel Math_exp size sigma) i j
  = get2 (createGaussianKernel Math_exp size sigma) j i.
Proof.
  intros Hi Hj. destruct (createGaussianKernel_spec size sigma) as [_ Hentries].
  rewrite !Hentries by assumption. now rewrite gaussianValue_symmetric.
Qed.

Lemma gaussianBlur_shape (r c : nat) (img : image) (kernelSize : option nat)
    (sigma : option float) :
  shaped r c img -> 1 <= r ->
  exists out,
    gaussianBlur Math_exp img kernelSize sigma = Ok out /\ shaped r c out.
Proof.
  intros Himg Hr. unfold gaussianBlur.
  destruct (convolution2d_spec r c img
              (createGaussianKernel Math_exp
                 match kernelSize with Some k => k | None => 5 end
                 match sigma with Some s => s | None => 1%float end) Himg Hr)
    as (out & Hrun & Hshape & _).
  now exists out.
Qed.

End Kernel.

(** ** rollingMean *)

(** The sum of the [window] values that end at [i], the latest first. *)
Definition windowTotal (series : list float) (window i : nat) : float :=
  for_range 0 window (fun j sum => (sum + get series (i - j))%float) 0%float.

Lemma get_snoc (a : list float) (v : float) (k : nat) :
  get (a ++ [v]) k = if k <? length a then get a k else if k =? length a then v else nan.
Proof.
  unfold get. cbn [undef float_Number].
  destruct (Nat.ltb_spec k (length a)) as [Hlt|Hge].
  - now rewrite app_nth1.
  - rewrite app_nth2 by lia. destruct (Nat.eqb_spec k (length a)) as [->|Hne].
    + now rewrite Nat.sub_diag.
    + destruct (k - length a) as [|[|d]] eqn:E; [lia|reflexivity|reflexivity].
Qed.

Lemma rollingMean_spec (series : list float) (window : nat) :
  length (rollingMean series window) = length series /\
  forall i, i < length series ->
    get (rollingMean series window) i
    = if i + 1 <? window then nan
      else (windowTotal series window i / of_nat window)%float.
Proof.
  unfold rollingMean.
  loop_invariant (fun n result => length result = n /\
      forall i, i < n ->
        get result i = if i + 1 <? window then nan
                       else (windowTotal series window i / of_nat window)%float).
  - lia.
  - split; [reflexivity|]. intros i Hi. lia.
  - intros n result Hn [Hlen Hget].
    assert (Hcond : (Z.of_nat n <? Z.of_nat window - 1)%Z = (n + 1 <? window)).
    { destruct (Nat.ltb_spec (n + 1) window).
      - apply Z.ltb_lt. lia.
      - apply Z.ltb_ge. lia. }
    rewrite Hcond. fold (windowTotal series window n).
    split.
    + destruct (n + 1 <? window); rewrite length_app; cbn [length]; lia.
    + intros i Hi.
      assert (Hsnoc : forall v, get (result ++ [v]) i
                = if i =? n then v else get result i).
      { intros v. rewrite get_snoc, Hlen.
        destruct (Nat.ltb_spec i n), (Nat.eqb_spec i n); try lia; reflexivity. }
      destruct (Nat.eqb_spec i n) as [->|Hne].
      * destruct (n + 1 <? window); rewrite Hsnoc; reflexivity.
      * assert (Hold := Hget i ltac:(lia)).
        destruct (n + 1 <? window); rewrite Hsnoc; exact Hold.
  - exact Hinv.
Qed.

(** With a window of 0 every entry is [0 / 0]. *)
Lemma rollingMean_no_window (series : list float) (i : nat) :
  i < length series -> get (rollingMean series 0) i = nan.
Proof.
  intros Hi. destruct (rollingMean_spec series 0) as [_ Hget].
  rewrite Hget by assumption. reflexivity.
Qed.

End KernelFacts.

(** * Shapes of the images returned *)

Module ShapeFacts.
Import MatrixOperations SignalProcessing ArrayLemmas Binary64 DoubleFacts PixelFacts
  WindowFacts KernelFacts.

Lemma window_one_is_identity (series : list float) :
  Forall (fun x => x <> (-0)%float) series -> rollingMean series 1 = series.
Proof.
  intros Hx. destruct (rollingMean_spec series 1) as [Hlen Hget].
  apply (nth_ext_eq _ _ nan); [exact Hlen|].
  intros i Hi. rewrite Hlen in Hi. specialize (Hget i Hi).
  unfold get in Hget. cbn [undef float_Number] in Hget. rewrite Hget.
  replace (i + 1 <? 1) with false by (symmetry; apply Nat.ltb_ge; lia).
  change (of_nat 1) with 1%float. rewrite div_one.
  unfold windowTotal, for_range. cbn [seq Nat.sub fold_left]. rewrite Nat.sub_0_r.
  apply (add_zero 0%float _ (or_introl eq_refl)).
  rewrite Forall_forall in Hx. apply Hx. unfold get. apply nth_In. exact Hi.
Qed.

Section Rotation.
Variables (Math_cos Math_sin : float -> float).

Lemma imageRotation_shape (r c : nat) (img : image) (angleDegrees : float) :
  shaped r c img -> 1 <= r ->
  exists out,
    imageRotation Math_cos Math_sin img angleDegrees = Ok out /\ shaped r c out.
Proof.
  intros Himg Hr. unfold imageRotation.
  destruct (firstRowLength_shaped r c img Himg Hr) as [-> ->]. cbn [bind].
  eexists. split; [reflexivity|].
  apply for_range_shaped; [apply shaped_zeros|].
  intros y N Hy HN. apply for_range_shaped; [assumption|].
  intros x N' Hx HN'.
  match goal with |- shaped r c (if ?b then _ else _) => destruct b end;
    [apply shaped_set2; [assumption|lia|lia]|assumption].
Qed.
End Rotation.

Lemma histogramEqualization_shape (r c : nat) (img : image) :
  shaped r c img -> 1 <= r ->
  exists out, histogramEqualization img = Ok out /\ shaped r c out.
Proof.
  intros Himg Hr. unfold histogramEqualization.
  destruct (firstRowLength_shaped r c img Himg Hr) as [-> ->]. cbn [bind].
  eexists. split; [reflexivity|].
  apply for_range_shaped; [apply shaped_zeros|].
  intros y N Hy HN. apply for_range_shaped; [assumption|].
  intros x N' Hx HN'. apply shaped_set2; [assumption|lia|lia].
Qed.

End ShapeFacts.

(** * linearEquationSolver: the entries of the elimination *)

Module SolverFacts.
Import MatrixOperations ArrayLemmas InverseFacts.
Section Generic.
Context {T : Type} `{Number T}.

(** The augmented matrix [[A | b]]. *)
Lemma augmentVector_entries (n : nat) (A : matrix T) (b : list T) :
  shaped n n A ->
  shaped n (n + 1) (augmentVector A b) /\
  forall i j, i < n -> j < n + 1 ->
    get2 (augmentVector A b) i j = if j <? n then get2 A i j else get b i.
Proof.
  intros [Hr Hc]. unfold augmentVector.
  assert (Hrow : forall i, i < n ->
            row (mapi (fun r i => r ++ [get b i]) A) i = row A i ++ [get b i]).
  { intros i Hi. unfold row, mapi.
    rewrite (nth_mapi_from _ 0 i A [] []) by lia. reflexivity. }
  split; [split|].
  - unfold mapi. now rewrite mapi_from_length.
  - intros i Hi. rewrite Hrow by exact Hi. rewrite length_app, Hc by exact Hi.
    reflexivity.
  - intros i j Hi Hj. unfold get2. rewrite Hrow by exact Hi.
    rewrite get_app, Hc by exact Hi.
    destruct (j <? n) eqn:E; [reflexivity|].
    apply Nat.ltb_ge in E. replace (j - n) with 0 by lia. reflexivity.
Qed.

(** One row minus [factor] times the pivot row, from column [col] on. *)
Lemma solverRow_entries (n col r : nat) (factor : T) (M : matrix T) :
  shaped n (n + 1) M -> col < r -> r < n ->
  let M' := for_range col (n + 1) (fun j aug =>
              set2 aug r j (sub (get2 aug r j) (mul factor (get2 aug col j)))) M in
  shaped n (n + 1) M' /\
  forall i j, i < n -> j < n + 1 ->
    get2 M' i j =
    if (i =? r) && (col <=? j)
    then sub (get2 M r j) (mul factor (get2 M col j)) else get2 M i j.
Proof.
  intros HM Hcol Hr. cbv zeta.
  loop_invariant (fun j0 (N : matrix T) =>
      shaped n (n + 1) N /\
      forall i j, i < n -> j < n + 1 ->
        get2 N i j = if (i =? r) && (col <=? j) && (j <? j0)
                     then sub (get2 M r j) (mul factor (get2 M col j))
                     else get2 M i j).
  - lia.
  - split; [exact HM|]. intros i j Hi Hj.
    destruct (i =? r); cbn [andb]; [|reflexivity].
    destruct (Nat.leb_spec col j), (Nat.ltb_spec j col); try lia; reflexivity.
  - intros j0 N Hj0 [HN Hdone]. split; [apply shaped_set2; auto; lia|].
    intros i j Hi Hj. rewrite (get2_set2_shaped n (n + 1)) by (auto; lia).
    rewrite (Hdone r j0) by lia. rewrite Nat.eqb_refl.
    replace (j0 <? j0) with false by (symmetry; apply Nat.ltb_ge; lia).
    rewrite andb_false_r.
    rewrite (Hdone col j0) by lia.
    replace (col =? r) with false by (symmetry; apply Nat.eqb_neq; lia). cbn [andb].
    rewrite Hdone by assumption.
    destruct (Nat.eqb_spec i r) as [->|Hir]; cbn [andb]; [|reflexivity].
    destruct (Nat.eqb_spec j j0) as [->|Hnej].
    + replace (col <=? j0) with true by (symmetry; apply Nat.leb_le; lia).
      now replace (j0 <? j0 + 1) with true by (symmetry; apply Nat.ltb_lt; lia).
    + destruct (col <=? j); cbn [andb]; [|reflexivity].
      destruct (Nat.ltb_spec j j0), (Nat.ltb_spec j (j0 + 1)); try lia; reflexivity.
  - destruct Hinv as [HN Hdone]. split; [exact HN|].
    intros i j Hi Hj. rewrite Hdone by assumption.
    replace (j <? n + 1) with true by (symmetry; apply Nat.ltb_lt; lia).
    now rewrite andb_true_r.
Qed.

(** Every row below the pivot row minus its multiple of the pivot row. *)
Lemma solverEliminate_entries (n col : nat) (M : matrix T) :
  shaped n (n + 1) M -> col < n ->
  shaped n (n + 1) (solverEliminate n col M) /\
  forall i j, i < n -> j < n + 1 ->
    get2 (solverEliminate n col M) i j =
    if (col <? i) && (col <=? j)
    then sub (get2 M i j)
             (mul (div (get2 M i col) (get2 M col col)) (get2 M col j))
    else get2 M i j.
Proof.
  intros HM Hcol. unfold solverEliminate.
  loop_invariant (fun r0 (N : matrix T) =>
      shaped n (n + 1) N /\
      forall i j, i < n -> j < n + 1 ->
        get2 N i j =
        if (col <? i) && (i <? r0) && (col <=? j)
        then sub (get2 M i j)
                 (mul (div (get2 M i col) (get2 M col col)) (get2 M col j))
        else get2 M i j).
  - lia.
  - split; [exact HM|]. intros i j Hi Hj.
    destruct (Nat.ltb_spec col i), (Nat.ltb_spec i (col + 1)); try lia; reflexivity.
  - intros r0 N Hr0 [HN Hdone].
    destruct (solverRow_entries n col r0
                (div (get2 N r0 col) (get2 N col col)) N HN) as [HN' Hrow];
      try lia.
    cbv zeta in HN', Hrow. split; [exact HN'|].
    intros i j Hi Hj. rewrite Hrow by assumption.
    assert (Hsame : forall j', j' < n + 1 -> get2 N r0 j' = get2 M r0 j').
    { intros j' Hj'. rewrite Hdone by lia.
      replace (r0 <? r0) with false by (symmetry; apply Nat.ltb_ge; lia).
      now rewrite andb_false_r. }
    assert (Hpivot : forall j', j' < n + 1 -> get2 N col j' = get2 M col j').
    { intros j' Hj'. rewrite Hdone by lia.
      now replace (col <? col) with false by (symmetry; apply Nat.ltb_ge; lia). }
    rewrite !Hsame, !Hpivot by lia. rewrite Hdone by assumption.
    destruct (Nat.eqb_spec i r0) as [->|Hir]; cbn [andb].
    + replace (col <? r0) with true by (symmetry; apply Nat.ltb_lt; lia).
      replace (r0 <? r0 + 1) with true by (symmetry; apply Nat.ltb_lt; lia).
      replace (r0 <? r0) with false by (symmetry; apply Nat.ltb_ge; lia).
      cbn [andb]. destruct (col <=? j); reflexivity.
    + destruct (col <? i); cbn [andb]; [|reflexivity].
      destruct (Nat.ltb_spec i r0), (Nat.ltb_spec i (r0 + 1)); try lia; reflexivity.
  - destruct Hinv as [HN Hdone]. split; [exact HN|].
    intros i j Hi Hj. rewrite Hdone by assumption.
    replace (i <? n) with true by (symmetry; apply Nat.ltb_lt; lia).
    now rewrite andb_true_r.
Qed.

(** The loop that counts down. *)
Lemma fold_down_invariant {S : Type} (P : nat -> S -> Prop) (n : nat)
    (f : S -> nat -> S) (s : S) :
  P n s ->
  (forall i t, i < n -> P (i + 1) t -> P i (f t i)) ->
  P 0 (fold_left f (rev (seq 0 n)) s).
Proof.
  revert s. induction n as [|n IH]; intros s Hs Hstep; [exact Hs|].
  rewrite seq_S, rev_app_distr. cbn [rev app fold_left Nat.add].
  apply IH.
  - apply Hstep; [lia|]. now replace (n + 1) with (Datatypes.S n) by lia.
  - intros i t Hi. apply Hstep. lia.
Qed.

End Generic.
End SolverFacts.

(** * How the matrix and vector functions compose *)

Module CompositionFacts.
Import MatrixOperations ArrayLemmas TransposeFacts.
Section Generic.
Context {T : Type} `{Number T}.
Hypothesis mul_commutes : forall a b : T, mul a b = mul b a.

(** The transpose of a product is the product of the transposes, in the
    other order: the sums add the same products in the same order. *)
Lemma transpose_of_product (r m c : nat) (A B : matrix T) :
  shaped r m A -> shaped m c B -> 1 <= r -> 1 <= m -> 1 <= c ->
  (P <- matrixMultiply A B ;; matrixTranspose P)
  = (Bt <- matrixTranspose B ;; At <- matrixTranspose A ;; matrixMultiply Bt At).
Proof.
  intros HA HB Hr Hm Hc.
  destruct (ProductFacts.matrixMultiply_spec A B r m c HA HB Hr Hm)
    as (P & -> & HP & HPe).
  destruct (matrixTranspose_spec m c B HB Hm) as (Bt & -> & HBt & HBte).
  destruct (matrixTranspose_spec r m A HA Hr) as (At & -> & HAt & HAte).
  cbn [bind].
  destruct (matrixTranspose_spec r c P HP Hr) as (Pt & -> & HPt & HPte).
  destruct (ProductFacts.matrixMultiply_spec Bt At c m r HBt HAt Hc Hm)
    as (Q & -> & HQ & HQe).
  f_equal. apply (shaped_ext c r); [assumption|assumption|].
  intros j i Hj Hi. rewrite HPte, HPe, HQe by assumption.
  unfold dotLU. apply for_range_ext. intros k acc Hk.
  rewrite HBte, HAte by lia. now rewrite mul_commutes.
Qed.

(** An entry of the product is the dot product of a row of [A] and a row of
    the transpose of [B]. *)
Lemma product_entry_dot (r m c : nat) (A B P Bt : matrix T) (i j : nat) :
  shaped r m A -> shaped m c B -> 1 <= r -> 1 <= m ->
  matrixMultiply A B = Ok P -> matrixTranspose B = Ok Bt ->
  i < r -> j < c ->
  dotProduct (row A i) (row Bt j) = Ok (get2 P i j).
Proof.
  intros HA HB Hr Hm HP HBt Hi Hj.
  destruct (ProductFacts.matrixMultiply_spec A B r m c HA HB Hr Hm)
    as (P' & HP' & _ & HPe).
  rewrite HP in HP'. inversion HP'. subst P'.
  destruct (matrixTranspose_spec m c B HB Hm) as (Bt' & HBt' & HBts & HBte).
  rewrite HBt in HBt'. inversion HBt'. subst Bt'.
  unfold dotProduct.
  assert (HlA : length (row A i) = m) by (apply HA; exact Hi).
  assert (HlB : length (row Bt j) = m) by (apply HBts; exact Hj).
  rewrite HlA, HlB, Nat.eqb_refl. cbn [negb]. f_equal.
  rewrite HPe by assumption. unfold dotLU. apply for_range_ext.
  intros k acc Hk. fold (get2 A i k). fold (get2 Bt j k).
  now rewrite HBte by lia.
Qed.

End Generic.

(** [v.reduce((sum, val) => sum + val * val, 0)] is the loop of
    [dotProduct(v, v)]. *)
Lemma reduce_from (prefix v : list float) (s : float) :
  fold_left (fun sum val => (sum + val * val)%float) v s
  = fold_left (fun result i =>
                 (result + get (prefix ++ v) i * get (prefix ++ v) i)%float)
      (seq (length prefix) (length v)) s.
Proof.
  revert prefix s. induction v as [|x v IH]; intros prefix s; [reflexivity|].
  cbn [fold_left length seq].
  assert (Hx : get (prefix ++ x :: v) (length prefix) = x).
  { unfold get. now rewrite nth_middle. }
  rewrite Hx. rewrite (IH (prefix ++ [x])).
  rewrite <- app_assoc, length_app. cbn [app length].
  now replace (length prefix + 1) with (Datatypes.S (length prefix)) by lia.
Qed.

Lemma reduce_as_loop (v : list float) (s : float) :
  fold_left (fun sum val => (sum + val * val)%float) v s
  = for_range 0 (length v) (fun i result => (result + get v i * get v i)%float) s.
Proof.
  unfold for_range. rewrite Nat.sub_0_r. apply (reduce_from [] v s).
Qed.

Lemma magnitude_of_dot (v : list float) :
  dotProduct v v = Ok (fold_left (fun sum val => (sum + val * val)%float) v 0%float).
Proof.
  unfold dotProduct. rewrite Nat.eqb_refl. cbn [negb]. f_equal.
  symmetry. apply reduce_as_loop.
Qed.

End CompositionFacts.

(** * imageRotation: where the pixels come from *)

Module SamplingFacts.
Import MatrixOperations SignalProcessing ArrayLemmas Binary64 PixelFacts.

(** ** The indices that pass the bounds test *)

Lemma zero_below (z : float) (n : nat) :
  isZero z -> PrimFloat.ltb z (of_nat n) = true -> 0 < n.
Proof.
  intros Hz Hlt. destruct n as [|n]; [|lia].
  destruct Hz as [-> | ->]; vm_compute in Hlt; discriminate.
Qed.

Lemma digits_of_length (k : positive) :
  (Z.pos k < 2 ^ 32)%Z -> (21 <= Z.of_nat (slack k))%Z.
Proof.
  intros Hk. destruct (digits_bounds k) as [Hlow _].
  assert (Hd : (Z.pos (digits2_pos k) <= 32)%Z).
  { destruct (Z.le_gt_cases (Z.pos (digits2_pos k)) 32) as [|Hgt]; [assumption|].
    exfalso.
    assert (2 ^ 32 <= 2 ^ (Z.pos (digits2_pos k) - 1))%Z
      by (apply Z.pow_le_mono_r; lia).
    lia. }
  unfold slack, prec. lia.
Qed.

(** A double whose exponent is not negative is not below an array length. *)
Lemma large_not_below (x : float) (m : positive) (e : Z) (n : nat) :
  Prim2SF x = S754_finite false m e -> (0 <= e)%Z -> (Z.of_nat n < 2 ^ 32)%Z ->
  PrimFloat.ltb x (of_nat n) = false.
Proof.
  intros Hx He Hn. rewrite FloatAxioms.ltb_spec, Hx.
  rewrite of_nat_fl, Prim2SF_fl by lia.
  destruct (Z.of_nat n) as [|k|k] eqn:Hk.
  - reflexivity.
  - cbn [dyadic]. unfold SFltb. cbn [SFcompare].
    pose proof (digits_of_length k Hn) as Hs.
    destruct (Z.compare_spec e (0 - Z.of_nat (slack k))); [lia|lia|reflexivity].
  - lia.
Qed.

Lemma whole_index (z : Z) (n : nat) :
  (Z.abs z < 2 ^ 53)%Z -> (Z.of_nat n < 2 ^ 32)%Z ->
  PrimFloat.leb 0 (fl z 0) = true ->
  PrimFloat.ltb (fl z 0) (of_nat n) = true ->
  exists k, index_of (fl z 0) = Some k /\ k < n.
Proof.
  intros Hz Hn Hle Hlt.
  assert (H0 : (0 <= z)%Z).
  { destruct z as [|k|k]; try lia. exfalso.
    rewrite FloatAxioms.leb_spec, Prim2SF_fl in Hle by lia.
    cbn [dyadic] in Hle. discriminate Hle. }
  rewrite of_nat_fl in Hlt by lia.
  assert (Hzn : (z < Z.of_nat n)%Z).
  { destruct (Z.lt_ge_cases z (Z.of_nat n)) as [|Hge]; [assumption|]. exfalso.
    destruct (Z.eq_dec z (Z.of_nat n)) as [->|Hne].
    - now rewrite FloatFacts.ltb_irrefl in Hlt.
    - assert (Hback : PrimFloat.ltb (fl (Z.of_nat n) 0) (fl z 0) = true)
        by (apply ltb_fl; lia).
      pose proof (FloatFacts.ltb_trans _ _ _ Hlt Hback) as Habs.
      now rewrite FloatFacts.ltb_irrefl in Habs. }
  exists (Z.to_nat z). split; [|lia].
  rewrite <- (Z2Nat.id z) at 1 by lia. apply index_of_whole. lia.
Qed.

Lemma mantissa_bound (m : positive) (e : Z) :
  bounded prec emax m e = true -> (Z.pos m < 2 ^ 53)%Z.
Proof.
  intros Hb. destruct (bounded_fexp m e Hb) as [Hf _].
  destruct (digits_bounds m) as [_ Hup].
  unfold fexp, emin, emax, prec in Hf.
  assert (Hd : (Z.pos (digits2_pos m) <= 53)%Z) by lia.
  eapply Z.lt_le_trans; [exact Hup|]. apply Z.pow_le_mono_r; lia.
Qed.

(** The nearest integer of a number below [2^53] in magnitude is below
    [2^53] in magnitude. *)
Lemma nearest_bound (v d : Z) :
  (Z.abs v < 2 ^ 53)%Z -> (2 <= d)%Z ->
  (Z.abs ((2 * v + d) / (2 * d)) < 2 ^ 53)%Z.
Proof.
  intros Hv Hd.
  assert (Hup : ((2 * v + d) / (2 * d) < 2 ^ 53)%Z).
  { apply Z.div_lt_upper_bound; [lia|]. nia. }
  assert (Hlow : (- 2 ^ 53 < (2 * v + d) / (2 * d))%Z).
  { assert (- 2 ^ 53 + 1 <= (2 * v + d) / (2 * d))%Z; [|lia].
    apply Z.div_le_lower_bound; [lia|]. nia. }
  lia.
Qed.

(** A rounded coordinate that passes the test is an index of the array. *)
Lemma rounded_index (x : float) (n : nat) :
  (Z.of_nat n < 2 ^ 32)%Z ->
  PrimFloat.leb 0 (Math_round x) = true ->
  PrimFloat.ltb (Math_round x) (of_nat n) = true ->
  exists k, index_of (Math_round x) = Some k /\ k < n.
Proof.
  intros Hn. unfold Math_round.
  pose proof (Prim2SF_valid x) as Hv.
  destruct (Prim2SF x) as [s|s| |s m e] eqn:Hx.
  - intros _ Hlt. exists 0. split.
    + unfold index_of. now rewrite Hx.
    + apply (zero_below x n); [|exact Hlt].
      destruct s; [right|left]; apply Prim2SF_inj; rewrite Hx; reflexivity.
  - intros Hle Hlt. exfalso.
    rewrite FloatAxioms.leb_spec, Hx in Hle.
    rewrite FloatAxioms.ltb_spec, Hx in Hlt.
    rewrite of_nat_fl, Prim2SF_fl in Hlt by lia.
    destruct s; [discriminate Hle|].
    destruct (Z.of_nat n); discriminate Hlt.
  - intros Hle. rewrite FloatAxioms.leb_spec, Hx in Hle. discriminate Hle.
  - cbn [valid_binary] in Hv. pose proof (mantissa_bound m e Hv) as Hm.
    destruct (Z.leb_spec 0 e) as [He|He].
    + intros Hle Hlt. exfalso.
      destruct s.
      * rewrite FloatAxioms.leb_spec, Hx in Hle. discriminate Hle.
      * rewrite (large_not_below x m e n Hx He Hn) in Hlt. discriminate Hlt.
    + set (d := (2 ^ (- e))%Z).
      set (v := if s then Z.neg m else Z.pos m).
      assert (Hd : (2 <= d)%Z).
      { unfold d. change 2%Z with (2 ^ 1)%Z at 1. apply Z.pow_le_mono_r; lia. }
      assert (Hv' : (Z.abs v < 2 ^ 53)%Z) by (unfold v; destruct s; cbn [Z.abs]; lia).
      pose proof (nearest_bound v d Hv' Hd) as Hr.
      destruct (Z.eqb_spec ((2 * v + d) / (2 * d)) 0) as [Hz|Hnz].
      * intros _ Hlt. exists 0. split; [destruct s; reflexivity|].
        apply (zero_below _ n) in Hlt; [exact Hlt|].
        destruct s; [now right|now left].
      * rewrite float_of_Z_fl by exact Hr. intros Hle Hlt.
        now apply whole_index.
Qed.


(** ** The pixels of a rotated image *)

(** A pixel of the result: 0, or a pixel of the image. *)
Definition sampled (r c : nat) (img : image) (v : float) : Prop :=
  v = 0%float \/ exists y x, y < r /\ x < c /\ v = get2 img y x.

Definition allSampled (r c : nat) (img out : image) : Prop :=
  shaped r c out /\ forall i j, i < r -> j < c -> sampled r c img (get2 out i j).

Lemma allSampled_set2 (r c : nat) (img out : image) (i j : nat) (v : float) :
  allSampled r c img out -> i < r -> j < c -> sampled r c img v ->
  allSampled r c img (set2 out i j v).
Proof.
  intros [Hshape Hall] Hi Hj Hv. split; [now apply shaped_set2|].
  intros i' j' Hi' Hj'. rewrite (get2_set2_shaped r c) by assumption.
  destruct ((i' =? i) && (j' =? j)); [exact Hv|now apply Hall].
Qed.

Section Sampling.
Variables (Math_cos Math_sin : float -> float).

Lemma imageRotation_samples (r c : nat) (img : image) (angleDegrees : float) :
  shaped r c img -> 1 <= r ->
  (Z.of_nat r < 2 ^ 32)%Z -> (Z.of_nat c < 2 ^ 32)%Z ->
  exists out,
    imageRotation Math_cos Math_sin img angleDegrees = Ok out /\
    allSampled r c img out.
Proof.
  intros Himg Hr Hrb Hcb. unfold imageRotation.
  destruct Himg as [Hlen Hrow].
  assert (Hfirst : firstRowLength img = Ok c).
  { destruct img as [|r0 img']; cbn [length] in Hlen; [lia|].
    cbn [firstRowLength]. f_equal. apply (Hrow 0). lia. }
  rewrite Hfirst, Hlen. cbn [bind].
  eexists. split; [reflexivity|].
  apply (for_range_preserves (allSampled r c img)).
  - split; [apply shaped_zeros|]. intros i j Hi Hj. left.
    exact (get2_zeros (H := float_Number) r c i j Hi Hj).
  - intros y N Hy HN. apply (for_range_preserves (allSampled r c img)); [exact HN|].
    intros x N' Hx HN'.
    match goal with
    | |- allSampled r c img
           (if PrimFloat.leb 0 ?xi && PrimFloat.ltb ?xi _
               && PrimFloat.leb 0 ?yi && PrimFloat.ltb ?yi _ then _ else _) =>
        destruct (PrimFloat.leb 0 xi) eqn:Hx0; cbn [andb]; [|exact HN'];
        destruct (PrimFloat.ltb xi (of_nat c)) eqn:Hx1; cbn [andb]; [|exact HN'];
        destruct (PrimFloat.leb 0 yi) eqn:Hy0; cbn [andb]; [|exact HN'];
        destruct (PrimFloat.ltb yi (of_nat r)) eqn:Hy1; cbn [andb]; [|exact HN'];
        destruct (rounded_index _ c Hcb Hx0 Hx1) as (xk & Hxi & Hxk);
        destruct (rounded_index _ r Hrb Hy0 Hy1) as (yk & Hyi & Hyk)
    end.
    apply allSampled_set2; [exact HN'|lia|lia|].
    right. exists yk, xk. split; [exact Hyk|]. split; [exact Hxk|].
    unfold pixel. now rewrite Hyi, Hxi.
Qed.
End Sampling.

End SamplingFacts.

(** * The order of doubles away from NaN *)

Module OrderFacts.
Import FloatFacts.







End OrderFacts.

(** * The inverse of a scaled permutation matrix *)

Module ScaledPermutations.
Import MatrixOperations ArrayLemmas Binary64 DoubleFacts.

(** The double [2^k]. *)
Definition twoTo (k : Z) : float := Z.ldexp 1 k.





(** The entries of the elimination: [0], and the powers of two. *)
Definition value (x : float) : Prop :=
  x = 0%float \/ exists k, (-33 <= k <= 33)%Z /\ x = twoTo k.















Section Elimination.
Variables (n : nat) (sigma tau : nat -> nat) (k : nat -> Z).
Hypothesis Hsigma : forall i, i < n -> sigma i < n /\ tau (sigma i) = i.
Hypothesis Htau : forall j, j < n -> tau j < n /\ sigma (tau j) = j.
Hypothesis Hk : forall i, i < n -> (-33 <= k i <= 33)%Z.

(** The augmented matrix before column [c]: row [p] holds the row [rho p] of
    [[A | I]], divided by its pivot when [p < c]. *)
Definition entry (c : nat) (rho : nat -> nat) (p j : nat) : float :=
  if j <? n
  then (if j =? sigma (rho p)
        then (if p <? c then 1%float else twoTo (k (rho p))) else 0%float)
  else (if j - n =? rho p
        then (if p <? c then twoTo (- k (rho p)) else 1%float) else 0%float).

Definition state (c : nat) (M : matrix float) : Prop :=
  exists rho rho' : nat -> nat,
    (forall p, p < n -> rho p < n /\ rho' (rho p) = p) /\
    (forall i, i < n -> rho' i < n /\ rho (rho' i) = i) /\
    (forall p, p < c -> rho p = tau p) /\
    shaped n (2 * n) M /\
    forall p j, p < n -> j < 2 * n -> get2 M p j = entry c rho p j.




End Elimination.




End ScaledPermutations.

(** * The system of the identity matrix *)

Module IdentitySystem.
Import MatrixOperations ArrayLemmas Binary64 DoubleFacts IdentityFacts.

(** Subtracting a zero changes no double other than -0. *)
Lemma sub_zero (z x : float) : isZero z -> x <> (-0)%float -> (x - z)%float = x.
Proof.
  intros Hz Hx. apply Prim2SF_inj. rewrite FloatAxioms.sub_spec.
  assert (Hsx : Prim2SF x <> S754_zero true).
  { intros E. apply Hx. apply Prim2SF_inj. rewrite E. reflexivity. }
  destruct Hz as [-> | ->];
    [change (Prim2SF 0) with (S754_zero false)
    |change (Prim2SF (-0)) with (S754_zero true)];
    destruct (Prim2SF x) as [[|]|s| |s m e]; try reflexivity; congruence.
Qed.

Lemma plain_unit (i j : nat) : plain (if i =? j then 1%float else 0%float).
Proof. destruct (i =? j); split; try exact I; discriminate. Qed.

Section System.
Variables (n : nat) (b : list float).
Hypothesis Hlength : length b = n.
Hypothesis Hplain : forall i, i < n -> plain (get b i).

(** The entries of [[I | b]]. *)
Definition unitSystem (i j : nat) : float :=
  if j <? n then (if i =? j then 1%float else 0%float) else get b i.

Definition isUnitSystem (M : matrix float) : Prop :=
  shaped n (n + 1) M /\
  forall i j, i < n -> j < n + 1 -> get2 M i j = unitSystem i j.

Lemma augmentVector_unitSystem : isUnitSystem (augmentVector (identityMatrix n) b).
Proof.
  destruct (SolverFacts.augmentVector_entries n (identityMatrix n : matrix float) b
              (identity_shaped n)) as [Hshape Hentries].
  split; [exact Hshape|]. intros i j Hi Hj. rewrite Hentries by assumption.
  unfold unitSystem. destruct (Nat.ltb_spec j n); [|reflexivity].
  now apply identity_entries.
Qed.

Lemma unitSystem_plain (i j : nat) : i < n -> plain (unitSystem i j).
Proof.
  intros Hi. unfold unitSystem. destruct (j <? n); [apply plain_unit|now apply Hplain].
Qed.

Lemma unitSystem_diagonal (c : nat) : c < n -> unitSystem c c = 1%float.
Proof.
  intros Hc. unfold unitSystem.
  replace (c <? n) with true by (symmetry; apply Nat.ltb_lt; lia).
  now rewrite Nat.eqb_refl.
Qed.

Lemma unitSystem_column (i c : nat) : c < n -> i <> c -> unitSystem i c = 0%float.
Proof.
  intros Hc Hne. unfold unitSystem.
  replace (c <? n) with true by (symmetry; apply Nat.ltb_lt; lia).
  now replace (i =? c) with false by (symmetry; apply Nat.eqb_neq; lia).
Qed.

Lemma findPivot_unitSystem (c : nat) (M : matrix float) :
  isUnitSystem M -> c < n -> findPivot M n c = c.
Proof.
  intros [HM Hm] Hc. unfold findPivot.
  loop_invariant (fun (r : nat) (maxRow : nat) => maxRow = c).
  - lia.
  - reflexivity.
  - intros r maxRow Hr ->.
    rewrite !Hm by lia. rewrite unitSystem_diagonal, unitSystem_column by lia.
    reflexivity.
  - exact Hinv.
Qed.

(** A row minus zero times the pivot row is the row. *)
Lemma row_unchanged (x y : float) :
  plain x -> plain y -> (x - (0 / 1) * y)%float = x.
Proof.
  intros [_ Hx] [Hy _]. change (0 / 1)%float with 0%float.
  apply sub_zero; [|exact Hx].
  apply (zero_mul 0%float y); [now left|exact Hy].
Qed.

Lemma solverStep_unitSystem (c : nat) (M : matrix float) :
  isUnitSystem M -> c < n -> solverStep n c M = Ok M.
Proof.
  intros HM Hc. unfold solverStep. rewrite (findPivot_unitSystem c M HM Hc).
  pose proof HM as [Hshape Hm].
  destruct (InverseFacts.swapRows_entries n (n + 1) M c c Hshape Hc Hc)
    as [Hsw Hswe].
  assert (Hswap : swapRows M c c = M).
  { apply (shaped_ext n (n + 1)); [assumption|assumption|].
    intros i j Hi Hj. rewrite Hswe. now destruct (i =? c) eqn:E;
      [apply Nat.eqb_eq in E; subst i|]. }
  rewrite Hswap. rewrite Hm by lia. rewrite unitSystem_diagonal by assumption.
  change (ltb (abs 1%float) tolerance) with false. cbv iota.
  destruct (SolverFacts.solverEliminate_entries n c M Hshape Hc) as [Hel Hele].
  f_equal. apply (shaped_ext n (n + 1)); [assumption|assumption|].
  intros i j Hi Hj. rewrite Hele by assumption.
  destruct ((c <? i) && (c <=? j)) eqn:E; [|reflexivity].
  apply andb_prop in E. destruct E as [Eci _]. apply Nat.ltb_lt in Eci.
  rewrite !Hm by lia. rewrite (unitSystem_column i c), unitSystem_diagonal by lia.
  cbn [sub mul div float_Number].
  apply row_unchanged; apply unitSystem_plain; lia.
Qed.

Lemma elimination_of_unitSystem (M : matrix float) :
  isUnitSystem M -> for_range_try 0 n (solverStep n) M = Ok M.
Proof.
  intros HM.
  destruct (for_range_try_returns (fun t => t = M) 0 n (solverStep n)
              (fun _ t => t) M eq_refl) as [Hrun Hend].
  { intros i t Hi ->. split; [|reflexivity]. apply solverStep_unitSystem; [assumption|lia]. }
  rewrite Hrun. now rewrite Hend.
Qed.

(** Back substitution reads the right-hand side. *)
Lemma backSubstitute_unitSystem (M : matrix float) :
  isUnitSystem M -> backSubstitute n M = b.
Proof.
  intros [HM Hm].
  assert (Hall : length (backSubstitute n M) = n /\
                 forall j, 0 <= j < n -> get (backSubstitute n M) j = get b j).
  { unfold backSubstitute.
    apply (SolverFacts.fold_down_invariant
             (fun i (x : list float) =>
                length x = n /\ forall j, i <= j < n -> get x j = get b j)).
    - split; [apply repeat_length|]. intros j Hj. lia.
    - intros i x Hi [Hlen Hx]. cbv zeta.
      assert (Hinner : length (for_range (i + 1) n (fun j x =>
                  set x i (sub (get x i) (mul (get2 M i j) (get x j))))
                  (set x i (get2 M i n))) = n /\
               forall j, i <= j < n ->
                 get (for_range (i + 1) n (fun j x =>
                  set x i (sub (get x i) (mul (get2 M i j) (get x j))))
                  (set x i (get2 M i n))) j = get b j).
      { apply (for_range_invariant
                 (fun (_ : nat) (y : list float) =>
                    length y = n /\ forall j, i <= j < n -> get y j = get b j));
          try lia.
        - split; [rewrite set_length; lia|].
          intros j Hj. rewrite get_set by lia.
          destruct (Nat.eqb_spec j i) as [->|Hne]; [|apply Hx; lia].
          rewrite Hm by lia. unfold unitSystem.
          now replace (n <? n) with false by (symmetry; apply Nat.ltb_ge; lia).
        - intros j0 y Hj0 [Hleny Hy]. split; [rewrite set_length; lia|].
          intros j Hj. rewrite get_set by lia.
          destruct (Nat.eqb_spec j i) as [->|Hne]; [|apply Hy; lia].
          rewrite Hm by lia. rewrite unitSystem_column by lia.
          rewrite !Hy by lia. cbn [sub mul float_Number].
          apply sub_zero; [|apply Hplain; lia].
          apply (zero_mul 0%float (get b j0)); [now left|apply Hplain; lia]. }
      destruct Hinner as [Hleni Hgeti].
      split; [rewrite set_length; lia|].
      intros j Hj. rewrite get_set by lia.
      destruct (Nat.eqb_spec j i) as [->|Hne]; [|apply Hgeti; lia].
      rewrite (Hm i i) by lia. rewrite unitSystem_diagonal by lia.
      rewrite Hgeti by lia. cbn [div float_Number]. apply div_one. }
  destruct Hall as [Hlen Hget].
  apply (nth_ext_eq _ _ undef); [now rewrite Hlen|].
  intros j Hj. rewrite Hlen in Hj. apply Hget. lia.
Qed.

Lemma linearEquationSolver_identity : linearEquationSolver (identityMatrix n) b = Ok b.
Proof.
  unfold linearEquationSolver.
  assert (Hlen : length (identityMatrix n : matrix float) = n)
    by apply (identity_shaped n).
  rewrite Hlen.
  pose proof augmentVector_unitSystem as HJ.
  rewrite (elimination_of_unitSystem _ HJ). cbn [bind].
  now rewrite (backSubstitute_unitSystem _ HJ).
Qed.

End System.
End IdentitySystem.

(** * Comparing computed results *)

(** Two doubles within 1e-6 of each other. *)
Definition within_1e6 (x y : float) : bool :=
  PrimFloat.leb (PrimFloat.abs (x - y)) 1e-6.

(** The rational [n / d]. *)
Definition ratio (n : Z) (d : positive) : Qc := Q2Qc (n # d).

(** Equality of computed results over the rationals: two canonical
    rationals are equal as soon as their fractions are. *)
Ltac exact_equal :=
  repeat match goal with
         | |- Ok _ = Ok _ => apply f_equal
         | |- (_, _) = (_, _) => apply f_equal2
         | |- _ :: _ = _ :: _ => apply f_equal2
         | |- @eq (list _) [] [] => reflexivity
         | |- @eq Qc _ _ => apply Qc_is_canon; reflexivity
         end.

(** * The claims *)

Import MatrixOperations SignalProcessing.

(** C6, counterexample.  With an empty signal and an empty kernel the output
    length is -1, [Array(-1)] throws a [RangeError], and no array is
    returned. *)
Lemma convolution1d_empty_inputs_throw :
  convolution1d ([] : list float) [] = Throw RangeError /\
  ~ exists out : list float, convolution1d [] [] = Ok out.
Proof.
  split; [reflexivity|]. intros [out Hout]. discriminate Hout.
Qed.

(** C6, amended.  For every signal and kernel of doubles that are not both
    empty, [convolution1d] returns an array of length
    [len(signal) + len(kernel) - 1] whose entry [i] is the sum of
    [kernel[j] * signal[i - j]] over the taps [j] with [i - j] an index of the
    signal (the others contribute nothing); and
    [convolution1d([1,2,3],[1])] is [[1,2,3]]. *)
Theorem convolution1d_full_length_and_sum (signal kernel : list float) :
  1 <= length signal + length kernel ->
  (exists out : list float,
     convolution1d signal kernel = Ok out /\
     length out = length signal + length kernel - 1 /\
     forall i, i < length signal + length kernel - 1 ->
       get out i = ConvolutionFacts.convolutionSum signal kernel i) /\
  convolution1d [1; 2; 3]%float [1%float] = Ok [1; 2; 3]%float.
Proof.
  intros Hlen. split.
  - apply (ConvolutionFacts.convolution1d_spec (H := float_Number));
      [exact FloatFacts.mul_comm|exact Hlen].
  - reflexivity.
Qed.

Lemma convolution1d_full_length_and_sum_witness :
  (exists out : list float,
     convolution1d [1; 2; 3; 4; 5]%float [1; 0; -1]%float = Ok out /\
     length out = 7 /\
     forall i, i < 7 ->
       get out i = ConvolutionFacts.convolutionSum [1; 2; 3; 4; 5]%float [1; 0; -1]%float i) /\
  convolution1d [1; 2; 3]%float [1%float] = Ok [1; 2; 3]%float.
Proof.
  apply (convolution1d_full_length_and_sum [1; 2; 3; 4; 5]%float [1; 0; -1]%float).
  simpl. lia.
Defined.



(** C9.  On doubles: whenever [(L, U)] is a Doolittle pair of [A] whose
    pivots [U[j][j]] before the last column are not below 1e-10 in magnitude,
    [luDecomposition(A)] returns [(L, U)]; nothing is asked of the last pivot
    [U[n-1][n-1]], which may be zero. *)
Theorem luDecomposition_ignores_last_pivot (A L U : matrix float) :
  LUFacts.Doolittle A (length A) L U ->
  (forall j, j + 1 < length A -> ltb (abs (get2 U j j)) tolerance = false) ->
  luDecomposition A = Ok (L, U).
Proof. apply LUFacts.luDecomposition_complete. Qed.

(** The matrix [[1, 2], [2, 4]] is singular and its last Doolittle pivot is 0. *)
Lemma luDecomposition_ignores_last_pivot_witness :
  get2 [[1; 2]; [0; 0]]%float 1 1 = 0%float /\
  luDecomposition [[1; 2]; [2; 4]]%float
  = Ok ([[1; 0]; [2; 1]]%float, [[1; 2]; [0; 0]]%float).
Proof.
  split; [reflexivity|].
  apply (luDecomposition_ignores_last_pivot
           [[1; 2]; [2; 4]]%float [[1; 0]; [2; 1]]%float [[1; 2]; [0; 0]]%float).
  - assert (Hshape : forall M : matrix float,
              length M = 2 -> length (row M 0) = 2 -> length (row M 1) = 2 ->
              ArrayLemmas.shaped 2 2 M).
    { intros M H0 H1 H2. split; [exact H0|].
      intros i Hi. destruct i as [|[|i]]; [exact H1|exact H2|lia]. }
    split; [now apply Hshape|]. split; [now apply Hshape|].
    split; [|split; [|split]].
    + intros i c Hi Hc. simpl in Hi, Hc.
      destruct i as [|[|i]]; destruct c as [|[|c]]; try lia;
        (split; intros Hic; try lia; try discriminate; reflexivity).
    + intros i c Hi Hc Hlt. simpl in Hi, Hc.
      destruct i as [|[|i]]; destruct c as [|[|c]]; try lia; reflexivity.
    + intros i c Hic Hc. simpl in Hc.
      destruct i as [|[|i]]; destruct c as [|[|c]]; try lia; reflexivity.
    + intros i c Hci Hi Hc. simpl in Hi, Hc.
      destruct i as [|[|i]]; destruct c as [|[|c]]; try lia; reflexivity.
  - intros j Hj. simpl in Hj. destruct j as [|j]; [reflexivity|lia].
Defined.

(** C7, counterexample.  [identityMatrix(0)] is the empty matrix, on which
    the expansion loop has no turn: [matrixDeterminant] returns 0, not 1. *)
Lemma determinant_of_empty_identity :
  matrixDeterminant (identityMatrix 0 : matrix float) = 0%float /\
  matrixDeterminant (identityMatrix 0 : matrix float) <> 1%float.
Proof.
  split; [reflexivity|]. intros Heq.
  apply IdentityDeterminant.one_not_zero. symmetry. exact Heq.
Qed.

(** C7, amended.  For every [n >= 1], on doubles,
    [matrixDeterminant(identityMatrix(n))] is exactly 1. *)
Theorem determinant_of_identity (n : nat) :
  1 <= n -> matrixDeterminant (identityMatrix n : matrix float) = 1%float.
Proof. apply IdentityDeterminant.determinant_identity. Qed.

Lemma determinant_of_identity_witness :
  matrixDeterminant (identityMatrix 4 : matrix float) = 1%float.
Proof. apply (determinant_of_identity 4). lia. Defined.

(** C5, counterexample.  On [[1, 1e12], [1, 0.1]] the decomposition returns
    [L = [[1, 0], [1, 1]]] and [U = [[1, 1e12], [0, -999999999999.9]]], the
    last entry rounded to a double, and [matrixMultiply(L, U)] has
    0.0999755859375 where the matrix has 0.1: they differ by more than 1e-6. *)
Lemma luDecomposition_product_not_within_tolerance :
  exists L U P : matrix float,
    luDecomposition [[1; 1e12]; [1; 0.1]]%float = Ok (L, U) /\
    matrixMultiply L U = Ok P /\
    get2 P 1 1 = 0.0999755859375%float /\
    within_1e6 (get2 P 1 1) 0.1 = false.
Proof.
  eexists. eexists. eexists.
  split; [vm_compute; reflexivity|].
  split; [vm_compute; reflexivity|].
  split; reflexivity.
Qed.

(** C5, amended.  On doubles, a decomposition that returns gives [L] lower
    triangular with unit diagonal and [U] upper triangular whose entries
    satisfy the Doolittle recursion, each sum added in double arithmetic from
    [k = 0] upward; [luDecomposition] throws exactly when a column [j] that is
    not the last has [|U[j][j]| < 1e-10], and it throws ZeroPivot.  The
    product [matrixMultiply(L, U)] is the matrix itself when the same
    computation is made in exact rational arithmetic on a square matrix with
    at least one row; in double arithmetic it is so up to the rounding of
    each operation only, for which 1e-6 is no bound. *)
Theorem luDecomposition_doolittle :
  (forall A L U : matrix float,
     luDecomposition A = Ok (L, U) ->
     LUFacts.Doolittle A (length A) L U) /\
  (forall (A : matrix float) (e : exn),
     luDecomposition A = Throw e <->
     e = ZeroPivot /\
     exists j LU,
       j + 1 < length A /\
       for_range_try 0 j (luColumn A (length A)) (luInit (length A)) = Ok LU /\
       ltb (abs (LUFacts.pivotOfColumn A j LU)) tolerance = true) /\
  (forall A L U : matrix Qc,
     ArrayLemmas.shaped (length A) (length A) A -> 1 <= length A ->
     luDecomposition A = Ok (L, U) ->
     matrixMultiply L U = Ok A).
Proof.
  split; [|split].
  - intros A L U Hrun. now apply LUFacts.luDecomposition_sound.
  - intros A e. apply LUFacts.luDecomposition_throws.
  - apply ExactFacts.luDecomposition_product.
Qed.

Lemma luDecomposition_doolittle_witness :
  LUFacts.Doolittle [[4; 3]; [6; 3]]%float 2
    [[1; 0]; [1.5; 1]]%float [[4; 3]; [0; -1.5]]%float /\
  matrixMultiply [[ratio 1 1; ratio 0 1]; [ratio 3 2; ratio 1 1]]
                 [[ratio 4 1; ratio 3 1]; [ratio 0 1; ratio (-3) 2]]
  = Ok [[ratio 4 1; ratio 3 1]; [ratio 6 1; ratio 3 1]].
Proof.
  split.
  - apply (proj1 luDecomposition_doolittle [[4; 3]; [6; 3]]%float). reflexivity.
  - apply (proj2 (proj2 luDecomposition_doolittle)
             [[ratio 4 1; ratio 3 1]; [ratio 6 1; ratio 3 1]]).
    + split; [reflexivity|]. intros i Hi. simpl in Hi.
      destruct i as [|[|i]]; [reflexivity|reflexivity|lia].
    + simpl. lia.
    + vm_compute. exact_equal.
Defined.

(** C2, the failing input.  On the empty array [fft] passes both tests
    ([0 === 1] is false, [0 % 2 !== 0] is false) and calls itself on the two
    empty halves: it never returns, and in particular never throws
    InvalidLength, although 0 is neither 1 nor a power of two. *)
Theorem fft_of_empty_input_does_not_return
    (Math_cos Math_sin : float -> float) (Math_PI : float) (fuel : nat) :
  fft Math_cos Math_sin Math_PI fuel ([] : list float) = None.
Proof. apply FourierFacts.fft_empty. Qed.

(** X1, the other inputs of C2.  On a non-empty array of doubles [fft] throws
    InvalidLength exactly when the length is not a power of two (1 = 2^0
    included), and otherwise returns [{real, imag}] with both arrays of the
    length of the input. *)
Lemma fft_of_nonempty_input
    (Math_cos Math_sin : float -> float) (Math_PI : float) (x : list float) :
  1 <= length x ->
  ((exists fuel, fft Math_cos Math_sin Math_PI fuel x = Some (Throw InvalidLength))
   <-> ~ FourierFacts.powerOfTwo (length x)) /\
  (FourierFacts.powerOfTwo (length x) ->
   exists fuel X,
     fft Math_cos Math_sin Math_PI fuel x = Some (Ok X) /\
     length (real X) = length x /\ length (imag X) = length x).
Proof.
  intros Hpos.
  exact (FourierFacts.fft_on_nonempty Math_cos Math_sin Math_PI x Hpos).
Qed.

Lemma fft_of_nonempty_input_witness :
  1 <= length [1; 2; 3; 4]%float /\
  ((exists fuel, fft (fun _ => 1%float) (fun _ => 0%float) Math_PI fuel
                   [1; 2; 3; 4]%float = Some (Throw InvalidLength))
   <-> ~ FourierFacts.powerOfTwo (length [1; 2; 3; 4]%float)) /\
  (FourierFacts.powerOfTwo (length [1; 2; 3; 4]%float) ->
   exists fuel X,
     fft (fun _ => 1%float) (fun _ => 0%float) Math_PI fuel [1; 2; 3; 4]%float
     = Some (Ok X) /\
     length (real X) = length [1; 2; 3; 4]%float /\
     length (imag X) = length [1; 2; 3; 4]%float).
Proof.
  split; [simpl; lia|].
  apply (fft_of_nonempty_input (fun _ => 1%float) (fun _ => 0%float) Math_PI
           [1; 2; 3; 4]%float).
  simpl; lia.
Defined.

(** C8.  On doubles, [ifft(X)] is [fft(X.real)] with every entry of its real
    part divided by [n = len(X.real)], at every depth of the calls; it is
    the same whatever the imaginary part of [X] is; and when [n] is a power
    of two it returns an array of length [n]. *)
Theorem ifft_is_scaled_fft_of_real_part
    (Math_cos Math_sin : float -> float) (Math_PI : float) (X : spectrum float) :
  (forall fuel,
     ifft Math_cos Math_sin Math_PI fuel X =
     match fft Math_cos Math_sin Math_PI fuel (real X) with
     | None => None
     | Some (Throw e) => Some (Throw e)
     | Some (Ok Y) =>
         Some (Ok (map (fun v => div v (of_nat (length (real X)))) (real Y)))
     end) /\
  (forall fuel (otherImag : list float),
     ifft Math_cos Math_sin Math_PI fuel {| real := real X; imag := otherImag |} =
     ifft Math_cos Math_sin Math_PI fuel X) /\
  (FourierFacts.powerOfTwo (length (real X)) ->
   exists fuel out,
     ifft Math_cos Math_sin Math_PI fuel X = Some (Ok out) /\
     length out = length (real X)).
Proof.
  split; [|split].
  - intros fuel. apply FourierFacts.ifft_forward_real.
  - intros fuel otherImag. now rewrite !FourierFacts.ifft_forward_real.
  - intros Hpow.
    assert (Hpos : 1 <= length (real X)).
    { destruct Hpow as [k ->]. clear. induction k; simpl; lia. }
    destruct (FourierFacts.fft_on_nonempty Math_cos Math_sin Math_PI (real X) Hpos)
      as [_ Hok].
    destruct (Hok Hpow) as (fuel & Y & Hrun & Hlen & _).
    exists fuel. eexists. split.
    + rewrite FourierFacts.ifft_forward_real, Hrun. reflexivity.
    + now rewrite length_map.
Qed.

(** C1, the failing inputs.  On every rectangular image with at least one
    pixel (and fewer than [2^53] pixels) whose pixels all round and clamp to
    the same level [k], [histogramEqualization] returns an image of the same
    shape that holds NaN in every pixel: [cdfMin] equals [totalPixels], entry
    [k] of the lookup table is [Math.round(0 * 255 / 0)], the division by
    zero is not guarded and the mapping is not the identity. *)
Theorem histogramEqualization_constant_image
    (img : image) (rows cols k : nat) :
  ArrayLemmas.shaped rows cols img -> 1 <= rows -> 1 <= cols ->
  (Z.of_nat (rows * cols) < 2 ^ 53)%Z ->
  k < 256 ->
  (forall i j, i < rows -> j < cols -> clampPixel (get2 img i j) = of_nat k) ->
  exists out,
    histogramEqualization img = Ok out /\
    ArrayLemmas.shaped rows cols out /\
    forall i j, i < rows -> j < cols -> get2 out i j = nan.
Proof.
  intros Hshape Hrows Hcols Hsize Hk Hlevel.
  apply (HistogramFacts.histogramEqualization_constant img rows cols k);
    try assumption.
  nia.
Qed.

(** The theorem at [[5, 5], [5, 5]], every pixel at level 5: the call returns
    [[NaN, NaN], [NaN, NaN]]. *)
Lemma histogramEqualization_constant_image_witness :
  (ArrayLemmas.shaped 2 2 [[5; 5]; [5; 5]]%float /\
   forall i j, i < 2 -> j < 2 ->
     clampPixel (get2 [[5; 5]; [5; 5]]%float i j) = of_nat 5) /\
  (exists out,
     histogramEqualization [[5; 5]; [5; 5]]%float = Ok out /\
     ArrayLemmas.shaped 2 2 out /\
     forall i j, i < 2 -> j < 2 -> get2 out i j = nan) /\
  histogramEqualization [[5; 5]; [5; 5]]%float = Ok [[nan; nan]; [nan; nan]] /\
  ((0 * 255) / (4 - 4))%float = nan /\
  Math_round nan = nan.
Proof.
  assert (Hshape : ArrayLemmas.shaped 2 2 [[5; 5]; [5; 5]]%float).
  { split; [reflexivity|]. intros i Hi.
    destruct i as [|[|i]]; [reflexivity|reflexivity|lia]. }
  assert (Hlevel : forall i j, i < 2 -> j < 2 ->
            clampPixel (get2 [[5; 5]; [5; 5]]%float i j) = of_nat 5).
  { intros i j Hi Hj.
    destruct i as [|[|i]]; [| |lia]; (destruct j as [|[|j]]; [| |lia]);
      vm_compute; reflexivity. }
  split; [split; assumption|]. split.
  - apply (histogramEqualization_constant_image [[5; 5]; [5; 5]]%float 2 2 5);
      [exact Hshape|lia|lia|reflexivity|lia|exact Hlevel].
  - repeat split; vm_compute; reflexivity.
Defined.




(** ** C10: rotation by 0 degrees *)

(** C10, counterexample.  An image without rows is a rectangular image, and
    [image[0].length] fails on it before any angle is looked at: the call
    throws a [TypeError] and returns no matrix, whatever [Math.cos] and
    [Math.sin] are (here the constant functions 1 and 0). *)
Lemma imageRotation_of_image_without_rows :
  imageRotation (fun _ => 1%float) (fun _ => 0%float) [] 0 = Throw TypeError /\
  imageRotation (fun _ => 1%float) (fun _ => 0%float) [] 0 <> Ok [].
Proof. split; [reflexivity|discriminate]. Qed.

(** C10.  With [Math.cos(0) = 1] and [Math.sin(0) = 0], for every rectangular
    image of [rows >= 1] rows and [cols] columns (array lengths are below
    [2^32]), [imageRotation(image, 0)] returns the image: every source
    coordinate is computed without rounding error and is the destination
    pixel itself, so that every pixel is copied to its own place. *)
Theorem imageRotation_by_zero_degrees (Math_cos Math_sin : float -> float)
    (rows cols : nat) (img : image) :
  Math_cos 0%float = 1%float -> Math_sin 0%float = 0%float ->
  ArrayLemmas.shaped rows cols img -> 1 <= rows ->
  (Z.of_nat rows < 2 ^ 32)%Z -> (Z.of_nat cols < 2 ^ 32)%Z ->
  imageRotation Math_cos Math_sin img 0 = Ok img.
Proof.
  intros cos_zero sin_zero Himg Hrows Hr Hc. unfold imageRotation.
  destruct Himg as [Hlen Hrow].
  assert (Hfirst : firstRowLength img = Ok cols).
  { destruct img as [|r0 img']; cbn [length] in Hlen; [lia|].
    cbn [firstRowLength]. f_equal. apply (Hrow 0). lia. }
  rewrite Hfirst. cbn [bind]. rewrite Hlen.
  change (0 * Math_PI / 180)%float with 0%float.
  rewrite cos_zero, sin_zero. f_equal.
  rewrite (for_range_ext 0 rows _
             (fun y result => for_range 0 cols
                (fun x result => set2 result y x (get2 img y x)) result)).
  - destruct (PixelFacts.fill_image rows cols (get2 img) (zeros rows cols))
      as [HR Hget].
    { apply ArrayLemmas.shaped_zeros. }
    apply (ArrayLemmas.shaped_ext rows cols); [assumption|now split|assumption].
  - intros y result Hy. apply for_range_ext. intros x result' Hx.
    rewrite PixelFacts.source_x, PixelFacts.source_y by lia.
    destruct (PixelFacts.whole_in_range x cols) as (-> & -> & Hix); [lia|lia|].
    destruct (PixelFacts.whole_in_range y rows) as (-> & -> & Hiy); [lia|lia|].
    cbn [andb]. unfold pixel. now rewrite Hix, Hiy.
Qed.

(** The theorem at the 2 x 3 image [[1, 2, 3], [4, 5, 6]]. *)
Lemma imageRotation_by_zero_degrees_witness :
  ArrayLemmas.shaped 2 3 [[1; 2; 3]; [4; 5; 6]]%float /\
  imageRotation (fun _ => 1%float) (fun _ => 0%float)
    [[1; 2; 3]; [4; 5; 6]]%float 0
  = Ok [[1; 2; 3]; [4; 5; 6]]%float.
Proof.
  assert (Hshape : ArrayLemmas.shaped 2 3 [[1; 2; 3]; [4; 5; 6]]%float).
  { split; [reflexivity|]. intros i Hi.
    destruct i as [|[|i]]; [reflexivity|reflexivity|lia]. }
  split; [exact Hshape|].
  apply (imageRotation_by_zero_degrees (fun _ => 1%float) (fun _ => 0%float) 2 3);
    [reflexivity|reflexivity|exact Hshape|lia|reflexivity|reflexivity].
Defined.

(** ** X2: the entries of a product *)

(** X2.  For an [r x m] matrix [A] and an [m x c] matrix [B] of doubles with
    [r >= 1] and [m >= 1], [matrixMultiply(A, B)] returns an [r x c] matrix
    whose entry [(i, j)] is the sum of the products [A[i][k] * B[k][j]],
    added in double arithmetic to 0 from [k = 0] upward. *)
Theorem matrixMultiply_entries (A B : matrix float) (r m c : nat) :
  ArrayLemmas.shaped r m A -> ArrayLemmas.shaped m c B -> 1 <= r -> 1 <= m ->
  exists P,
    matrixMultiply A B = Ok P /\
    ArrayLemmas.shaped r c P /\
    forall i j, i < r -> j < c ->
      get2 P i j
      = for_range 0 m (fun k sum => (sum + get2 A i k * get2 B k j)%float) 0%float.
Proof.
  intros HA HB Hr Hm.
  exact (ProductFacts.matrixMultiply_spec A B r m c HA HB Hr Hm).
Qed.

(** The theorem at the product of the test suite,
    [[1, 2], [3, 4]] * [[5, 6], [7, 8]] = [[19, 22], [43, 50]]. *)
Lemma matrixMultiply_entries_witness :
  (ArrayLemmas.shaped 2 2 [[1; 2]; [3; 4]]%float /\
   ArrayLemmas.shaped 2 2 [[5; 6]; [7; 8]]%float) /\
  (exists P,
     matrixMultiply [[1; 2]; [3; 4]]%float [[5; 6]; [7; 8]]%float = Ok P /\
     ArrayLemmas.shaped 2 2 P /\
     forall i j, i < 2 -> j < 2 ->
       get2 P i j
       = for_range 0 2
           (fun k sum => (sum + get2 [[1; 2]; [3; 4]] i k
                                * get2 [[5; 6]; [7; 8]] k j)%float) 0%float) /\
  matrixMultiply [[1; 2]; [3; 4]]%float [[5; 6]; [7; 8]]%float
  = Ok [[19; 22]; [43; 50]]%float.
Proof.
  assert (H1 : ArrayLemmas.shaped 2 2 [[1; 2]; [3; 4]]%float).
  { split; [reflexivity|]. intros i Hi.
    destruct i as [|[|i]]; [reflexivity|reflexivity|lia]. }
  assert (H2 : ArrayLemmas.shaped 2 2 [[5; 6]; [7; 8]]%float).
  { split; [reflexivity|]. intros i Hi.
    destruct i as [|[|i]]; [reflexivity|reflexivity|lia]. }
  split; [split; assumption|]. split.
  - apply (matrixMultiply_entries [[1; 2]; [3; 4]]%float [[5; 6]; [7; 8]]%float 2 2 2);
      [exact H1|exact H2|lia|lia].
  - vm_compute. reflexivity.
Defined.

(** * Further properties of the matrix functions *)

(** X3.  [dotProduct(a, b)] throws, and then the error 'Vectors must have
    the same length', exactly when the two lengths differ; and on doubles
    [dotProduct(a, b)] and [dotProduct(b, a)] are the same result, error or
    number. *)
Theorem dotProduct_mismatch_and_symmetry (a b : list float) :
  (forall e, dotProduct a b = Throw e <->
             e = LengthMismatch /\ length a <> length b) /\
  dotProduct a b = dotProduct b a.
Proof.
  split.
  - intros e. apply VectorFacts.dotProduct_throws.
  - apply (VectorFacts.dotProduct_symmetric (H := float_Number)).
    exact FloatFacts.mul_comm.
Qed.

(** X4.  On an [r x c] matrix of doubles with [r >= 1] and [c >= 1],
    [matrixTranspose] returns the [c x r] matrix whose entry [(j, i)] is the
    entry [(i, j)] of the matrix, and transposing what it returns gives the
    matrix back. *)
Theorem matrixTranspose_round_trip (r c : nat) (m : matrix float) :
  ArrayLemmas.shaped r c m -> 1 <= r -> 1 <= c ->
  exists t,
    matrixTranspose m = Ok t /\
    ArrayLemmas.shaped c r t /\
    (forall i j, i < r -> j < c -> get2 t j i = get2 m i j) /\
    matrixTranspose t = Ok m.
Proof.
  intros Hm Hr Hc.
  destruct (TransposeFacts.matrixTranspose_spec r c m Hm Hr) as (t & Ht & Hshape & Hentries).
  exists t. repeat split; try assumption; try apply Hshape.
  pose proof (TransposeFacts.matrixTranspose_involutive r c m Hm Hr Hc) as Hback.
  now rewrite Ht in Hback.
Qed.

Lemma matrixTranspose_round_trip_witness :
  exists t,
    matrixTranspose [[1; 2; 3]; [4; 5; 6]]%float = Ok t /\
    ArrayLemmas.shaped 3 2 t /\
    (forall i j, i < 2 -> j < 3 ->
       get2 t j i = get2 [[1; 2; 3]; [4; 5; 6]]%float i j) /\
    matrixTranspose t = Ok [[1; 2; 3]; [4; 5; 6]]%float.
Proof.
  apply (matrixTranspose_round_trip 2 3 [[1; 2; 3]; [4; 5; 6]]%float); [|lia|lia].
  split; [reflexivity|]. intros i Hi.
  destruct i as [|[|i]]; [reflexivity|reflexivity|lia].
Defined.

(** X5.  The edges of [matrixTranspose]: a matrix with [r >= 1] rows and no
    column is transposed to the matrix without rows, on which a second
    transposition throws a [TypeError] as on every matrix without rows; the
    round trip holds for no such matrix. *)
Theorem matrixTranspose_without_columns (r : nat) (m : matrix float) :
  ArrayLemmas.shaped r 0 m -> 1 <= r ->
  matrixTranspose m = Ok [] /\
  (t <- matrixTranspose m ;; matrixTranspose t) = Throw TypeError /\
  matrixTranspose ([] : matrix float) = Throw TypeError.
Proof.
  intros Hm Hr.
  destruct (TransposeFacts.matrixTranspose_no_columns r m Hm Hr) as [H1 H2].
  repeat split; assumption || reflexivity.
Qed.

Lemma matrixTranspose_without_columns_witness :
  matrixTranspose ([[]; []] : matrix float) = Ok [] /\
  (t <- matrixTranspose ([[]; []] : matrix float) ;; matrixTranspose t)
  = Throw TypeError /\
  matrixTranspose ([] : matrix float) = Throw TypeError.
Proof.
  apply (matrixTranspose_without_columns 2 [[]; []]); [|lia].
  split; [reflexivity|]. intros i Hi.
  destruct i as [|[|i]]; [reflexivity|reflexivity|lia].
Defined.

(** X6.  For two [r x c] matrices of doubles with [r >= 1], [matrixAdd]
    returns the [r x c] matrix of the sums [A[i][j] + B[i][j]], and
    [matrixAdd(B, A)] returns the same matrix. *)
Theorem matrixAdd_same_shape (r c : nat) (A B : matrix float) :
  ArrayLemmas.shaped r c A -> ArrayLemmas.shaped r c B -> 1 <= r ->
  exists S,
    matrixAdd A B = Ok S /\
    ArrayLemmas.shaped r c S /\
    (forall i j, i < r -> j < c -> get2 S i j = (get2 A i j + get2 B i j)%float) /\
    matrixAdd B A = Ok S.
Proof.
  intros HA HB Hr.
  assert (HlA : length A = r) by apply HA.
  assert (HlB : length B = r) by apply HB.
  exists (VectorFacts.addEntries A B).
  destruct (VectorFacts.addEntries_spec r c A B HA) as [Hshape Hentries].
  split; [apply VectorFacts.matrixAdd_returns; lia|].
  split; [exact Hshape|]. split; [exact Hentries|].
  rewrite <- (VectorFacts.matrixAdd_commutes (H := float_Number) r c A B
               DoubleFacts.add_comm HA HB).
  apply VectorFacts.matrixAdd_returns; lia.
Qed.

Lemma matrixAdd_same_shape_witness :
  exists S,
    matrixAdd [[1; 2]; [3; 4]]%float [[5; 6]; [7; 8]]%float = Ok S /\
    ArrayLemmas.shaped 2 2 S /\
    (forall i j, i < 2 -> j < 2 ->
       get2 S i j = (get2 [[1; 2]; [3; 4]] i j + get2 [[5; 6]; [7; 8]] i j)%float) /\
    matrixAdd [[5; 6]; [7; 8]]%float [[1; 2]; [3; 4]]%float = Ok S.
Proof.
  apply (matrixAdd_same_shape 2 2 [[1; 2]; [3; 4]]%float [[5; 6]; [7; 8]]%float);
    [| |lia];
    (split; [reflexivity|]; intros i Hi;
     destruct i as [|[|i]]; [reflexivity|reflexivity|lia]).
Defined.

(** X7.  [matrixAdd] compares no shapes.  When [A] has a row and [B] has at
    least as many rows as [A], it returns a matrix with the rows of [A], of
    the lengths of the rows of [A], whose entries are [A[i][j] + B[i][j]]
    (NaN where [B] has no such entry); and what it throws is a [TypeError],
    on an [A] without rows or a [B] with fewer rows than [A]. *)
Theorem matrixAdd_compares_no_shape (A B : matrix float) :
  (1 <= length A -> length A <= length B ->
   exists S,
     matrixAdd A B = Ok S /\
     length S = length A /\
     forall i, i < length A ->
       length (row S i) = length (row A i) /\
       forall j, j < length (row A i) ->
         get2 S i j = (get2 A i j + get2 B i j)%float) /\
  (forall e, matrixAdd A B = Throw e ->
     e = TypeError /\ (A = [] \/ length B < length A)).
Proof.
  split.
  - intros HA HB. exists (VectorFacts.addEntries A B).
    split; [now apply VectorFacts.matrixAdd_returns|].
    exact (VectorFacts.addEntries_rows (H := float_Number) A B).
  - intros e. apply VectorFacts.matrixAdd_throws.
Qed.

(** X8.  Multiplying by the scalar 1 returns the matrix itself, whatever
    its rows and entries are (NaN, the infinities and -0 included). *)
Theorem matrixScalarMultiply_by_one (m : matrix float) :
  matrixScalarMultiply m 1%float = m.
Proof. apply VectorFacts.scale_by_one. Qed.

(** X9.  Scaling commutes with transposition: on an [r x c] matrix of
    doubles with [r >= 1], the transpose of the scaled matrix is the scaled
    transpose. *)
Theorem matrixTranspose_of_scaled (r c : nat) (m : matrix float) (s : float) :
  ArrayLemmas.shaped r c m -> 1 <= r ->
  matrixTranspose (matrixScalarMultiply m s)
  = (t <- matrixTranspose m ;; Ok (matrixScalarMultiply t s)).
Proof. apply TransposeFacts.transpose_scaled. Qed.

Lemma matrixTranspose_of_scaled_witness :
  matrixTranspose (matrixScalarMultiply [[1; 2; 3]; [4; 5; 6]]%float 0.1%float)
  = (t <- matrixTranspose [[1; 2; 3]; [4; 5; 6]]%float ;;
     Ok (matrixScalarMultiply t 0.1%float)).
Proof.
  apply (matrixTranspose_of_scaled 2 3 [[1; 2; 3]; [4; 5; 6]]%float 0.1%float); [|lia].
  split; [reflexivity|]. intros i Hi.
  destruct i as [|[|i]]; [reflexivity|reflexivity|lia].
Defined.

(** X10.  The identity matrix is neutral for [matrixMultiply] on doubles:
    for an [r x c] matrix [A] with [r >= 1] and [c >= 1] whose entries are
    finite and none of which is -0, [matrixMultiply(identityMatrix(r), A)]
    and [matrixMultiply(A, identityMatrix(c))] both return [A]. *)
Theorem matrixMultiply_by_identity (r c : nat) (A : matrix float) :
  ArrayLemmas.shaped r c A -> 1 <= r -> 1 <= c ->
  (forall i j, i < r -> j < c -> IdentityFacts.plain (get2 A i j)) ->
  matrixMultiply (identityMatrix r) A = Ok A /\
  matrixMultiply A (identityMatrix c) = Ok A.
Proof.
  intros HA Hr Hc Hplain. split.
  - now apply (IdentityFacts.matrixMultiply_identity_left r c).
  - now apply (IdentityFacts.matrixMultiply_identity_right r c).
Qed.

Lemma matrixMultiply_by_identity_witness :
  matrixMultiply (identityMatrix 2) [[1; 2; 3]; [4; 5; 0.5]]%float
  = Ok [[1; 2; 3]; [4; 5; 0.5]]%float /\
  matrixMultiply [[1; 2; 3]; [4; 5; 0.5]]%float (identityMatrix 3)
  = Ok [[1; 2; 3]; [4; 5; 0.5]]%float.
Proof.
  apply (matrixMultiply_by_identity 2 3 [[1; 2; 3]; [4; 5; 0.5]]%float); [|lia|lia|].
  - split; [reflexivity|]. intros i Hi.
    destruct i as [|[|i]]; [reflexivity|reflexivity|lia].
  - intros i j Hi Hj.
    destruct i as [|[|i]]; [| |lia];
      (destruct j as [|[|[|j]]]; [| | |lia]);
      (split; [exact I|intros Heq; vm_compute in Heq; discriminate]).
Defined.

(** X11.  For every [n], [matrixInverse(identityMatrix(n))] returns
    [identityMatrix(n)], exactly, in double arithmetic. *)
Theorem matrixInverse_of_identity (n : nat) :
  matrixInverse (identityMatrix n : matrix float) = Ok (identityMatrix n).
Proof. apply IdentityFacts.matrixInverse_identity. Qed.

(** X12.  For every [n], [luDecomposition(identityMatrix(n))] returns
    [L = U = identityMatrix(n)], exactly, in double arithmetic. *)
Theorem luDecomposition_of_identity (n : nat) :
  luDecomposition (identityMatrix n : matrix float)
  = Ok (identityMatrix n, identityMatrix n).
Proof. apply IdentityFacts.luDecomposition_identity. Qed.

(** X13.  [vectorNormalize] returns a vector of the length of its argument,
    and on a vector all of whose entries are zeros (+0 or -0) the guard
    [mag === 0] holds: the result is the vector of +0, no entry is [0 / 0]. *)
Theorem vectorNormalize_of_zero_vector (v : list float) :
  Forall Binary64.isZero v ->
  length (vectorNormalize v) = length v /\
  vectorNormalize v = repeat 0%float (length v).
Proof.
  intros Hv. split.
  - apply VectorFacts.vectorNormalize_length.
  - now apply VectorFacts.vectorNormalize_zeros.
Qed.

Lemma vectorNormalize_of_zero_vector_witness :
  length (vectorNormalize [0; -0; 0]%float) = length [0; -0; 0]%float /\
  vectorNormalize [0; -0; 0]%float = repeat 0%float (length [0; -0; 0]%float).
Proof.
  apply (vectorNormalize_of_zero_vector [0; -0; 0]%float).
  repeat constructor; (now left) || (now right).
Defined.

(** X14.  [vectorMagnitude] is never below zero: for every vector, NaN and
    infinite entries included, [vectorMagnitude(v) < 0] is false (the
    magnitude is NaN or at least 0). *)
Theorem vectorMagnitude_not_negative (v : list float) :
  PrimFloat.ltb (vectorMagnitude v) 0 = false.
Proof. unfold vectorMagnitude, Math_sqrt. apply VectorFacts.sqrt_not_negative. Qed.

(** X15.  On doubles: for every [n] and every vector [b] of [n] finite
    doubles none of which is -0, [linearEquationSolver(identityMatrix(n), b)]
    returns [b] itself: every pivot is 1, the elimination subtracts zero
    times a finite number, and back substitution divides by 1. *)
Theorem linearEquationSolver_of_identity_system (n : nat) (b : list float) :
  length b = n ->
  (forall i, i < n -> IdentityFacts.plain (get b i)) ->
  linearEquationSolver (identityMatrix n) b = Ok b.
Proof. apply IdentitySystem.linearEquationSolver_identity. Qed.

Lemma linearEquationSolver_of_identity_system_witness :
  linearEquationSolver (identityMatrix 2) [3; -1.5]%float = Ok [3; -1.5]%float.
Proof.
  apply (linearEquationSolver_of_identity_system 2 [3; -1.5]%float).
  - reflexivity.
  - intros i Hi.
    destruct i as [|[|i]]; [split; [exact I|discriminate]
                           |split; [exact I|discriminate]|lia].
Defined.

(** * Further properties of the signal and image functions *)

(** X16.  On an [r x c] image with [r >= 1] and any kernel,
    [convolution2d] returns an [r x c] image whose pixel [(i, j)] is the sum,
    added to 0 in row-major order of the kernel, of
    [image[i + ki - pad][j + kj - pad] * kernel[ki][kj]] over the taps whose
    source position is inside the image: the border is padded with nothing,
    and the size of the image is kept. *)
Theorem convolution2d_entries (r c : nat) (img kernel : image) :
  ArrayLemmas.shaped r c img -> 1 <= r ->
  exists out,
    convolution2d img kernel = Ok out /\
    ArrayLemmas.shaped r c out /\
    forall i j, i < r -> j < c ->
      get2 out i j = WindowFacts.windowSum img kernel r c i j.
Proof. apply WindowFacts.convolution2d_spec. Qed.

Lemma convolution2d_entries_witness :
  exists out,
    convolution2d [[1; 2]; [3; 4]]%float [[0; 1; 0]; [0; 0; 0]; [0; 0; 0]]%float
    = Ok out /\
    ArrayLemmas.shaped 2 2 out /\
    forall i j, i < 2 -> j < 2 ->
      get2 out i j
      = WindowFacts.windowSum [[1; 2]; [3; 4]]%float
          [[0; 1; 0]; [0; 0; 0]; [0; 0; 0]]%float 2 2 i j.
Proof.
  apply (convolution2d_entries 2 2 [[1; 2]; [3; 4]]%float); [|lia].
  split; [reflexivity|]. intros i Hi.
  destruct i as [|[|i]]; [reflexivity|reflexivity|lia].
Defined.

(** X17.  The kernel [[1]] is neutral: on an [r x c] image with [r >= 1]
    none of whose pixels is -0, [convolution2d(image, [[1]])] returns the
    image (NaN and infinite pixels included; a pixel -0 would come back as
    +0). *)
Theorem convolution2d_unit_kernel (r c : nat) (img : image) :
  ArrayLemmas.shaped r c img -> 1 <= r ->
  (forall i j, i < r -> j < c -> get2 img i j <> (-0)%float) ->
  convolution2d img [[1%float]] = Ok img.
Proof. apply WindowFacts.unit_kernel_is_neutral. Qed.

Lemma convolution2d_unit_kernel_witness :
  convolution2d [[1; 2; 3]; [4; 5; 6]]%float [[1%float]]
  = Ok [[1; 2; 3]; [4; 5; 6]]%float.
Proof.
  apply (convolution2d_unit_kernel 2 3 [[1; 2; 3]; [4; 5; 6]]%float); [|lia|].
  - split; [reflexivity|]. intros i Hi.
    destruct i as [|[|i]]; [reflexivity|reflexivity|lia].
  - intros i j Hi Hj.
    destruct i as [|[|i]]; [| |lia];
      (destruct j as [|[|[|j]]]; [| | |lia]);
      intros Heq; vm_compute in Heq; discriminate.
Defined.

(** X18.  For every whole-number size, every sigma and whatever [Math.exp]
    returns, [createGaussianKernel] returns a [size x size] matrix that is
    symmetric: [kernel[i][j]] and [kernel[j][i]] are the same double. *)
Theorem createGaussianKernel_symmetric
    (Math_exp : float -> float) (size : nat) (sigma : float) :
  ArrayLemmas.shaped size size (createGaussianKernel Math_exp size sigma) /\
  forall i j, i < size -> j < size ->
    get2 (createGaussianKernel Math_exp size sigma) i j
    = get2 (createGaussianKernel Math_exp size sigma) j i.
Proof.
  split.
  - apply KernelFacts.createGaussianKernel_spec.
  - apply KernelFacts.kernel_entries_symmetric.
Qed.

(** X19.  On an [r x c] image with [r >= 1], [gaussianBlur] returns an
    [r x c] image, for every kernel size and sigma, given or left to their
    defaults. *)
Theorem gaussianBlur_preserves_shape (Math_exp : float -> float) (r c : nat)
    (img : image) (kernelSize : option nat) (sigma : option float) :
  ArrayLemmas.shaped r c img -> 1 <= r ->
  exists out,
    gaussianBlur Math_exp img kernelSize sigma = Ok out /\
    ArrayLemmas.shaped r c out.
Proof. apply KernelFacts.gaussianBlur_shape. Qed.

Lemma gaussianBlur_preserves_shape_witness :
  exists out,
    gaussianBlur (fun _ => 1%float) [[1; 2; 3]; [4; 5; 6]]%float None None = Ok out /\
    ArrayLemmas.shaped 2 3 out.
Proof.
  apply (gaussianBlur_preserves_shape (fun _ => 1%float) 2 3
           [[1; 2; 3]; [4; 5; 6]]%float None None); [|lia].
  split; [reflexivity|]. intros i Hi.
  destruct i as [|[|i]]; [reflexivity|reflexivity|lia].
Defined.

(** X20.  For every series and whole-number window, [rollingMean] returns an
    array of the length of the series; entry [i] is NaN while
    [i + 1 < window], and from then on it is the sum
    [series[i] + series[i - 1] + ... + series[i - window + 1]], added to 0 in
    that order, divided by the window.  With a window of 0 every entry is
    NaN. *)
Theorem rollingMean_entries (series : list float) (window : nat) :
  length (rollingMean series window) = length series /\
  (forall i, i < length series ->
     get (rollingMean series window) i
     = if i + 1 <? window then nan
       else (KernelFacts.windowTotal series window i / of_nat window)%float) /\
  (forall i, i < length series -> get (rollingMean series 0) i = nan).
Proof.
  destruct (KernelFacts.rollingMean_spec series window) as [Hlen Hget].
  split; [exact Hlen|]. split; [exact Hget|].
  intros i Hi. now apply KernelFacts.rollingMean_no_window.
Qed.

(** X21.  With a window of 1, [rollingMean] returns the series itself, for
    every series none of whose entries is -0. *)
Theorem rollingMean_window_one (series : list float) :
  Forall (fun x => x <> (-0)%float) series -> rollingMean series 1 = series.
Proof. apply ShapeFacts.window_one_is_identity. Qed.

Lemma rollingMean_window_one_witness :
  rollingMean [1; 2; 3]%float 1 = [1; 2; 3]%float.
Proof.
  apply (rollingMean_window_one [1; 2; 3]%float).
  repeat constructor; intros Heq; vm_compute in Heq; discriminate.
Defined.

(** X22.  On an [r x c] image with [r >= 1], [imageRotation] returns an
    [r x c] image, for every angle and whatever [Math.cos] and [Math.sin]
    return. *)
Theorem imageRotation_preserves_shape (Math_cos Math_sin : float -> float)
    (r c : nat) (img : image) (angleDegrees : float) :
  ArrayLemmas.shaped r c img -> 1 <= r ->
  exists out,
    imageRotation Math_cos Math_sin img angleDegrees = Ok out /\
    ArrayLemmas.shaped r c out.
Proof. apply ShapeFacts.imageRotation_shape. Qed.

Lemma imageRotation_preserves_shape_witness :
  exists out,
    imageRotation (fun _ => 0.5%float) (fun _ => 0.5%float)
      [[1; 2; 3]; [4; 5; 6]]%float 45 = Ok out /\
    ArrayLemmas.shaped 2 3 out.
Proof.
  apply (imageRotation_preserves_shape (fun _ => 0.5%float) (fun _ => 0.5%float)
           2 3 [[1; 2; 3]; [4; 5; 6]]%float 45); [|lia].
  split; [reflexivity|]. intros i Hi.
  destruct i as [|[|i]]; [reflexivity|reflexivity|lia].
Defined.

(** X23.  On an [r x c] image with [r >= 1], [histogramEqualization]
    returns an [r x c] image, whatever the pixels are. *)
Theorem histogramEqualization_preserves_shape (r c : nat) (img : image) :
  ArrayLemmas.shaped r c img -> 1 <= r ->
  exists out,
    histogramEqualization img = Ok out /\ ArrayLemmas.shaped r c out.
Proof. apply ShapeFacts.histogramEqualization_shape. Qed.

Lemma histogramEqualization_preserves_shape_witness :
  exists out,
    histogramEqualization [[50; 100]; [150; 200]]%float = Ok out /\
    ArrayLemmas.shaped 2 2 out.
Proof.
  apply (histogramEqualization_preserves_shape 2 2 [[50; 100]; [150; 200]]%float);
    [|lia].
  split; [reflexivity|]. intros i Hi.
  destruct i as [|[|i]]; [reflexivity|reflexivity|lia].
Defined.

(** * How the functions compose *)

(** X24.  The transpose of a product is the product of the transposes in
    the other order, exactly, in double arithmetic: for an [r x m] matrix [A]
    and an [m x c] matrix [B] with no dimension zero,
    [matrixTranspose(matrixMultiply(A, B))] and
    [matrixMultiply(matrixTranspose(B), matrixTranspose(A))] return the same
    matrix. *)
Theorem matrixTranspose_of_product (r m c : nat) (A B : matrix float) :
  ArrayLemmas.shaped r m A -> ArrayLemmas.shaped m c B ->
  1 <= r -> 1 <= m -> 1 <= c ->
  (P <- matrixMultiply A B ;; matrixTranspose P)
  = (Bt <- matrixTranspose B ;; At <- matrixTranspose A ;; matrixMultiply Bt At).
Proof.
  apply (CompositionFacts.transpose_of_product (H := float_Number)).
  exact FloatFacts.mul_comm.
Qed.

Lemma matrixTranspose_of_product_witness :
  (P <- matrixMultiply [[1; 2; 3]; [4; 5; 6]]%float [[0.1; 7]; [8; 0.3]; [9; 10]]%float ;;
   matrixTranspose P)
  = (Bt <- matrixTranspose [[0.1; 7]; [8; 0.3]; [9; 10]]%float ;;
     At <- matrixTranspose [[1; 2; 3]; [4; 5; 6]]%float ;;
     matrixMultiply Bt At).
Proof.
  apply (matrixTranspose_of_product 2 3 2); try lia;
    (split; [reflexivity|]; intros i Hi;
     destruct i as [|[|[|i]]]; try reflexivity; lia).
Defined.

(** X25.  Every entry of a product is a dot product: for an [r x m] matrix
    [A] and an [m x c] matrix [B] of doubles with [r >= 1] and [m >= 1], the
    entry [(i, j)] of [matrixMultiply(A, B)] is
    [dotProduct(A[i], matrixTranspose(B)[j])], the same double. *)
Theorem matrixMultiply_entry_is_dot_product
    (r m c : nat) (A B P Bt : matrix float) (i j : nat) :
  ArrayLemmas.shaped r m A -> ArrayLemmas.shaped m c B -> 1 <= r -> 1 <= m ->
  matrixMultiply A B = Ok P -> matrixTranspose B = Ok Bt ->
  i < r -> j < c ->
  dotProduct (row A i) (row Bt j) = Ok (get2 P i j).
Proof.
  apply (CompositionFacts.product_entry_dot (H := float_Number)).
Qed.

Lemma matrixMultiply_entry_is_dot_product_witness :
  dotProduct (row [[1; 2]; [3; 4]]%float 1) (row [[5; 7]; [6; 8]]%float 0)
  = Ok (get2 [[19; 22]; [43; 50]]%float 1 0).
Proof.
  apply (matrixMultiply_entry_is_dot_product 2 2 2
           [[1; 2]; [3; 4]]%float [[5; 6]; [7; 8]]%float
           [[19; 22]; [43; 50]]%float [[5; 7]; [6; 8]]%float 1 0);
    try lia; try reflexivity;
    (split; [reflexivity|]; intros i Hi;
     destruct i as [|[|i]]; [reflexivity|reflexivity|lia]).
Defined.

(** X26.  [vectorMagnitude(v)] is the square root of [dotProduct(v, v)],
    the same double: the two loops add the same squares in the same order,
    and [dotProduct(v, v)] never throws. *)
Theorem vectorMagnitude_is_root_of_dotProduct (v : list float) :
  exists d, dotProduct v v = Ok d /\ vectorMagnitude v = Math_sqrt d.
Proof.
  eexists. split; [apply CompositionFacts.magnitude_of_dot|reflexivity].
Qed.

(** X28.  [imageRotation] reads no pixel outside the image: on an [r x c]
    image with [r >= 1] (array lengths are below [2^32]), for every angle and
    whatever [Math.cos] and [Math.sin] return, the result is an [r x c] image
    each of whose pixels is 0 or a pixel [image[y][x]] of the image with
    [y < r] and [x < c]. *)
Theorem imageRotation_samples_the_image (Math_cos Math_sin : float -> float)
    (r c : nat) (img : image) (angleDegrees : float) :
  ArrayLemmas.shaped r c img -> 1 <= r ->
  (Z.of_nat r < 2 ^ 32)%Z -> (Z.of_nat c < 2 ^ 32)%Z ->
  exists out,
    imageRotation Math_cos Math_sin img angleDegrees = Ok out /\
    ArrayLemmas.shaped r c out /\
    forall i j, i < r -> j < c ->
      get2 out i j = 0%float \/
      exists y x, y < r /\ x < c /\ get2 out i j = get2 img y x.
Proof.
  intros Himg Hr Hrb Hcb.
  destruct (SamplingFacts.imageRotation_samples Math_cos Math_sin r c img
              angleDegrees Himg Hr Hrb Hcb) as (out & Hrun & Hshape & Hall).
  exists out. split; [exact Hrun|]. split; [exact Hshape|]. exact Hall.
Qed.

Lemma imageRotation_samples_the_image_witness :
  exists out,
    imageRotation (fun _ => 0.6%float) (fun _ => 0.8%float)
      [[1; 2; 3]; [4; 5; 6]]%float 53 = Ok out /\
    ArrayLemmas.shaped 2 3 out /\
    forall i j, i < 2 -> j < 3 ->
      get2 out i j = 0%float \/
      exists y x, y < 2 /\ x < 3 /\
        get2 out i j = get2 [[1; 2; 3]; [4; 5; 6]]%float y x.
Proof.
  apply (imageRotation_samples_the_image (fun _ => 0.6%float) (fun _ => 0.8%float)
           2 3 [[1; 2; 3]; [4; 5; 6]]%float 53);
    [|lia|reflexivity|reflexivity].
  split; [reflexivity|]. intros i Hi.
  destruct i as [|[|i]]; [reflexivity|reflexivity|lia].
Defined.
